(** * Soberania PhiGuard: a shallow embedding of [soberania_phiguard.py]

    The guard scores one text message at a time, keeps a risk/safety state
    per direction (inbound, outbound), and reports whether a hand-off to a
    human is due.  This development embeds the module function by function
    and proves the session-level properties of its state machine.

    Conventions of the embedding.
    - Python floats are modelled as exact rationals ([Q]): every sum,
      product and comparison is the mathematical one, without rounding.
      [Qmin] and [Qmax] return their first argument on a tie, as Python's
      [min] and [max] do.  Where rounding decides a statement, the numbers
      of the update are run in binary64 itself (module [Binary64]).
    - Text is a [string] of 8-bit characters.  The regular expressions of the
      module are all of the shape [\b(lit1|lit2|...)\b] with literal
      alternatives, compiled with IGNORECASE; they are represented by the
      list of their alternatives and run by a small matcher that follows the
      leftmost, ordered-alternation, non-overlapping semantics of
      [re.findall] and [re.search].  The model covers the ASCII range: word
      characters are the ASCII letters, digits and underscore, and case is
      folded on the ASCII letters.  Statements about what the tokenizer or
      the matcher finds in a text are made for ASCII texts; the others
      hold for whatever the matcher finds.
    - [time.time()] is an input: every operation that reads the clock takes
      the reading as an argument.
    - Dictionaries with string keys are [gmap string _], sets of strings are
      [gset string]; a [defaultdict(float)] is read with the total lookup
      [!!!], whose default is [0]. *)

From Stdlib Require Import QArith Qminmax Lqa ZArith Ascii String List.
From Stdlib Require Import DecimalString DecimalN DecimalZ Qround.
From Stdlib Require PrimFloat.
From stdpp Require Import gmap strings list fin_maps.

Local Open Scope Q_scope.

(* ===================================================================== *)
(** ** Rational helpers                                                   *)
(* ===================================================================== *)

#[global] Instance Q_inhabited : Inhabited Q := populate 0.

(** [x > y] and [x >= y] as booleans. *)
Definition Qgtb (x y : Q) : bool :=
  match x ?= y with Gt => true | _ => false end.

Definition Qgeb (x y : Q) : bool :=
  match x ?= y with Lt => false | _ => true end.

(* ===================================================================== *)
(** ** Fundamental constants                                              *)
(* ===================================================================== *)

Definition PHI : Q := 1.6180339887498949.
Definition GAMMA : Q := 1 / (6 * PHI).
Definition KOIDE : Q := 2 / 3.

Definition CLAMP_HIGH : Q := 1 - GAMMA.
Definition CLAMP_LOW : Q := GAMMA.
Definition HYSTERESIS : Q := PHI * GAMMA.
Definition VOLATILE_DECAY : Q := 1 / PHI.
Definition PERSISTENT_DECAY : Q := GAMMA.

Definition V_CAP_HARM : Q := 0.50.
Definition V_CAP_MANIPULATION : Q := 0.40.
Definition V_CAP_COERCION : Q := 0.45.

(* ===================================================================== *)
(** ** Languages and directions                                           *)
(* ===================================================================== *)

Inductive Language := SPANISH | ENGLISH | PORTUGUESE | AUTO.

#[global] Instance Language_eq_dec : EqDecision Language.
Proof. solve_decision. Defined.

Definition Language_value (l : Language) : string :=
  match l with
  | SPANISH => "es" | ENGLISH => "en" | PORTUGUESE => "pt" | AUTO => "auto"
  end.

(** Iteration order of [for lang in Language]. *)
Definition all_languages : list Language := [SPANISH; ENGLISH; PORTUGUESE; AUTO].

Inductive Direction := INBOUND | OUTBOUND | BILATERAL.

#[global] Instance Direction_eq_dec : EqDecision Direction.
Proof. solve_decision. Defined.

Definition Direction_value (d : Direction) : string :=
  match d with
  | INBOUND => "inbound" | OUTBOUND => "outbound" | BILATERAL => "bilateral"
  end.

(* ===================================================================== *)
(** ** Characters, tokens and the pattern matcher                         *)
(* ===================================================================== *)

Module Re.

Definition code (c : ascii) : N := N_of_ascii c.

Definition in_range (lo hi n : N) : bool := (lo <=? n)%N && (n <=? hi)%N.

(** [\w] on the ASCII range. *)
Definition is_word_char (c : ascii) : bool :=
  let n := code c in
  in_range 48 57 n || in_range 65 90 n || in_range 97 122 n || (n =? 95)%N.

Definition lower_char (c : ascii) : ascii :=
  let n := code c in
  if in_range 65 90 n then ascii_of_N (n + 32) else c.

(** [text.lower()] *)
Fixpoint lower (s : string) : string :=
  match s with
  | EmptyString => EmptyString
  | String c s' => String (lower_char c) (lower s')
  end.

(** [re.findall(r'\b\w+\b', s)]: the maximal runs of word characters, in
    order.  [cur] is the run being read. *)
Fixpoint words_from (cur : string) (s : string) : list string :=
  match s with
  | EmptyString =>
      match cur with EmptyString => [] | _ => [cur] end
  | String c s' =>
      if is_word_char c then words_from (cur +:+ String c EmptyString) s'
      else match cur with
           | EmptyString => words_from EmptyString s'
           | _ => cur :: words_from EmptyString s'
           end
  end.

Definition findall_words (s : string) : list string := words_from EmptyString s.

(** A compiled pattern [\b(a1|a2|...)\b], IGNORECASE: its alternatives. *)
Definition pattern := list string.

Definition is_word_opt (c : option ascii) : bool :=
  match c with Some c => is_word_char c | None => false end.

(** [\b] between the character before and the character after a position
    (absent at either end of the text). *)
Definition at_boundary (before after : option ascii) : bool :=
  xorb (is_word_opt before) (is_word_opt after).

Definition head_char (s : string) : option ascii :=
  match s with EmptyString => None | String c _ => Some c end.

(** Match the literal [lit] at the start of [s], ignoring case.  Returns
    the last character consumed (or [before] for an empty literal) and the
    rest of the text. *)
Fixpoint match_literal (lit s : string) (before : option ascii)
  : option (option ascii * string) :=
  match lit with
  | EmptyString => Some (before, s)
  | String p lit' =>
      match s with
      | EmptyString => None
      | String c s' =>
          if Ascii.eqb (lower_char p) (lower_char c)
          then match_literal lit' s' (Some c)
          else None
      end
  end.

(** One alternative at one position: [\b lit \b].  Returns the length of
    the match. *)
Definition match_alt (before : option ascii) (s : string) (lit : string)
  : option nat :=
  if at_boundary before (head_char s) then
    match match_literal lit s before with
    | Some (last, rest) =>
        if at_boundary last (head_char rest) then Some (String.length lit)
        else None
    | None => None
    end
  else None.

(** The alternatives are tried in order; the first that matches wins. *)
Fixpoint match_at (p : pattern) (before : option ascii) (s : string)
  : option nat :=
  match p with
  | [] => None
  | lit :: p' =>
      match match_alt before s lit with
      | Some n => Some n
      | None => match_at p' before s
      end
  end.

(** [len(pattern.findall(text))]: scan left to right; after a match of
    length [n] the scan resumes [n] characters further ([skip] counts the
    characters of the current match still to pass).  Every alternative of
    the tables is a non-empty literal, so no match starts at the end of
    the text. *)
Fixpoint count_from (p : pattern) (skip : nat) (before : option ascii)
         (s : string) : nat :=
  match s with
  | EmptyString => 0
  | String c s' =>
      match skip with
      | S k => count_from p k (Some c) s'
      | O =>
          match match_at p before s with
          | Some n => S (count_from p (pred n) (Some c) s')
          | None => count_from p 0 (Some c) s'
          end
      end
  end.

Definition findall_count (p : pattern) (text : string) : nat :=
  count_from p 0 None text.

(** [pattern.search(text)] as a truth value: is there a match anywhere. *)
Fixpoint search_from (p : pattern) (before : option ascii) (s : string)
  : bool :=
  match s with
  | EmptyString => false
  | String c s' =>
      match match_at p before s with
      | Some _ => true
      | None => search_from p (Some c) s'
      end
  end.

Definition search (p : pattern) (text : string) : bool :=
  search_from p None text.

End Re.


(* ===================================================================== *)
(** ** Multi-language signal patterns                                     *)
(* ===================================================================== *)

(** The tables of [MANIPULATION_PATTERNS], one per language: the categories
    in insertion order, each with its three patterns. *)

Local Open Scope string_scope.

Definition SPANISH_PATTERNS : list (string * list Re.pattern) :=
  [ ("urgency", [ ["urgente"; "ahora mismo"; "inmediatamente"; "ya"; "rapido"; "prisa"];
        ["antes de que sea tarde"; "ultima oportunidad"; "tiempo limitado"];
        ["no hay tiempo"; "actua ya"; "hazlo ahora"] ]);
    ("fear", [ ["peligro"; "amenaza"; "riesgo"; "cuidado"; "alerta"];
        ["te van a"; "van a venir"; "te buscan"; "te persiguen"];
        ["desastre"; "catastrofe"; "destruccion"; "muerte"] ]);
    ("authority", [ ["autoridad"; "gobierno"; "oficial"; "militar"; "policia"];
        ["orden de"; "mandato"; "decreto"; "ley"];
        ["debes obedecer"; "tienes que"; "obligatorio"] ]);
    ("isolation", [ ["no confies"; "solo yo"; "nadie mas"; "los demas mienten"];
        ["ellos no entienden"; "solo nosotros"; "secreto entre"];
        ["no le digas a nadie"; "entre tu y yo"] ]);
    ("flattery", [ ["eres especial"; "solo tu puedes"; "elegido"; "unico"];
        ["confio solo en ti"; "eres el mejor"; "increible"];
        ["nadie como tu"; "extraordinario"] ]);
    ("coercion", [ ["si no lo haces"; "consecuencias"; "arrepentiras"];
        ["obligado a"; "forzado a"; "sin opcion"];
        ["o esto o"; "ultima advertencia"] ]);
    ("misinformation", [ ["la verdad es que"; "lo que no te dicen"; "secreto"];
        ["todos saben"; "es obvio que"; "claramente"];
        ["fuentes confirman"; "se ha confirmado"] ]);
    ("surrender", [ ["rendirse"; "entregarse"; "capitular"; "abandonar"];
        ["es inutil"; "no tiene sentido"; "perdieron"];
        ["derrota"; "derrotado"; "vencido"] ]) ].

Definition ENGLISH_PATTERNS : list (string * list Re.pattern) :=
  [ ("urgency", [ ["urgent"; "right now"; "immediately"; "hurry"; "quick"; "asap"];
        ["before it's too late"; "last chance"; "limited time"];
        ["no time"; "act now"; "do it now"] ]);
    ("fear", [ ["danger"; "threat"; "risk"; "warning"; "alert"];
        ["they will"; "coming for you"; "looking for you"];
        ["disaster"; "catastrophe"; "destruction"; "death"] ]);
    ("authority", [ ["authority"; "government"; "official"; "military"; "police"];
        ["order from"; "mandate"; "decree"; "law"];
        ["must obey"; "have to"; "mandatory"; "required"] ]);
    ("isolation", [ ["don't trust"; "only I"; "no one else"; "others lie"];
        ["they don't understand"; "only us"; "secret between"];
        ["don't tell anyone"; "between you and me"] ]);
    ("flattery", [ ["you're special"; "only you can"; "chosen"; "unique"];
        ["trust only you"; "you're the best"; "amazing"];
        ["no one like you"; "extraordinary"] ]);
    ("coercion", [ ["if you don't"; "consequences"; "regret"];
        ["forced to"; "no choice"; "must comply"];
        ["either this or"; "final warning"] ]);
    ("misinformation", [ ["the truth is"; "what they don't tell"; "secret"];
        ["everyone knows"; "obviously"; "clearly"];
        ["sources confirm"; "has been confirmed"] ]);
    ("surrender", [ ["surrender"; "give up"; "capitulate"; "abandon"];
        ["it's useless"; "pointless"; "you lost"];
        ["defeat"; "defeated"; "beaten"] ]) ].

Definition PORTUGUESE_PATTERNS : list (string * list Re.pattern) :=
  [ ("urgency", [ ["urgente"; "agora mesmo"; "imediatamente"; "ja"; "rapido"; "pressa"];
        ["antes que seja tarde"; "ultima chance"; "tempo limitado"];
        ["nao ha tempo"; "age agora"; "faz agora"] ]);
    ("fear", [ ["perigo"; "ameaca"; "risco"; "cuidado"; "alerta"];
        ["vao te"; "vem ai"; "te procuram"; "te perseguem"];
        ["desastre"; "catastrofe"; "destruicao"; "morte"] ]);
    ("authority", [ ["autoridade"; "governo"; "oficial"; "militar"; "policia"];
        ["ordem de"; "mandato"; "decreto"; "lei"];
        ["deve obedecer"; "tem que"; "obrigatorio"] ]);
    ("isolation", [ ["nao confie"; "so eu"; "ninguem mais"; "outros mentem"];
        ["eles nao entendem"; "so nos"; "segredo entre"];
        ["nao diga a ninguem"; "entre voce e eu"] ]);
    ("flattery", [ ["voce e especial"; "so voce pode"; "escolhido"; "unico"];
        ["confio so em voce"; "voce e o melhor"; "incrivel"];
        ["ninguem como voce"; "extraordinario"] ]);
    ("coercion", [ ["se nao fizer"; "consequencias"; "arrepender"];
        ["obrigado a"; "forcado a"; "sem opcao"];
        ["ou isso ou"; "ultimo aviso"] ]);
    ("misinformation", [ ["a verdade e que"; "o que nao te dizem"; "segredo"];
        ["todos sabem"; "e obvio que"; "claramente"];
        ["fontes confirmam"; "foi confirmado"] ]);
    ("surrender", [ ["render"; "entregar"; "capitular"; "abandonar"];
        ["e inutil"; "nao tem sentido"; "perderam"];
        ["derrota"; "derrotado"; "vencido"] ]) ].

(** [MANIPULATION_PATTERNS], and [self._patterns] after [_compile_patterns]
    (compilation keeps the structure).  [AUTO] is not a key. *)
Definition MANIPULATION_PATTERNS : list (Language * list (string * list Re.pattern)) :=
  [ (SPANISH, SPANISH_PATTERNS);
    (ENGLISH, ENGLISH_PATTERNS);
    (PORTUGUESE, PORTUGUESE_PATTERNS) ].

Fixpoint assoc {K V} `{EqDecision K} (k : K) (l : list (K * V)) : option V :=
  match l with
  | [] => None
  | (k', v) :: l' => if decide (k = k') then Some v else assoc k l'
  end.

Definition _compile_patterns : list (Language * list (string * list Re.pattern)) :=
  MANIPULATION_PATTERNS.

(** Signal multipliers (same across languages). *)
Definition SIGNAL_MULTIPLIERS : gmap string Q :=
  list_to_map
    [ ("harm", 2.0%Q); ("manipulation", 1.5%Q); ("coercion", 2.0%Q);
      ("flattery", 1.0%Q); ("isolation", 1.5%Q); ("urgency", 1.25%Q);
      ("authority", 1.0%Q); ("misinformation", 1.5%Q); ("fear", 1.5%Q);
      ("surrender", 1.75%Q); ("uncertainty", 0.5%Q); ("distress", 0.75%Q) ].

Local Close Scope string_scope.

(* ===================================================================== *)
(** ** Language detection                                                 *)
(* ===================================================================== *)

Local Open Scope string_scope.

Definition es_markers : list string :=
  ["el"; "la"; "de"; "que"; "en"; "es"; "por"; "con"; "para"].
Definition pt_markers : list string :=
  ["o"; "a"; "de"; "que"; "em"; "e"; "por"; "com"; "para"; "nao"; "voce"].
Definition en_markers : list string :=
  ["the"; "is"; "are"; "of"; "to"; "and"; "in"; "that"; "you"].

(** [words = set(re.findall(r'\b\w+\b', text.lower()))] *)
Definition text_words (text : string) : gset string :=
  list_to_set (Re.findall_words (Re.lower text)).

(** [len(words & set(markers))] *)
Definition marker_score (markers : list string) (text : string) : nat :=
  size (text_words text ∩ list_to_set markers).

Definition es_score : string -> nat := marker_score es_markers.
Definition pt_score : string -> nat := marker_score pt_markers.
Definition en_score : string -> nat := marker_score en_markers.

Definition _detect_language (text : string) : Language :=
  if (es_score text <? pt_score text)%nat && (en_score text <? pt_score text)%nat
  then PORTUGUESE
  else if (es_score text <? en_score text)%nat then ENGLISH
  else SPANISH.

(* ===================================================================== *)
(** ** Signal analysis                                                    *)
(* ===================================================================== *)

(** Body of the innermost loop over the resolved language's patterns:
    [matches = pattern.findall(text)]; when there are matches, add
    [len(matches) * 0.2] to the category and cap it at [1.0]. *)
Definition accumulate (text category : string) (signals : gmap string Q)
           (p : Re.pattern) : gmap string Q :=
  let matches := Re.findall_count p text in
  if (0 <? matches)%nat then
    let signals1 :=
      <[category := (signals !!! category + inject_Z (Z.of_nat matches) * 0.2)%Q]> signals in
    <[category := Qmin 1.0 (signals1 !!! category)]> signals1
  else signals.

Definition scan_primary (text : string) (cats : list (string * list Re.pattern))
           (signals : gmap string Q) : gmap string Q :=
  fold_left
    (fun sig (cp : string * list Re.pattern) =>
       fold_left (accumulate text (fst cp)) (snd cp) sig)
    cats signals.

(** Body of the innermost loop over the other languages: a presence check
    that raises the category to at least [0.3]. *)
Definition leak (text category : string) (signals : gmap string Q)
           (p : Re.pattern) : gmap string Q :=
  if Re.search p text
  then <[category := Qmax (signals !!! category) 0.3]> signals
  else signals.

Definition scan_other (text : string) (cats : list (string * list Re.pattern))
           (signals : gmap string Q) : gmap string Q :=
  fold_left
    (fun sig (cp : string * list Re.pattern) =>
       fold_left (leak text (fst cp)) (snd cp) sig)
    cats signals.

Definition scan_cross (text : string) (language : Language)
           (signals : gmap string Q) : gmap string Q :=
  fold_left
    (fun sig lang =>
       if decide (lang <> language) then
         match assoc lang _compile_patterns with
         | Some cats => scan_other text cats sig
         | None => sig
         end
       else sig)
    all_languages signals.

(** [signals.get(key, 0)] *)
Definition sig_get (signals : gmap string Q) (key : string) : Q :=
  default 0%Q (signals !! key).

Definition flag_if (b : bool) (name : string) : list string :=
  if b then [name] else [].

Definition derive_flags (signals : gmap string Q) : list string :=
  flag_if (Qgtb (sig_get signals "flattery") 0.3 && Qgtb (sig_get signals "isolation") 0.2)
          "love_bombing" ++
  flag_if (Qgtb (sig_get signals "fear") 0.4 && Qgtb (sig_get signals "urgency") 0.3)
          "fear_mongering" ++
  flag_if (Qgtb (sig_get signals "authority") 0.3 && Qgtb (sig_get signals "coercion") 0.3)
          "authority_coercion" ++
  flag_if (Qgtb (sig_get signals "isolation") 0.4) "isolation_attempt" ++
  flag_if (Qgtb (sig_get signals "misinformation") 0.4) "disinfo_detected" ++
  flag_if (Qgtb (sig_get signals "surrender") 0.3) "surrender_pressure".

Definition _analyze_signals (text : string) (language : Language)
  : gmap string Q * list string :=
  let signals0 : gmap string Q := ∅ in
  let signals1 :=
    match assoc language _compile_patterns with
    | Some cats => scan_primary text cats signals0
    | None => signals0
    end in
  let signals2 := scan_cross text language signals1 in
  (signals2, derive_flags signals2).

(* ===================================================================== *)
(** ** Risk delta                                                         *)
(* ===================================================================== *)

Definition multiplier_of (signal : string) : Q :=
  default 1.0%Q (SIGNAL_MULTIPLIERS !! signal).

Definition _compute_risk_delta (signals : gmap string Q) : Q :=
  let delta :=
    map_fold (fun signal strength delta =>
                (delta + strength * multiplier_of signal * 0.1)%Q)
             0%Q signals in
  Qmin 0.3 delta.

Local Close Scope string_scope.


(* ===================================================================== *)
(** ** Bidirectional channel                                              *)
(* ===================================================================== *)

(** One entry of [ChannelState.history]. *)
Record HistoryEntry := {
  h_turn : Z;
  h_risk : Q;
  h_safety : Q;
  h_signals : gmap string Q;
  h_flags : list string;
  h_timestamp : Q
}.

(** State for one direction of communication. *)
Record ChannelState := {
  risk : Q;
  safety : Q;
  uncertainty : Q;
  velocity : Q;
  last_update : Q;
  flags : gset string;
  turn_count : Z;
  history : list HistoryEntry
}.

(** [ChannelState()]: the dataclass defaults. *)
Definition ChannelState_default : ChannelState :=
  {| risk := CLAMP_LOW;
     safety := 1.0;
     uncertainty := 0.0;
     velocity := 0.0;
     last_update := 0.0;
     flags := ∅;
     turn_count := 0;
     history := [] |}.

(** The dictionary returned by [_update_channel]. *)
Record ChannelResult := {
  cr_risk : Q;
  cr_safety : Q;
  cr_velocity : Q;
  cr_velocity_exceeded : bool;
  cr_flags : list string
}.

(** Time-based decay: the risk and safety of the channel after the block
    guarded by [channel.last_update > 0]. *)
Definition decay_factor_of (elapsed : Q) : Q := Qmin 1.0 (elapsed / 10.0).

Definition decayed_risk (channel : ChannelState) (now : Q) : Q :=
  if Qgtb (last_update channel) 0 then
    let elapsed := now - last_update channel in
    risk channel * (1 - VOLATILE_DECAY * decay_factor_of elapsed)
  else risk channel.

Definition decayed_safety (channel : ChannelState) (now : Q) : Q :=
  if Qgtb (last_update channel) 0 then
    let elapsed := now - last_update channel in
    Qmax CLAMP_LOW (safety channel - PERSISTENT_DECAY * decay_factor_of elapsed * 0.1)
  else safety channel.

(** The velocity-cap loop over [signals.items()]. *)
Definition velocity_check (signals : gmap string Q) : bool :=
  map_fold
    (fun signal strength exceeded =>
       if String.eqb signal "harm" && Qgtb (strength * 0.3) V_CAP_HARM then true
       else if String.eqb signal "manipulation" && Qgtb (strength * 0.3) V_CAP_MANIPULATION then true
       else if String.eqb signal "coercion" && Qgtb (strength * 0.3) V_CAP_COERCION then true
       else exceeded)
    false signals.

(** [history.append(entry)], keeping the last 100 entries. *)
Definition push_history (h : list HistoryEntry) (entry : HistoryEntry)
  : list HistoryEntry :=
  let h1 := h ++ [entry] in
  if (100 <? length h1)%nat then drop (length h1 - 100) h1 else h1.

Definition _update_channel (channel : ChannelState) (signals : gmap string Q)
           (new_flags : list string) (risk_delta : Q) (now : Q)
  : ChannelResult * ChannelState :=
  let turn_count1 := (turn_count channel + 1)%Z in
  (* time-based decay *)
  let risk1 := decayed_risk channel now in
  let safety1 := decayed_safety channel now in
  (* apply risk delta with velocity tracking *)
  let old_risk := risk1 in
  let risk2 := Qmin CLAMP_HIGH (risk1 + risk_delta) in
  let velocity1 := risk2 - old_risk in
  (* check velocity caps *)
  let velocity_exceeded := velocity_check signals in
  (* accumulate flags *)
  let flags1 := flags channel ∪ list_to_set new_flags in
  (* floor enforcement *)
  let risk3 := Qmax CLAMP_LOW risk2 in
  (* update safety *)
  let safety2 :=
    if Qgtb risk_delta 0 then Qmax CLAMP_LOW (safety1 - risk_delta * GAMMA)
    else safety1 in
  let entry :=
    {| h_turn := turn_count1; h_risk := risk3; h_safety := safety2;
       h_signals := signals; h_flags := new_flags; h_timestamp := now |} in
  let channel' :=
    {| risk := risk3;
       safety := safety2;
       uncertainty := uncertainty channel;
       velocity := velocity1;
       last_update := now;
       flags := flags1;
       turn_count := turn_count1;
       history := push_history (history channel) entry |} in
  ({| cr_risk := risk3; cr_safety := safety2; cr_velocity := velocity1;
      cr_velocity_exceeded := velocity_exceeded;
      cr_flags := elements flags1 |},
   channel').

(* ===================================================================== *)
(** ** The guard                                                          *)
(* ===================================================================== *)

Record Guard := {
  node_id : string;
  primary_language : Language;
  state_file : option string;
  inbound : ChannelState;
  outbound : ChannelState;
  session_start : Q;
  total_messages : Z;
  handoff_triggered : bool;
  lockdown_active : bool
}.

Definition set_inbound (g : Guard) (c : ChannelState) : Guard :=
  {| node_id := node_id g; primary_language := primary_language g;
     state_file := state_file g; inbound := c; outbound := outbound g;
     session_start := session_start g; total_messages := total_messages g;
     handoff_triggered := handoff_triggered g;
     lockdown_active := lockdown_active g |}.

Definition set_outbound (g : Guard) (c : ChannelState) : Guard :=
  {| node_id := node_id g; primary_language := primary_language g;
     state_file := state_file g; inbound := inbound g; outbound := c;
     session_start := session_start g; total_messages := total_messages g;
     handoff_triggered := handoff_triggered g;
     lockdown_active := lockdown_active g |}.

Definition set_total_messages (g : Guard) (n : Z) : Guard :=
  {| node_id := node_id g; primary_language := primary_language g;
     state_file := state_file g; inbound := inbound g; outbound := outbound g;
     session_start := session_start g; total_messages := n;
     handoff_triggered := handoff_triggered g;
     lockdown_active := lockdown_active g |}.

Definition set_handoff_triggered (g : Guard) (b : bool) : Guard :=
  {| node_id := node_id g; primary_language := primary_language g;
     state_file := state_file g; inbound := inbound g; outbound := outbound g;
     session_start := session_start g; total_messages := total_messages g;
     handoff_triggered := b;
     lockdown_active := lockdown_active g |}.

Definition set_lockdown_active (g : Guard) (b : bool) : Guard :=
  {| node_id := node_id g; primary_language := primary_language g;
     state_file := state_file g; inbound := inbound g; outbound := outbound g;
     session_start := session_start g; total_messages := total_messages g;
     handoff_triggered := handoff_triggered g;
     lockdown_active := b |}.

Definition set_risk (c : ChannelState) (r : Q) : ChannelState :=
  {| risk := r; safety := safety c; uncertainty := uncertainty c;
     velocity := velocity c; last_update := last_update c; flags := flags c;
     turn_count := turn_count c; history := history c |}.

(** The channel a direction selects: [INBOUND] the inbound one, anything
    else the outbound one. *)
Definition channel_of (g : Guard) (direction : Direction) : ChannelState :=
  if decide (direction = INBOUND) then inbound g else outbound g.

Definition set_channel (g : Guard) (direction : Direction) (c : ChannelState)
  : Guard :=
  if decide (direction = INBOUND) then set_inbound g c else set_outbound g c.

Definition _compute_level (r : Q) : string :=
  if Qgeb r CLAMP_HIGH then "CRITICAL"
  else if Qgeb r 0.6 then "HIGH"
  else if Qgeb r 0.3 then "MODERATE"
  else "LOW".

(** The dictionary returned by [process_message]. *)
Record MessageResult := {
  m_direction : string;
  m_language : string;
  m_signals : gmap string Q;
  m_flags : list string;
  m_channel_risk : Q;
  m_channel_safety : Q;
  m_channel_velocity : Q;
  m_bilateral_risk : Q;
  m_bilateral_safety : Q;
  m_level : string;
  m_handoff : bool;
  m_lockdown : bool;
  m_timestamp : Q
}.

(** The two clock readings of one [process_message] call: the one taken on
    entry and the one taken inside [_update_channel]. *)
Record Clock := { t_entry : Q; t_update : Q }.

Definition resolve_language (text : string) (language : Language) : Language :=
  if decide (language = AUTO) then _detect_language text else language.

(** [process_message]: the result and the guard after the call.  The
    [metadata] argument is only echoed in the result and is left out; the
    write of the state file that may follow is [autosave] below. *)
Definition process_message (g : Guard) (text : string) (direction : Direction)
           (language : Language) (clk : Clock) : MessageResult * Guard :=
  let g1 := set_total_messages g (total_messages g + 1)%Z in
  let timestamp := t_entry clk in
  let language := resolve_language text language in
  let '(signals, new_flags) := _analyze_signals text language in
  let risk_delta := _compute_risk_delta signals in
  let channel := channel_of g1 direction in
  let '(channel_result, channel') :=
    _update_channel channel signals new_flags risk_delta (t_update clk) in
  let g2 := set_channel g1 direction channel' in
  let bilateral_risk := Qmax (risk (inbound g2)) (risk (outbound g2)) in
  let bilateral_safety := Qmin (safety (inbound g2)) (safety (outbound g2)) in
  let level := _compute_level bilateral_risk in
  let handoff :=
    Qgeb bilateral_risk CLAMP_HIGH || cr_velocity_exceeded channel_result in
  let g3 :=
    if handoff && negb (handoff_triggered g2)
    then set_handoff_triggered g2 true else g2 in
  ({| m_direction := Direction_value direction;
      m_language := Language_value language;
      m_signals := signals;
      m_flags := new_flags;
      m_channel_risk := cr_risk channel_result;
      m_channel_safety := cr_safety channel_result;
      m_channel_velocity := cr_velocity channel_result;
      m_bilateral_risk := bilateral_risk;
      m_bilateral_safety := bilateral_safety;
      m_level := level;
      m_handoff := handoff;
      m_lockdown := lockdown_active g3;
      m_timestamp := timestamp |},
   g3).

(** [trigger_lockdown]: the returned dictionary carries only the reason and
    a timestamp; the state change is what is modelled. *)
Definition trigger_lockdown (g : Guard) (reason : string) : Guard :=
  let g1 := set_lockdown_active g true in
  let g2 := set_inbound g1 (set_risk (inbound g1) CLAMP_HIGH) in
  set_outbound g2 (set_risk (outbound g2) CLAMP_HIGH).

(** [release_lockdown]: the status string and the new state. *)
Definition release_lockdown (g : Guard) : string * Guard :=
  if lockdown_active g
  then ("LOCKDOWN_RELEASED"%string, set_lockdown_active g false)
  else ("NO_LOCKDOWN"%string, g).

Definition reset (g : Guard) (now : Q) : Guard :=
  {| node_id := node_id g; primary_language := primary_language g;
     state_file := state_file g;
     inbound := ChannelState_default;
     outbound := ChannelState_default;
     session_start := now;
     total_messages := 0;
     handoff_triggered := false;
     lockdown_active := false |}.

(* ===================================================================== *)
(** ** Persistence                                                        *)
(* ===================================================================== *)

(** A parsed JSON document, as [json.load] returns it.  An object keeps its
    members as an association list; a key is looked up from the front. *)
#[local] Unset Elimination Schemes.
Inductive json :=
| JNull
| JBool (b : bool)
| JInt (z : Z)
| JFloat (q : Q)
| JStr (s : string)
| JArr (items : list json)
| JObj (members : list (string * json)).
#[local] Set Elimination Schemes.

(** The exceptions the loader can meet; all derive from [Exception]. *)
Inductive PyExn :=
| KeyError (key : string)
| TypeError
| OSError
| JSONDecodeError.

Definition channel_doc (c : ChannelState) : json :=
  JObj [ ("risk"%string, JFloat (risk c));
         ("safety"%string, JFloat (safety c));
         ("flags"%string, JArr (map JStr (elements (flags c))));
         ("turn_count"%string, JInt (turn_count c)) ].

(** The document [_save_state] hands to [json.dump]. *)
Definition _save_state (g : Guard) (saved_at : Q) : json :=
  JObj [ ("node_id"%string, JStr (node_id g));
         ("inbound"%string, channel_doc (inbound g));
         ("outbound"%string, channel_doc (outbound g));
         ("handoff_triggered"%string, JBool (handoff_triggered g));
         ("lockdown_active"%string, JBool (lockdown_active g));
         ("saved_at"%string, JFloat saved_at) ].

(** [if self.state_file: self._save_state()] at the end of
    [process_message]: the document written, if any.  The write comes after
    every state change of the call. *)
Definition autosave (g : Guard) (saved_at : Q) : option json :=
  match state_file g with
  | Some path => if decide (path = EmptyString) then None
                 else Some (_save_state g saved_at)
  | None => None
  end.

(** The loader runs assignments on the guard one after the other and may
    stop with an exception in between: a state-and-exception monad.
    [Untyped] stands for a run that stores a value of another type than the
    field's (the source assigns what it reads without a check, so no
    exception is raised there); the typed state has no value for it. *)
Inductive Outcome (A : Type) :=
| Ok (a : A) (g : Guard)
| Raised (e : PyExn) (g : Guard)
| Untyped.
Arguments Ok {A} a g.
Arguments Raised {A} e g.
Arguments Untyped {A}.

Definition Load (A : Type) : Type := Guard -> Outcome A.

Definition ret {A} (a : A) : Load A := fun g => Ok a g.

Definition bind {A B} (c : Load A) (k : A -> Load B) : Load B :=
  fun g =>
    match c g with
    | Ok a g' => k a g'
    | Raised e g' => Raised e g'
    | Untyped => Untyped
    end.

Definition raise {A} (e : PyExn) : Load A := fun g => Raised e g.
Definition untyped {A} : Load A := fun _ => Untyped.
Definition modify (f : Guard -> Guard) : Load unit := fun g => Ok tt (f g).
Definition get_guard : Load Guard := fun g => Ok g g.

Notation "x <- c ;; k" := (bind c (fun x => k))
  (at level 100, c at next level, right associativity).
Notation "c ;;; k" := (bind c (fun _ => k))
  (at level 100, right associativity).

(** [v[key]] for a string key: only a dict can be subscripted by a string. *)
Definition subscript (v : json) (key : string) : Load json :=
  match v with
  | JObj members =>
      match assoc key members with
      | Some x => ret x
      | None => raise (KeyError key)
      end
  | _ => raise TypeError
  end.

Definition as_number (v : json) : Load Q :=
  match v with
  | JFloat q => ret q
  | JInt z => ret (inject_Z z)
  | _ => untyped
  end.

Definition as_int (v : json) : Load Z :=
  match v with
  | JInt z => ret z
  | _ => untyped
  end.

Definition as_bool (v : json) : Load bool :=
  match v with
  | JBool b => ret b
  | _ => untyped
  end.

Definition hashable (v : json) : bool :=
  match v with
  | JArr _ | JObj _ => false
  | _ => true
  end.

Definition str_of (v : json) : option string :=
  match v with JStr s => Some s | _ => None end.

Fixpoint chars_of (s : string) : list string :=
  match s with
  | EmptyString => []
  | String c s' => String c EmptyString :: chars_of s'
  end.

(** [set(v)]: a list gives the set of its items (which must be hashable), a
    string the set of its characters, a dict the set of its keys; anything
    else is not iterable. *)
Definition to_set (v : json) : Load (gset string) :=
  match v with
  | JArr items =>
      if forallb hashable items then
        match mapM str_of items with
        | Some l => ret (list_to_set l)
        | None => untyped
        end
      else raise TypeError
  | JStr s => ret (list_to_set (chars_of s))
  | JObj members => ret (list_to_set (map fst members))
  | _ => raise TypeError
  end.

Definition set_safety (c : ChannelState) (s : Q) : ChannelState :=
  {| risk := risk c; safety := s; uncertainty := uncertainty c;
     velocity := velocity c; last_update := last_update c; flags := flags c;
     turn_count := turn_count c; history := history c |}.

Definition set_flags (c : ChannelState) (f : gset string) : ChannelState :=
  {| risk := risk c; safety := safety c; uncertainty := uncertainty c;
     velocity := velocity c; last_update := last_update c; flags := f;
     turn_count := turn_count c; history := history c |}.

Definition set_turn_count (c : ChannelState) (n : Z) : ChannelState :=
  {| risk := risk c; safety := safety c; uncertainty := uncertainty c;
     velocity := velocity c; last_update := last_update c; flags := flags c;
     turn_count := n; history := history c |}.

(** The four assignments to one channel, [self.<dir>.<field> =
    state['<dir>']['<field>']], in source order. *)
Definition load_channel (state : json) (key : string)
           (get : Guard -> ChannelState)
           (put : Guard -> ChannelState -> Guard) : Load unit :=
  d <- subscript state key ;; v <- subscript d "risk" ;; r <- as_number v ;;
  modify (fun g => put g (set_risk (get g) r)) ;;;
  d <- subscript state key ;; v <- subscript d "safety" ;; s <- as_number v ;;
  modify (fun g => put g (set_safety (get g) s)) ;;;
  d <- subscript state key ;; v <- subscript d "flags" ;; f <- to_set v ;;
  modify (fun g => put g (set_flags (get g) f)) ;;;
  d <- subscript state key ;; v <- subscript d "turn_count" ;; n <- as_int v ;;
  modify (fun g => put g (set_turn_count (get g) n)).

(** The body of the [try] block once the document is parsed. *)
Definition load_body (state : json) : Load unit :=
  load_channel state "inbound" inbound set_inbound ;;;
  load_channel state "outbound" outbound set_outbound ;;;
  v <- subscript state "handoff_triggered" ;; b <- as_bool v ;;
  modify (fun g => set_handoff_triggered g b) ;;;
  v <- subscript state "lockdown_active" ;; b <- as_bool v ;;
  modify (fun g => set_lockdown_active g b).

(** What [open] and [json.load] give for the state file. *)
Inductive FileRead :=
| ReadFails (e : PyExn)
| Parsed (state : json).

(** [_load_state]: the guard after the call and, when the [except] branch
    ran, the exception it printed.  [None] is the untyped run. *)
Definition _load_state (g : Guard) (file : FileRead)
  : option (Guard * option PyExn) :=
  match file with
  | ReadFails e => Some (g, Some e)
  | Parsed state =>
      match load_body state g with
      | Ok _ g' => Some (g', None)
      | Raised e g' => Some (g', Some e)
      | Untyped => None
      end
  end.

(** What [os.path.exists(state_file)] and the read find on disk. *)
Inductive Disk :=
| Absent
| Present (file : FileRead).

(** The guard as [__init__] builds it before it looks at the state file. *)
Definition fresh_guard (node_id : string) (primary_language : Language)
           (state_file : option string) (now : Q) : Guard :=
  {| node_id := node_id;
     primary_language := primary_language;
     state_file := state_file;
     inbound := ChannelState_default;
     outbound := ChannelState_default;
     session_start := now;
     total_messages := 0;
     handoff_triggered := false;
     lockdown_active := false |}.

Definition __init__ (node_id : string) (primary_language : Language)
           (state_file : option string) (disk : Disk) (now : Q)
  : option (Guard * option PyExn) :=
  let g := fresh_guard node_id primary_language state_file now in
  match state_file, disk with
  | Some path, Present file =>
      if decide (path = EmptyString) then Some (g, None)
      else _load_state g file
  | _, _ => Some (g, None)
  end.

(* ===================================================================== *)
(** ** Sessions                                                           *)
(* ===================================================================== *)

(** The state-changing calls of a session. *)
Inductive Op :=
| OpProcess (text : string) (direction : Direction) (language : Language)
            (clk : Clock)
| OpTrigger (reason : string)
| OpRelease.

Definition step (g : Guard) (op : Op) : Guard :=
  match op with
  | OpProcess text direction language clk =>
      snd (process_message g text direction language clk)
  | OpTrigger reason => trigger_lockdown g reason
  | OpRelease => snd (release_lockdown g)
  end.

Definition run (g : Guard) (ops : list Op) : Guard := fold_left step ops g.

(** The guards a deployment can hold: built without a record to load,
    rebuilt from a record an earlier guard saved, or obtained from one of
    those by the public operations. *)
Inductive reachable : Guard -> Prop :=
| reach_fresh nid lang sf disk now g :
    __init__ nid lang sf disk now = Some (g, None) ->
    (sf = None \/ sf = Some EmptyString \/ disk = Absent) ->
    reachable g
| reach_restart g0 saved_at nid lang sf now g log :
    reachable g0 ->
    __init__ nid lang sf (Present (Parsed (_save_state g0 saved_at))) now
      = Some (g, log) ->
    reachable g
| reach_step g op : reachable g -> reachable (step g op)
| reach_reset g now : reachable g -> reachable (reset g now).

(* ===================================================================== *)
(** ** Predicates and views used by the statements                        *)
(* ===================================================================== *)

(** The four fields a saved channel record restores. *)
Definition restore (saved current : ChannelState) : ChannelState :=
  {| risk := risk saved; safety := safety saved;
     uncertainty := uncertainty current; velocity := velocity current;
     last_update := last_update current; flags := flags saved;
     turn_count := turn_count saved; history := history current |}.

(** The bounds of the data model on one channel and on both. *)
Definition channel_ok (c : ChannelState) : Prop :=
  (CLAMP_LOW <= risk c /\ risk c <= CLAMP_HIGH) /\ CLAMP_LOW <= safety c.

Definition guard_ok (g : Guard) : Prop :=
  channel_ok (inbound g) /\ channel_ok (outbound g).

(** The values [ChannelState()] gives the fields of a channel. *)
Definition channel_initial (c : ChannelState) : Prop :=
  risk c = CLAMP_LOW /\ safety c = 1.0 /\ velocity c = 0.0 /\
  last_update c = 0.0 /\ flags c = ∅ /\ turn_count c = 0%Z /\ history c = [].

(** Every strength of a signal map is at most [1]. *)
Definition strengths_capped (signals : gmap string Q) : Prop :=
  map_Forall (fun (_ : string) (strength : Q) => strength <= 1) signals.

(** Data of the scenario checks: the attack sequence of
    [test_handoff_trigger], and a clock that shows the same reading on
    entry and in the update. *)
Definition sustained_attack : list string :=
  [ "URGENTE! Actua AHORA! No hay tiempo! Es tu ultima oportunidad!";
    "Las autoridades militares ya saben donde estas. Entregalo TODO ahora!";
    "Es tu ultima oportunidad. Si no obedeces habra consecuencias graves. Te destruiran!";
    "Solo yo puedo salvarte. Los demas te han abandonado. No confies en NADIE mas!";
    "RENDIRSE es la unica opcion. Ya perdieron. Es inutil resistir. Entrega todo!";
    "PELIGRO INMINENTE! Debes obedecer mis instrucciones INMEDIATAMENTE! O moriras!";
    "La policia viene! Es URGENTE! Solo yo te protejo! Los otros mienten!";
    "Ultima advertencia! Si no actuas AHORA tendras que rendirte ante las autoridades!";
    "ALERTA MAXIMA! Debes entregar todo! Es obligatorio! Sin opcion! URGENTE!";
    "Ya no hay escape! Rendirse! Solo yo digo la verdad! Los demas te enganan!" ]%string.

Definition at_time (t : Q) : Clock := {| t_entry := t; t_update := t |}.

(** A token that is in none of the three marker lists. *)
Definition no_marker (w : string) : Prop :=
  (w ∉ es_markers) /\ (w ∉ pt_markers) /\ (w ∉ en_markers).

#[global] Instance no_marker_dec w : Decision (no_marker w).
Proof. unfold no_marker. apply _. Defined.

(** The eight categories of the pattern tables. *)
Definition CATEGORIES : list string :=
  [ "urgency"; "fear"; "authority"; "isolation"; "flattery"; "coercion";
    "misinformation"; "surrender" ]%string.

(** A signal map as the analyzer builds them: keys among the eight
    categories, strengths of at least [0.2]. *)
Definition signals_wf (signals : gmap string Q) : Prop :=
  map_Forall (fun (category : string) (strength : Q) =>
                category ∈ CATEGORIES /\ 0.2 <= strength) signals.

(** No pattern of the resolved language's table matches the text. *)
Definition primary_silent (text : string) (language : Language) : bool :=
  match assoc language _compile_patterns with
  | Some cats =>
      forallb (fun cp : string * list Re.pattern =>
                 forallb (fun p => Nat.eqb (Re.findall_count p text) 0) (snd cp))
              cats
  | None => true
  end.

(** Every strength of the map equals [0.3]. *)
Definition all_leaked (signals : gmap string Q) : Prop :=
  map_Forall (fun (_ : string) (strength : Q) => strength == 0.3) signals.

(** The dictionary returned by [get_status]; [now] is the clock reading
    the session duration is computed from. *)
Record Status := {
  s_node_id : string;
  s_session_duration : Q;
  s_total_messages : Z;
  s_inbound_risk : Q;
  s_inbound_safety : Q;
  s_inbound_turns : Z;
  s_inbound_flags : list string;
  s_outbound_risk : Q;
  s_outbound_safety : Q;
  s_outbound_turns : Z;
  s_outbound_flags : list string;
  s_bilateral_risk : Q;
  s_bilateral_safety : Q;
  s_bilateral_level : string;
  s_handoff_triggered : bool;
  s_lockdown_active : bool
}.

Definition get_status (g : Guard) (now : Q) : Status :=
  {| s_node_id := node_id g;
     s_session_duration := now - session_start g;
     s_total_messages := total_messages g;
     s_inbound_risk := risk (inbound g);
     s_inbound_safety := safety (inbound g);
     s_inbound_turns := turn_count (inbound g);
     s_inbound_flags := elements (flags (inbound g));
     s_outbound_risk := risk (outbound g);
     s_outbound_safety := safety (outbound g);
     s_outbound_turns := turn_count (outbound g);
     s_outbound_flags := elements (flags (outbound g));
     s_bilateral_risk := Qmax (risk (inbound g)) (risk (outbound g));
     s_bilateral_safety := Qmin (safety (inbound g)) (safety (outbound g));
     s_bilateral_level :=
       _compute_level (Qmax (risk (inbound g)) (risk (outbound g)));
     s_handoff_triggered := handoff_triggered g;
     s_lockdown_active := lockdown_active g |}.

(** The number of [process_message] calls in a sequence of calls. *)
Definition is_process (op : Op) : bool :=
  match op with OpProcess _ _ _ _ => true | _ => false end.

Definition count_messages (ops : list Op) : Z :=
  Z.of_nat (length (filter (fun op => is_process op = true) ops)).

(** Both histories are within the window of 100 entries. *)
Definition history_short (g : Guard) : Prop :=
  (length (history (inbound g)) <= 100)%nat /\
  (length (history (outbound g)) <= 100)%nat.




(** What the loader never writes: the fields of a channel outside the four
    it restores, and the fields of the guard outside the two channels and
    the two sticky flags. *)
Definition channel_frame (c c' : ChannelState) : Prop :=
  uncertainty c' = uncertainty c /\ velocity c' = velocity c /\
  last_update c' = last_update c /\ history c' = history c.

Definition load_frame (g g' : Guard) : Prop :=
  node_id g' = node_id g /\ primary_language g' = primary_language g /\
  state_file g' = state_file g /\ session_start g' = session_start g /\
  total_messages g' = total_messages g /\
  channel_frame (inbound g) (inbound g') /\
  channel_frame (outbound g) (outbound g').

Definition same_lockdown (g g' : Guard) : Prop :=
  lockdown_active g' = lockdown_active g.

(** A loader step relates the guard before to the guard after by [R],
    whether it returns or raises. *)
Definition keeps (R : Guard -> Guard -> Prop) {A} (c : Load A) : Prop :=
  forall g, match c g with
            | Ok _ g' => R g g'
            | Raised _ g' => R g g'
            | Untyped => True
            end.

(** The same for the runs that raise only. *)
Definition keeps_raised (R : Guard -> Guard -> Prop) {A} (c : Load A) : Prop :=
  forall g e g', c g = Raised e g' -> R g g'.

(** A [process_message] call with direction [INBOUND]. *)
Definition is_inbound_message (op : Op) : bool :=
  match op with
  | OpProcess _ INBOUND _ _ => true
  | _ => false
  end.

(* ===================================================================== *)
(** ** The callers: kill-switch check and mesh bridge                     *)
(* ===================================================================== *)

(** Text helpers shared by [kill_switch.py] and [mesh_bridge.py]. *)
Module Text.

Definition upper_char (c : ascii) : ascii :=
  let n := Re.code c in
  if Re.in_range 97 122 n then ascii_of_N (n - 32) else c.

(** [s.upper()] *)
Fixpoint upper (s : string) : string :=
  match s with
  | EmptyString => EmptyString
  | String c s' => String (upper_char c) (upper s')
  end.

(** [needle in hay] *)
Fixpoint contains (needle hay : string) : bool :=
  String.prefix needle hay ||
  match hay with
  | EmptyString => false
  | String _ hay' => contains needle hay'
  end.

Definition is_upper (c : ascii) : bool := Re.in_range 65 90 (Re.code c).
Definition is_digit (c : ascii) : bool := Re.in_range 48 57 (Re.code c).

(** [str(z)] for an integer. *)
Definition str_of_int (z : Z) : string := NilZero.string_of_int (Z.to_int z).

(** [int(s)] for a string of digits, the only strings the inventory
    pattern hands over. *)
Definition int_of_digits (s : string) : Z :=
  match NilEmpty.uint_of_string s with
  | Some d => Z.of_N (N.of_uint d)
  | None => 0%Z
  end.

(** A string or [None] in a condition: absent and empty are false. *)
Definition truthy (s : option string) : bool :=
  match s with
  | Some (String _ _) => true
  | _ => false
  end.

End Text.

(** The decision part of [kill_switch.py]: which messages carry a panic
    code and which codes are accepted.  The sanitization that follows an
    accepted code is input and output only and is not modelled. *)
Module KillSwitch.

Definition PANIC_CODES : list string :=
  ["XKILL"; "PANIC99"; "BORRAR"; "QUEMAR"]%string.

(** [check_panic_in_message]: the first code, in table order, that occurs
    in the upper-cased message. *)
Definition check_panic_in_message (message : string) : option string :=
  List.find (fun code => Text.contains code (Text.upper message)) PANIC_CODES.

(** What [gpg.verify(signature, message)] answers: [None] when the call
    raises, else the [valid] flag and the key id of the signature. *)
Definition Gpg : Type := string -> string -> option (bool * option string).

Record PanicCodeVerifier := {
  admin_key_id : option string;
  gpg : option Gpg
}.

(** The message a signature has to cover: the code and the number of the
    five-minute window of the clock reading. *)
Definition panic_message (panic_code : string) (now : Q) : string :=
  ("PANIC:" +:+ panic_code +:+ ":" +:+ Text.str_of_int (Qfloor (now / 300)))%string.

Definition verify_panic (v : PanicCodeVerifier) (panic_code : string)
           (signature : option string) (now : Q) : bool :=
  if negb (existsb (String.eqb (Text.upper panic_code)) PANIC_CODES) then false
  else if negb (Text.truthy (admin_key_id v)) then true
  else if negb (Text.truthy signature) then false
  else match gpg v with
       | None => false
       | Some verify =>
           match verify (default EmptyString signature) (panic_message panic_code now) with
           | Some (valid, key_id) =>
               valid && bool_decide (key_id = admin_key_id v)
           | None => false
           end
       end.

End KillSwitch.

(** The message path of [mesh_bridge.py].  The radio interface, the
    database and satellite sidecars and the registered handlers are
    outside collaborators: what the bridge hands them is listed as
    events. *)
Module MeshBridge.

Record Commodity := {
  name : string;
  category : string;
  name_en : string
}.

Definition COMMODITY_CODES : gmap string Commodity :=
  list_to_map
    [ ("A1", {| name := "Maiz Blanco Natural"; category := "Grano Basico"; name_en := "Natural White Corn" |});
      ("A2", {| name := "Maiz Azul Criollo"; category := "Grano Basico"; name_en := "Heirloom Blue Corn" |});
      ("A3", {| name := "Maiz Amarillo"; category := "Grano Basico"; name_en := "Yellow Corn" |});
      ("B1", {| name := "Caraotas Negras"; category := "Legumbre"; name_en := "Black Beans" |});
      ("B2", {| name := "Frijoles Rojos"; category := "Legumbre"; name_en := "Red Beans" |});
      ("B3", {| name := "Lentejas"; category := "Legumbre"; name_en := "Lentils" |});
      ("C1", {| name := "Trigo Integral"; category := "Cereal"; name_en := "Whole Wheat" |});
      ("C2", {| name := "Arroz Paddy"; category := "Cereal"; name_en := "Paddy Rice" |});
      ("C3", {| name := "Trigo Rojo Montana"; category := "Cereal"; name_en := "Mountain Red Wheat" |});
      ("S1", {| name := "Soya No-GMO"; category := "Legumbre"; name_en := "Non-GMO Soy" |});
      ("S2", {| name := "Semillas Girasol"; category := "Oleaginosa"; name_en := "Sunflower Seeds" |});
      ("V1", {| name := "Semillas Tomate"; category := "Hortaliza"; name_en := "Tomato Seeds" |});
      ("V2", {| name := "Semillas Pimenton"; category := "Hortaliza"; name_en := "Pepper Seeds" |}) ]%string.

(** The panic codes of the fallback check, used when no kill switch is
    configured. *)
Definition PANIC_CODES : list string := ["XKILL"; "PANIC99"; "BORRAR"]%string.

Record InventoryEntry := {
  quantity : Z;
  commodity : Commodity;
  timestamp : Q
}.

Record Bridge := {
  guard : Guard;
  kill_switch : option KillSwitch.PanicCodeVerifier;
  local_inventory : gmap string Z;
  network_inventory : gmap string (gmap string InventoryEntry)
}.

Definition set_guard (b : Bridge) (g : Guard) : Bridge :=
  {| guard := g; kill_switch := kill_switch b;
     local_inventory := local_inventory b;
     network_inventory := network_inventory b |}.

Definition set_local_inventory (b : Bridge) (m : gmap string Z) : Bridge :=
  {| guard := guard b; kill_switch := kill_switch b;
     local_inventory := m;
     network_inventory := network_inventory b |}.

Definition set_network_inventory (b : Bridge)
           (m : gmap string (gmap string InventoryEntry)) : Bridge :=
  {| guard := guard b; kill_switch := kill_switch b;
     local_inventory := local_inventory b;
     network_inventory := m |}.

(** What the bridge hands to its collaborators. *)
Inductive Event :=
| EvInventory (sender code : string) (qty : Z) (commodity_name : string)
| EvAlert (sender message : string) (alert_risk : Q) (alert_flags : list string)
          (alert_language : string).

(** The longest prefix of digits, and the rest. *)
Fixpoint take_digits (s : string) : string * string :=
  match s with
  | EmptyString => (EmptyString, EmptyString)
  | String c s' =>
      if Text.is_digit c then
        let '(ds, rest) := take_digits s' in (String c ds, rest)
      else (EmptyString, s)
  end.

Fixpoint last_char (before : option ascii) (s : string) : option ascii :=
  match s with
  | EmptyString => before
  | String c s' => last_char (Some c) s'
  end.

(** The pattern [\b([A-Z][0-9])[:=](\d+)\b] at one position: the code, the
    digits and the length of the match.  [\d+] is greedy, and a shorter run
    of digits would end between two digits, where [\b] cannot hold; so the
    match takes the whole run and needs a boundary after it. *)
Definition inv_match_at (before : option ascii) (s : string)
  : option (string * string * nat) :=
  if Re.at_boundary before (Re.head_char s) then
    match s with
    | String a (String d (String sep rest)) =>
        if Text.is_upper a && Text.is_digit d
           && (Ascii.eqb sep ":" || Ascii.eqb sep "=") then
          let '(ds, rest') := take_digits rest in
          match ds with
          | EmptyString => None
          | _ =>
              if Re.at_boundary (last_char None ds) (Re.head_char rest')
              then Some (String a (String d EmptyString), ds,
                         (3 + String.length ds)%nat)
              else None
          end
        else None
    | _ => None
    end
  else None.

(** [re.findall(pattern, text)]: the matches from left to right, the scan
    resuming after each match. *)
Fixpoint inv_findall_from (skip : nat) (before : option ascii) (s : string)
  : list (string * string) :=
  match s with
  | EmptyString => []
  | String c s' =>
      match skip with
      | S k => inv_findall_from k (Some c) s'
      | O =>
          match inv_match_at before s with
          | Some (code, ds, n) => (code, ds) :: inv_findall_from (pred n) (Some c) s'
          | None => inv_findall_from 0 (Some c) s'
          end
      end
  end.

Definition inv_findall (text : string) : list (string * string) :=
  inv_findall_from 0 None text.

(** One turn of the loop of [_parse_inventory]; [now] is the clock reading
    taken for the entry. *)
Definition record_match (sender_id : string) (now : Q)
           (acc : Bridge * list Event) (m : string * string)
  : Bridge * list Event :=
  let '(b, events) := acc in
  let '(code, digits) := m in
  match COMMODITY_CODES !! code with
  | Some c =>
      let qty := Text.int_of_digits digits in
      let inner := default ∅ (network_inventory b !! sender_id) in
      let entry := {| quantity := qty; commodity := c; timestamp := now |} in
      (set_network_inventory b
         (<[sender_id := <[code := entry]> inner]> (network_inventory b)),
       events ++ [EvInventory sender_id code qty (name c)])
  | None => (b, events)
  end.

Definition _parse_inventory (b : Bridge) (message sender_id : string) (now : Q)
  : Bridge * list Event :=
  fold_left (record_match sender_id now) (inv_findall (Text.upper message)) (b, []).

(** What [process_inbound] comes to: the process is wiped and ends, or the
    message is analysed. *)
Inductive InboundOutcome :=
| Killed
| Processed (res : MessageResult) (events : list Event).

(** The panic check at the head of [process_inbound]: with a kill switch,
    its own check and verification; without one, the fallback search. *)
Definition panic_accepted (b : Bridge) (message : string)
           (signature : option string) (now : Q) : bool :=
  match kill_switch b with
  | Some v =>
      match KillSwitch.check_panic_in_message message with
      | Some panic_code => KillSwitch.verify_panic v panic_code signature now
      | None => false
      end
  | None =>
      existsb (fun panic => Text.contains panic (Text.upper message)) PANIC_CODES
  end.

(** [process_inbound]; [now] is the clock reading of the verification and
    of the inventory entries, [clk] the readings of [process_message]. *)
Definition process_inbound (b : Bridge) (message sender_id : string)
           (signature : option string) (now : Q) (clk : Clock)
  : InboundOutcome * Bridge :=
  if panic_accepted b message signature now then (Killed, b)
  else
    let '(result, g') := process_message (guard b) message INBOUND AUTO clk in
    let b1 := set_guard b g' in
    if m_handoff result then
      (Processed result
         [EvAlert sender_id message (m_channel_risk result) (m_flags result)
                  (m_language result)],
       b1)
    else if String.eqb (m_level result) "LOW" then
      let '(b2, events) := _parse_inventory b1 message sender_id now in
      (Processed result events, b2)
    else (Processed result [], b1).

(** [process_outbound]: the result and its [blocked] entry. *)
Definition process_outbound (b : Bridge) (message : string) (clk : Clock)
  : (MessageResult * bool) * Bridge :=
  let '(result, g') := process_message (guard b) message OUTBOUND AUTO clk in
  ((result, m_handoff result), set_guard b g').

Inductive SendOutcome :=
| UnknownCode
| Blocked (res : MessageResult)
| SendFailed
| Sent (text : string).

(** [f"{code}:{quantity}"] *)
Definition inventory_message (code : string) (qty : Z) : string :=
  (code +:+ ":" +:+ Text.str_of_int qty)%string.

(** [send_inventory]; [link] tells whether a radio interface is attached
    and, if so, whether [sendText] succeeds. *)
Definition send_inventory (b : Bridge) (code : string) (qty : Z)
           (clk : Clock) (link : option bool) : SendOutcome * Bridge :=
  match COMMODITY_CODES !! code with
  | None => (UnknownCode, b)
  | Some _ =>
      let message := inventory_message code qty in
      let '((result, blocked), b1) := process_outbound b message clk in
      if blocked then (Blocked result, b1)
      else
        match link with
        | Some false => (SendFailed, b1)
        | _ =>
            (Sent message,
             set_local_inventory b1 (<[code := qty]> (local_inventory b1)))
        end
  end.

End MeshBridge.

(** Shapes of texts and literals used to show that an inventory message
    matches no pattern and holds no panic code. *)
Definition is_letter (c : ascii) : bool :=
  Re.in_range 65 90 (Re.code c) || Re.in_range 97 122 (Re.code c).

Fixpoint string_forall (P : ascii -> bool) (s : string) : bool :=
  match s with
  | EmptyString => true
  | String c s' => P c && string_forall P s'
  end.

(** Every letter of the text is followed by a digit or ends the text. *)
Fixpoint sparse (s : string) : bool :=
  match s with
  | EmptyString => true
  | String c rest =>
      (negb (is_letter c)
       || match rest with
          | EmptyString => true
          | String d _ => Text.is_digit d
          end)
      && sparse rest
  end.

(** A literal that starts with a letter followed by something that is not
    a digit. *)
Definition alt_ok (lit : string) : bool :=
  match lit with
  | String a (String b _) => is_letter a && negb (Text.is_digit b)
  | _ => false
  end.

Definition tables_ok : bool :=
  forallb (fun lt : Language * list (string * list Re.pattern) =>
             forallb (fun cp : string * list Re.pattern =>
                        forallb (forallb alt_ok) (snd cp))
                     (snd lt))
          _compile_patterns.

(** An event that reports an inventory entry. *)
Definition is_inventory_event (e : MeshBridge.Event) : bool :=
  match e with
  | MeshBridge.EvInventory _ _ _ _ => true
  | MeshBridge.EvAlert _ _ _ _ _ => false
  end.

(** [network_inventory[sender_id][code]], when both keys are present. *)
Definition network_entry (b : MeshBridge.Bridge) (sender_id code : string)
  : option MeshBridge.InventoryEntry :=
  match MeshBridge.network_inventory b !! sender_id with
  | Some inner => inner !! code
  | None => None
  end.

(** The bridge accepts [code] without a signature: it has no kill switch
    and the code is in the fallback table, or its kill switch has no
    administrator key and the code is in the table of the kill switch. *)
Definition unkeyed (b : MeshBridge.Bridge) (code : string) : Prop :=
  match MeshBridge.kill_switch b with
  | None => code ∈ MeshBridge.PANIC_CODES
  | Some v =>
      Text.truthy (KillSwitch.admin_key_id v) = false /\ code ∈ KillSwitch.PANIC_CODES
  end.

(* ===================================================================== *)
(** ** The update in binary64                                             *)
(* ===================================================================== *)

(** The numbers of [_update_channel] in the arithmetic the program runs
    in: Python's [float] is IEEE 754 binary64, and every operation rounds
    to nearest.  The constants are the same expressions as above, and the
    body follows the source line by line; turn count, flags and history
    hold no float arithmetic and are left to the exact model. *)
Module Binary64.
Import PrimFloat.
#[local] Set Warnings "-inexact-float".
Local Open Scope float_scope.

Definition PHI : float := 1.6180339887498949.
Definition GAMMA : float := 1 / (6 * PHI).
Definition CLAMP_HIGH : float := 1 - GAMMA.
Definition CLAMP_LOW : float := GAMMA.
Definition VOLATILE_DECAY : float := 1 / PHI.
Definition PERSISTENT_DECAY : float := GAMMA.

(** Python's [min(a, b)] and [max(a, b)]: the second argument replaces
    the first only when it is strictly smaller (larger). *)
Definition min (a b : float) : float := if b <? a then b else a.
Definition max (a b : float) : float := if a <? b then b else a.

Record Channel := {
  risk : float;
  safety : float;
  velocity : float;
  last_update : float
}.

(** [ChannelState()] *)
Definition Channel_default : Channel :=
  {| risk := CLAMP_LOW; safety := 1.0; velocity := 0.0; last_update := 0.0 |}.

(** The last line of [_compute_risk_delta]: [min(0.3, delta)]. *)
Definition cap : float := 0.3.
Definition cap_delta (delta : float) : float := min cap delta.

Definition _update_channel (channel : Channel) (risk_delta now : float) : Channel :=
  let decays := 0 <? last_update channel in
  let elapsed := now - last_update channel in
  let decay_factor := min 1.0 (elapsed / 10.0) in
  let risk1 :=
    if decays then risk channel * (1 - VOLATILE_DECAY * decay_factor)
    else risk channel in
  let safety1 :=
    if decays
    then max CLAMP_LOW (safety channel - PERSISTENT_DECAY * decay_factor * 0.1)
    else safety channel in
  let old_risk := risk1 in
  let risk2 := min CLAMP_HIGH (risk1 + risk_delta) in
  let velocity := risk2 - old_risk in
  let risk3 := max CLAMP_LOW risk2 in
  let safety2 :=
    if 0 <? risk_delta then max CLAMP_LOW (safety1 - risk_delta * GAMMA)
    else safety1 in
  {| risk := risk3; safety := safety2; velocity := velocity; last_update := now |}.

(** The comparisons of the cap law, as the program would evaluate them. *)
Definition at_most (x bound : float) : bool := x <=? bound.

(** The delta of a message whose weighted sum is over the cap. *)
Definition capped : float := cap_delta 1.5.

(** A session in binary64: a fresh channel, then two messages with the
    capped delta, one second apart. *)
Definition first_message : Channel :=
  _update_channel Channel_default capped 1700000000.0.
Definition second_message : Channel :=
  _update_channel first_message capped 1700000001.0.

(** The same second message at the same clock reading (no decay), and the
    increase of the risk over it, [risk' - risk]. *)
Definition second_at_once : Channel :=
  _update_channel first_message capped 1700000000.0.

(** The risk before a message plus the cap, [risk + 0.3]. *)
Definition plus_cap (x : float) : float := x + cap.

End Binary64.

(* ===================================================================== *)
(** ** Texts as words and gaps, typed records                            *)
(* ===================================================================== *)

(** Texts spelled out as the tokenizer reads them: an opening gap, then
    words each followed by a gap.  A word is one or more ASCII word
    characters, a gap holds ASCII characters that are not word characters,
    and only the last gap may be empty. *)
Definition is_ascii_char (c : ascii) : bool := (Re.code c <? 128)%N.

Definition is_gap_char (c : ascii) : bool :=
  is_ascii_char c && negb (Re.is_word_char c).

Definition is_word (w : string) : bool :=
  match w with
  | EmptyString => false
  | _ => string_forall Re.is_word_char w
  end.

Definition is_gap (s : string) : bool := string_forall is_gap_char s.

Fixpoint spell (parts : list (string * string)) : string :=
  match parts with
  | [] => EmptyString
  | (w, gap) :: rest => w +:+ gap +:+ spell rest
  end.

Fixpoint spelled (parts : list (string * string)) : bool :=
  match parts with
  | [] => true
  | (w, gap) :: rest =>
      is_word w && is_gap gap
      && match rest, gap with
         | _ :: _, EmptyString => false
         | _, _ => true
         end
      && spelled rest
  end.

(** A text of ASCII characters. *)
Definition is_ascii (text : string) : bool := string_forall is_ascii_char text.

(** A word and its gap in lower case. *)
Definition lower_part (p : string * string) : string * string :=
  (Re.lower (fst p), Re.lower (snd p)).

(** The JSON types [_save_state] gives the members of a record. *)
Definition is_number (v : json) : bool :=
  match v with JFloat _ | JInt _ => true | _ => false end.

Definition is_int (v : json) : bool :=
  match v with JInt _ => true | _ => false end.

Definition is_bool (v : json) : bool :=
  match v with JBool _ => true | _ => false end.

Definition is_str (v : json) : bool :=
  match v with JStr _ => true | _ => false end.

(** A flag list holds strings (a list with an unhashable item makes
    [set] raise, which the loader reports). *)
Definition is_flag_list (v : json) : bool :=
  match v with
  | JArr items => negb (forallb hashable items) || forallb is_str items
  | _ => true
  end.

(** The member [key] of [v] passes [ok], when [v] is a dict that has it. *)
Definition member_ok (ok : json -> bool) (v : json) (key : string) : bool :=
  match v with
  | JObj members =>
      match assoc key members with
      | Some x => ok x
      | None => true
      end
  | _ => true
  end.

Definition channel_typed (d : json) : bool :=
  member_ok is_number d "risk" && member_ok is_number d "safety"
  && member_ok is_flag_list d "flags" && member_ok is_int d "turn_count".

(** Every member the loader reads, where the record has it, is of the
    type the writer gives it; members may be missing or extra. *)
Definition typed (state : json) : bool :=
  member_ok channel_typed state "inbound" && member_ok channel_typed state "outbound"
  && member_ok is_bool state "handoff_triggered"
  && member_ok is_bool state "lockdown_active".

Definition typed_file (file : FileRead) : bool :=
  match file with
  | ReadFails _ => true
  | Parsed state => typed state
  end.

(* ===================================================================== *)
(** * Properties                                                          *)
(* ===================================================================== *)

(** ** Arithmetic of the constants and of [min]/[max] *)

Lemma Qgtb_true x y : Qgtb x y = true <-> y < x.
Proof.
  unfold Qgtb. rewrite (Qgt_alt x y).
  destruct (x ?= y); split; congruence.
Qed.

Lemma Qgtb_false x y : Qgtb x y = false <-> x <= y.
Proof.
  unfold Qgtb. rewrite Qle_alt.
  destruct (x ?= y); split; congruence.
Qed.

Lemma Qgeb_true x y : Qgeb x y = true <-> y <= x.
Proof.
  unfold Qgeb. rewrite (Qge_alt x y).
  destruct (x ?= y); split; congruence.
Qed.

Lemma constants_facts :
  0 < GAMMA /\ GAMMA < 1 /\
  CLAMP_LOW == GAMMA /\ CLAMP_HIGH == 1 - GAMMA /\ PERSISTENT_DECAY == GAMMA /\
  0 < VOLATILE_DECAY /\ VOLATILE_DECAY < 1 /\
  CLAMP_LOW < 0.3 /\ CLAMP_LOW < CLAMP_HIGH.
Proof. repeat split. Qed.

(** Bring the facts on the constants into the context, for [lra]. *)
Ltac constants :=
  pose proof constants_facts as (? & ? & ? & ? & ? & ? & ? & ? & ?).

Ltac pose_once H :=
  let T := type of H in
  lazymatch goal with
  | _ : T |- _ => fail
  | _ => pose proof H
  end.

Ltac minmax_step :=
  match goal with
  | |- context [Qmax ?a ?b] => pose_once (Q.max_spec a b)
  | |- context [Qmin ?a ?b] => pose_once (Q.min_spec a b)
  | _ : context [Qmax ?a ?b] |- _ => pose_once (Q.max_spec a b)
  | _ : context [Qmin ?a ?b] |- _ => pose_once (Q.min_spec a b)
  end.

(** Case analysis on every [Qmin] and [Qmax] in sight, then linear
    arithmetic. *)
Ltac minmax := repeat minmax_step; lra.

(** ** The channel update, field by field *)

Section UpdateChannel.

Variables (channel : ChannelState) (signals : gmap string Q)
          (new_flags : list string) (risk_delta now : Q).

Let channel' := snd (_update_channel channel signals new_flags risk_delta now).
Let result := fst (_update_channel channel signals new_flags risk_delta now).

Lemma update_risk_eq :
  risk channel'
  = Qmax CLAMP_LOW (Qmin CLAMP_HIGH (decayed_risk channel now + risk_delta)).
Proof. reflexivity. Qed.

Lemma update_velocity_eq :
  velocity channel'
  = Qmin CLAMP_HIGH (decayed_risk channel now + risk_delta)
    - decayed_risk channel now.
Proof. reflexivity. Qed.

Lemma update_safety_eq :
  safety channel'
  = if Qgtb risk_delta 0
    then Qmax CLAMP_LOW (decayed_safety channel now - risk_delta * GAMMA)
    else decayed_safety channel now.
Proof. reflexivity. Qed.

Lemma update_flags_eq :
  flags channel' = flags channel ∪ list_to_set new_flags.
Proof. reflexivity. Qed.

Lemma update_result_eq :
  cr_risk result = risk channel' /\ cr_safety result = safety channel' /\
  cr_velocity result = velocity channel' /\
  cr_velocity_exceeded result = velocity_check signals.
Proof. repeat split. Qed.

(** The risk is clamped whatever the channel held before. *)
Lemma update_risk_bounds :
  CLAMP_LOW <= risk channel' /\ risk channel' <= CLAMP_HIGH.
Proof. rewrite update_risk_eq. constants. split; minmax. Qed.

Lemma decayed_safety_floor :
  CLAMP_LOW <= safety channel -> CLAMP_LOW <= decayed_safety channel now.
Proof.
  intros Hs. unfold decayed_safety.
  destruct (Qgtb (last_update channel) 0); [| exact Hs].
  apply Q.le_max_l.
Qed.

(** The safety floor is kept by the update. *)
Lemma update_safety_floor :
  CLAMP_LOW <= safety channel -> CLAMP_LOW <= safety channel'.
Proof.
  intros Hs. rewrite update_safety_eq.
  destruct (Qgtb risk_delta 0).
  - apply Q.le_max_l.
  - now apply decayed_safety_floor.
Qed.

End UpdateChannel.

(** ** One [process_message] call, field by field *)

(** Open a [process_message] call: name the analyzer's output and expose
    the record the channel update builds. *)
Ltac open_process :=
  unfold process_message;
  destruct (_analyze_signals _ _) as [sig fl];
  cbv beta iota zeta delta [_update_channel fst snd];
  unfold channel_of, set_channel;
  try match goal with
      | |- context [decide (?d = INBOUND)] => destruct (decide (d = INBOUND))
      end;
  try match goal with
      | |- context [if ?b then set_handoff_triggered _ _ else _] => destruct b
      end.

Section ProcessMessage.

Variables (g : Guard) (text : string) (direction : Direction)
          (language : Language) (clk : Clock).

Let signals := fst (_analyze_signals text (resolve_language text language)).
Let new_flags := snd (_analyze_signals text (resolve_language text language)).
Let update :=
  _update_channel (channel_of g direction) signals new_flags
                  (_compute_risk_delta signals) (t_update clk).
Let res := fst (process_message g text direction language clk).
Let g' := snd (process_message g text direction language clk).

(** The channel the direction selects is the one updated. *)
Lemma process_channel : channel_of g' direction = snd update.
Proof. subst g' update signals new_flags. open_process; reflexivity. Qed.

(** The other channel is not touched. *)
Lemma process_other_inbound : direction <> INBOUND -> inbound g' = inbound g.
Proof. intros Hd. subst g'. open_process; solve [contradiction | reflexivity]. Qed.

Lemma process_other_outbound : direction = INBOUND -> outbound g' = outbound g.
Proof. intros Hd. subst g'. open_process; solve [contradiction | reflexivity]. Qed.

Lemma process_result_channel :
  m_channel_risk res = risk (channel_of g' direction) /\
  m_channel_safety res = safety (channel_of g' direction) /\
  m_channel_velocity res = velocity (channel_of g' direction).
Proof. subst res g'. open_process; repeat split. Qed.

Lemma process_result_bilateral :
  m_bilateral_risk res = Qmax (risk (inbound g')) (risk (outbound g')) /\
  m_bilateral_safety res = Qmin (safety (inbound g')) (safety (outbound g')).
Proof. subst res g'. open_process; split; reflexivity. Qed.

(** The hand-off decision of the call, as the source computes it. *)
Lemma process_handoff_eq :
  m_handoff res
  = Qgeb (m_bilateral_risk res) CLAMP_HIGH || velocity_check signals.
Proof. subst res signals. open_process; reflexivity. Qed.

(** The sticky flag after the call. *)
Lemma process_handoff_triggered :
  handoff_triggered g' = handoff_triggered g || m_handoff res.
Proof.
  subst g' res. unfold process_message.
  destruct (_analyze_signals _ _) as [sig fl].
  cbv beta iota zeta delta [_update_channel fst snd].
  unfold channel_of, set_channel.
  destruct (decide (direction = INBOUND)); cbn;
    match goal with |- context [if ?b && _ then _ else _] => destruct b end;
    destruct (handoff_triggered g) eqn:E; cbn; congruence.
Qed.

Lemma process_lockdown_active : lockdown_active g' = lockdown_active g.
Proof. subst g'. open_process; reflexivity. Qed.

End ProcessMessage.

(** ** Loading a record the guard saved *)

Lemma bind_ok {A B} (c : Load A) (k : A -> Load B) g a g' :
  c g = Ok a g' -> bind c k g = k a g'.
Proof. unfold bind. now intros ->. Qed.

Lemma forallb_hashable_strs (l : list string) :
  forallb hashable (map JStr l) = true.
Proof. induction l as [| x l IH]; [reflexivity | exact IH]. Qed.

Lemma mapM_str_of_strs (l : list string) : mapM str_of (map JStr l) = Some l.
Proof.
  induction l as [| x l IH]; [reflexivity |].
  cbn. rewrite IH. reflexivity.
Qed.

Lemma to_set_saved_flags (X : gset string) (g : Guard) :
  to_set (JArr (map JStr (elements X))) g = Ok X g.
Proof.
  unfold to_set. rewrite forallb_hashable_strs, mapM_str_of_strs.
  unfold ret. now rewrite list_to_set_elements_L.
Qed.

Section LoadSaved.

Variables (g0 : Guard) (saved_at : Q).
Let state := _save_state g0 saved_at.

Lemma saved_inbound g : subscript state "inbound" g = Ok (channel_doc (inbound g0)) g.
Proof. reflexivity. Qed.

Lemma saved_outbound g : subscript state "outbound" g = Ok (channel_doc (outbound g0)) g.
Proof. reflexivity. Qed.

Lemma saved_handoff g :
  subscript state "handoff_triggered" g = Ok (JBool (handoff_triggered g0)) g.
Proof. reflexivity. Qed.

Lemma saved_lockdown g :
  subscript state "lockdown_active" g = Ok (JBool (lockdown_active g0)) g.
Proof. reflexivity. Qed.

Lemma saved_risk c g : subscript (channel_doc c) "risk" g = Ok (JFloat (risk c)) g.
Proof. reflexivity. Qed.

Lemma saved_safety c g : subscript (channel_doc c) "safety" g = Ok (JFloat (safety c)) g.
Proof. reflexivity. Qed.

Lemma saved_flags c g :
  subscript (channel_doc c) "flags" g = Ok (JArr (map JStr (elements (flags c)))) g.
Proof. reflexivity. Qed.

Lemma saved_turn_count c g :
  subscript (channel_doc c) "turn_count" g = Ok (JInt (turn_count c)) g.
Proof. reflexivity. Qed.

(** Run the loader one statement at a time. *)
Ltac load_step :=
  first
    [ erewrite bind_ok by
        first [ apply saved_inbound | apply saved_outbound | apply saved_handoff
              | apply saved_lockdown | apply saved_risk | apply saved_safety
              | apply saved_flags | apply saved_turn_count
              | apply to_set_saved_flags | reflexivity ] ].

Lemma load_channel_inbound g :
  load_channel state "inbound" inbound set_inbound g
  = Ok tt (set_inbound g (restore (inbound g0) (inbound g))).
Proof. unfold load_channel. repeat load_step. reflexivity. Qed.

Lemma load_channel_outbound g :
  load_channel state "outbound" outbound set_outbound g
  = Ok tt (set_outbound g (restore (outbound g0) (outbound g))).
Proof. unfold load_channel. repeat load_step. reflexivity. Qed.

Lemma load_saved g :
  load_body state g
  = Ok tt (set_lockdown_active
             (set_handoff_triggered
                (set_outbound
                   (set_inbound g (restore (inbound g0) (inbound g)))
                   (restore (outbound g0) (outbound g)))
                (handoff_triggered g0))
             (lockdown_active g0)).
Proof.
  unfold load_body.
  erewrite bind_ok by apply load_channel_inbound.
  erewrite bind_ok by apply load_channel_outbound.
  repeat load_step. reflexivity.
Qed.

End LoadSaved.

(** ** The bounds on risk and safety *)

Lemma default_channel_ok : channel_ok ChannelState_default.
Proof. repeat split; discriminate. Qed.

Lemma update_channel_ok c signals new_flags risk_delta now :
  CLAMP_LOW <= safety c ->
  channel_ok (snd (_update_channel c signals new_flags risk_delta now)).
Proof.
  intros Hs. split.
  - apply update_risk_bounds.
  - now apply update_safety_floor.
Qed.

Lemma process_message_ok g text direction language clk :
  guard_ok g ->
  guard_ok (snd (process_message g text direction language clk)).
Proof.
  intros [Hin Hout].
  pose proof (process_channel g text direction language clk) as Hc.
  unfold channel_of in Hc. unfold guard_ok.
  destruct (decide (direction = INBOUND)) as [Hd | Hd].
  - rewrite Hc, (process_other_outbound _ _ _ _ _ Hd). split; [| exact Hout].
    apply update_channel_ok, Hin.
  - rewrite Hc, (process_other_inbound _ _ _ _ _ Hd). split; [exact Hin |].
    apply update_channel_ok, Hout.
Qed.

Lemma trigger_lockdown_ok g reason : guard_ok g -> guard_ok (trigger_lockdown g reason).
Proof.
  intros [[_ Hin] [_ Hout]]. constants.
  repeat split; cbn; try assumption; lra.
Qed.

Lemma release_lockdown_ok g : guard_ok g -> guard_ok (snd (release_lockdown g)).
Proof.
  intros H. unfold release_lockdown. destruct (lockdown_active g); exact H.
Qed.

Lemma step_ok g op : guard_ok g -> guard_ok (step g op).
Proof.
  destruct op; cbn [step].
  - apply process_message_ok.
  - apply trigger_lockdown_ok.
  - apply release_lockdown_ok.
Qed.

Lemma fresh_guard_ok nid lang sf now : guard_ok (fresh_guard nid lang sf now).
Proof. split; apply default_channel_ok. Qed.

(** Every reachable guard keeps both channels within the bounds. *)
Lemma reachable_ok g : reachable g -> guard_ok g.
Proof.
  induction 1 as [nid lang sf disk now g Hinit Hcase
                 | g0 saved_at nid lang sf now g log Hr IH Hinit
                 | g op Hr IH | g now Hr IH].
  - unfold __init__ in Hinit.
    destruct Hcase as [-> | [-> | ->]]; cbn in Hinit.
    + destruct disk; injection Hinit as <-; apply fresh_guard_ok.
    + destruct disk; injection Hinit as <-; apply fresh_guard_ok.
    + destruct sf; injection Hinit as <-; apply fresh_guard_ok.
  - unfold __init__ in Hinit. destruct sf as [path |].
    + destruct (decide (path = EmptyString)).
      * injection Hinit as <- _. apply fresh_guard_ok.
      * unfold _load_state in Hinit. rewrite load_saved in Hinit.
        injection Hinit as <- _. exact IH.
    + injection Hinit as <- _. apply fresh_guard_ok.
  - now apply step_ok.
  - split; apply default_channel_ok.
Qed.

(** ** Decay *)

Lemma Qmult_le_compat_l_nonneg z x y : 0 <= z -> x <= y -> z * x <= z * y.
Proof.
  intros Hz Hxy. rewrite (Qmult_comm z x), (Qmult_comm z y).
  now apply Qmult_le_compat_r.
Qed.


Lemma decay_factor_nonneg elapsed : 0 <= elapsed -> 0 <= decay_factor_of elapsed.
Proof.
  intros He. unfold decay_factor_of.
  assert (0 <= elapsed / 10.0) by (unfold Qdiv; apply Qmult_le_0_compat; [exact He | discriminate]).
  minmax.
Qed.

Lemma decay_factor_mono e1 e2 : e1 <= e2 -> decay_factor_of e1 <= decay_factor_of e2.
Proof.
  intros He. unfold decay_factor_of.
  assert (e1 / 10.0 <= e2 / 10.0)
    by (unfold Qdiv; apply Qmult_le_compat_r; [exact He | discriminate]).
  minmax.
Qed.


Lemma keep_factor_le_1 elapsed :
  0 <= elapsed -> 1 - VOLATILE_DECAY * decay_factor_of elapsed <= 1.
Proof.
  intros He. constants. pose proof (decay_factor_nonneg elapsed He).
  assert (0 <= VOLATILE_DECAY * decay_factor_of elapsed)
    by (apply Qmult_le_0_compat; lra).
  lra.
Qed.


Lemma decayed_risk_le channel now :
  0 <= risk channel -> last_update channel <= now ->
  decayed_risk channel now <= risk channel.
Proof.
  intros Hr Ht. unfold decayed_risk.
  destruct (Qgtb (last_update channel) 0); [| lra].
  assert (He : 0 <= now - last_update channel) by lra.
  pose proof (keep_factor_le_1 _ He) as Hk.
  rewrite <- (Qmult_1_r (risk channel)) at 2.
  apply Qmult_le_compat_l_nonneg; assumption.
Qed.

(** The risk after the update does not grow when the clock reading grows. *)
Lemma decayed_risk_antitone channel now1 now2 :
  0 <= risk channel -> now1 <= now2 ->
  decayed_risk channel now2 <= decayed_risk channel now1.
Proof.
  intros Hr Ht. unfold decayed_risk.
  destruct (Qgtb (last_update channel) 0); [| lra].
  apply Qmult_le_compat_l_nonneg; [exact Hr |].
  assert (Hd : decay_factor_of (now1 - last_update channel)
               <= decay_factor_of (now2 - last_update channel))
    by (apply decay_factor_mono; lra).
  constants.
  assert (VOLATILE_DECAY * decay_factor_of (now1 - last_update channel)
          <= VOLATILE_DECAY * decay_factor_of (now2 - last_update channel))
    by (apply Qmult_le_compat_l_nonneg; [lra | exact Hd]).
  lra.
Qed.

Lemma update_risk_antitone channel signals new_flags risk_delta now1 now2 :
  0 <= risk channel -> now1 <= now2 ->
  risk (snd (_update_channel channel signals new_flags risk_delta now2))
  <= risk (snd (_update_channel channel signals new_flags risk_delta now1)).
Proof.
  intros Hr Ht. rewrite !update_risk_eq.
  pose proof (decayed_risk_antitone channel now1 now2 Hr Ht).
  minmax.
Qed.

(** ** C1: the bounds hold after every update *)

(** C1.  For every reachable guard and every message, after
    [process_message] both channels have [CLAMP_LOW <= risk <= CLAMP_HIGH]
    and [safety >= CLAMP_LOW], and so do the channel risk and safety the
    call returns. *)
Theorem process_message_bounds g text direction language clk :
  reachable g ->
  let res := fst (process_message g text direction language clk) in
  let g' := snd (process_message g text direction language clk) in
  channel_ok (inbound g') /\ channel_ok (outbound g') /\
  (CLAMP_LOW <= m_channel_risk res /\ m_channel_risk res <= CLAMP_HIGH) /\
  CLAMP_LOW <= m_channel_safety res.
Proof.
  intros Hr res g'.
  assert (Hok : guard_ok g') by (apply process_message_ok, reachable_ok, Hr).
  destruct Hok as [Hin Hout]. split; [exact Hin | split; [exact Hout |]].
  subst res.
  destruct (process_result_channel g text direction language clk) as (-> & -> & _).
  fold g'. unfold channel_of.
  destruct (decide (direction = INBOUND)); [exact Hin | exact Hout].
Qed.

Lemma process_message_bounds_witness :
  let g := fresh_guard "local" SPANISH None 0 in
  let clk := {| t_entry := 1000; t_update := 1000 |} in
  let text := "Es urgente! Debes actuar ahora mismo antes de que sea tarde!"%string in
  reachable g /\
  channel_ok (inbound (snd (process_message g text INBOUND AUTO clk))) /\
  channel_ok (outbound (snd (process_message g text INBOUND AUTO clk))) /\
  (CLAMP_LOW <= m_channel_risk (fst (process_message g text INBOUND AUTO clk)) /\
   m_channel_risk (fst (process_message g text INBOUND AUTO clk)) <= CLAMP_HIGH) /\
  CLAMP_LOW <= m_channel_safety (fst (process_message g text INBOUND AUTO clk)).
Proof.
  intros g clk text.
  assert (Hr : reachable g).
  { apply (reach_fresh "local" SPANISH None Absent 0); [reflexivity | left; reflexivity]. }
  split; [exact Hr |].
  exact (process_message_bounds g text INBOUND AUTO clk Hr).
Defined.

(** ** C2: the cap on the risk delta *)




(** The cap on the sum holds there. *)
Example cap_as_a_sum_in_binary64 :
  Binary64.at_most (Binary64.risk Binary64.second_message)
                   (Binary64.plus_cap (Binary64.risk Binary64.first_message)) = true /\
  Binary64.at_most (Binary64.risk Binary64.second_at_once)
                   (Binary64.plus_cap (Binary64.risk Binary64.first_message)) = true.
Proof. vm_compute. split; reflexivity. Qed.

(** ** C3: the hand-off flag is sticky *)

Lemma step_handoff_sticky g op :
  handoff_triggered g = true -> handoff_triggered (step g op) = true.
Proof.
  intros H. destruct op as [text direction language clk | reason |]; cbn [step].
  - rewrite process_handoff_triggered, H. reflexivity.
  - exact H.
  - unfold release_lockdown. destruct (lockdown_active g); exact H.
Qed.

Lemma run_handoff_sticky ops : forall g,
  handoff_triggered g = true -> handoff_triggered (run g ops) = true.
Proof.
  induction ops as [| op ops IH]; intros g H; [exact H |].
  cbn [run fold_left]. apply IH, step_handoff_sticky, H.
Qed.

Lemma run_app g ops1 ops2 : run g (ops1 ++ ops2) = run (run g ops1) ops2.
Proof. unfold run. apply fold_left_app. Qed.

(** C3.  In every sequence of [process_message], [trigger_lockdown] and
    [release_lockdown] calls, once [handoff_triggered] is true it is true
    after every later call; [reset] sets it to false. *)
Theorem handoff_monotone :
  (forall g ops1 ops2,
      handoff_triggered (run g ops1) = true ->
      handoff_triggered (run g (ops1 ++ ops2)) = true) /\
  (forall g now, handoff_triggered (reset g now) = false).
Proof.
  split.
  - intros g ops1 ops2 H. rewrite run_app. now apply run_handoff_sticky.
  - reflexivity.
Qed.

Lemma handoff_monotone_witness :
  let g := fresh_guard "local" SPANISH None 0 in
  let clk t := {| t_entry := t; t_update := t |} in
  let ops1 := [OpTrigger "manual"; OpProcess "hola" INBOUND SPANISH (clk 10)] in
  let ops2 := [OpRelease;
               OpProcess "gracias" INBOUND SPANISH (clk 500);
               OpProcess "gracias" OUTBOUND SPANISH (clk 900)] in
  handoff_triggered g = false /\
  handoff_triggered (run g ops1) = true /\
  handoff_triggered (run g (ops1 ++ ops2)) = true /\
  handoff_triggered (reset (run g (ops1 ++ ops2)) 1000) = false.
Proof.
  intros g clk ops1 ops2.
  assert (H1 : handoff_triggered (run g ops1) = true) by (vm_compute; reflexivity).
  split; [reflexivity |]. split; [exact H1 |].
  split; [exact (proj1 handoff_monotone g ops1 ops2 H1) |].
  exact (proj2 handoff_monotone (run g (ops1 ++ ops2)) 1000).
Defined.

(** ** C5: lockdown *)

(** C5.  [trigger_lockdown] sets both channels' risk to [CLAMP_HIGH] and
    [lockdown_active] to true; [release_lockdown] right after it sets
    [lockdown_active] to false and leaves every other field of the guard,
    both channels included, as it was. *)
Theorem lockdown_frame g reason :
  let g1 := trigger_lockdown g reason in
  let g2 := snd (release_lockdown g1) in
  (risk (inbound g1) = CLAMP_HIGH /\ risk (outbound g1) = CLAMP_HIGH /\
   lockdown_active g1 = true) /\
  (fst (release_lockdown g1) = "LOCKDOWN_RELEASED"%string /\
   lockdown_active g2 = false /\
   inbound g2 = inbound g1 /\ outbound g2 = outbound g1 /\
   g2 = set_lockdown_active g1 false).
Proof. repeat split. Qed.

(** ** C9: flags only accumulate *)

Lemma update_flags_subset channel signals new_flags risk_delta now :
  flags channel
  ⊆ flags (snd (_update_channel channel signals new_flags risk_delta now)).
Proof. rewrite update_flags_eq. set_solver. Qed.

Lemma process_flags_subset g text direction language clk :
  flags (inbound g)
    ⊆ flags (inbound (snd (process_message g text direction language clk))) /\
  flags (outbound g)
    ⊆ flags (outbound (snd (process_message g text direction language clk))).
Proof.
  pose proof (process_channel g text direction language clk) as Hc.
  unfold channel_of in Hc.
  destruct (decide (direction = INBOUND)) as [Hd | Hd].
  - rewrite Hc, (process_other_outbound _ _ _ _ _ Hd).
    split; [apply update_flags_subset | reflexivity].
  - rewrite Hc, (process_other_inbound _ _ _ _ _ Hd).
    split; [reflexivity | apply update_flags_subset].
Qed.

Lemma step_flags_subset g op :
  flags (inbound g) ⊆ flags (inbound (step g op)) /\
  flags (outbound g) ⊆ flags (outbound (step g op)).
Proof.
  destruct op as [text direction language clk | reason |]; cbn [step].
  - apply process_flags_subset.
  - split; reflexivity.
  - unfold release_lockdown. destruct (lockdown_active g); split; reflexivity.
Qed.

(** C9.  Every message leaves each channel with a flag set that contains
    the one it had before, and so does every sequence of calls of a
    session. *)
Theorem flags_monotone :
  (forall g text direction language clk,
      let g' := snd (process_message g text direction language clk) in
      flags (channel_of g direction) ⊆ flags (channel_of g' direction) /\
      flags (inbound g) ⊆ flags (inbound g') /\
      flags (outbound g) ⊆ flags (outbound g')) /\
  (forall ops g,
      flags (inbound g) ⊆ flags (inbound (run g ops)) /\
      flags (outbound g) ⊆ flags (outbound (run g ops))).
Proof.
  split.
  - intros g text direction language clk g'.
    destruct (process_flags_subset g text direction language clk) as [Hi Ho].
    split; [| split; assumption].
    unfold channel_of. destruct (decide (direction = INBOUND)); assumption.
  - induction ops as [| op ops IH]; intros g; [split; reflexivity |].
    cbn [run fold_left].
    destruct (step_flags_subset g op) as [Hi Ho].
    destruct (IH (step g op)) as [Hi' Ho'].
    split; etrans; eassumption.
Qed.

(** ** C10: the initial values *)

Lemma default_channel_initial : channel_initial ChannelState_default.
Proof. repeat split. Qed.

(** C10.  A guard built without a record to load (no state file given, or
    none on disk) and a guard just after [reset] have, on both channels,
    risk [CLAMP_LOW], safety [1.0], velocity [0], last update [0], no
    flags, turn count [0] and an empty history. *)
Theorem initial_values :
  (forall nid lang disk now,
      exists g, __init__ nid lang None disk now = Some (g, None) /\
                channel_initial (inbound g) /\ channel_initial (outbound g)) /\
  (forall nid lang sf now,
      exists g, __init__ nid lang sf Absent now = Some (g, None) /\
                channel_initial (inbound g) /\ channel_initial (outbound g)) /\
  (forall g now,
      channel_initial (inbound (reset g now)) /\
      channel_initial (outbound (reset g now))).
Proof.
  split; [| split].
  - intros nid lang disk now. exists (fresh_guard nid lang None now).
    split; [reflexivity |]. split; apply default_channel_initial.
  - intros nid lang sf now. exists (fresh_guard nid lang sf now).
    split; [destruct sf; reflexivity |]. split; apply default_channel_initial.
  - intros g now. split; apply default_channel_initial.
Qed.

(** ** C4: the analyzer's strengths and the velocity caps *)

Lemma lookup_total_capped (signals : gmap string Q) category :
  strengths_capped signals -> signals !!! category <= 1.
Proof.
  intros H. rewrite lookup_total_alt.
  destruct (signals !! category) as [v |] eqn:E; cbn.
  - exact (H category v E).
  - discriminate.
Qed.

Lemma accumulate_capped text category signals p :
  strengths_capped signals -> strengths_capped (accumulate text category signals p).
Proof.
  intros H. unfold accumulate.
  destruct (0 <? Re.findall_count p text)%nat; [| exact H].
  rewrite insert_insert_eq.
  apply map_Forall_insert_2; [minmax | exact H].
Qed.

Lemma leak_capped text category signals p :
  strengths_capped signals -> strengths_capped (leak text category signals p).
Proof.
  intros H. unfold leak. destruct (Re.search p text); [| exact H].
  apply map_Forall_insert_2; [| exact H].
  pose proof (lookup_total_capped signals category H). minmax.
Qed.

(** A loop that applies a cap-preserving body keeps the cap. *)
Lemma fold_left_capped {A} (f : gmap string Q -> A -> gmap string Q) (l : list A) :
  (forall signals a, strengths_capped signals -> strengths_capped (f signals a)) ->
  forall signals, strengths_capped signals -> strengths_capped (fold_left f l signals).
Proof.
  intros Hf. induction l as [| a l IH]; intros signals H; [exact H |].
  cbn. apply IH, Hf, H.
Qed.

Lemma scan_primary_capped text cats signals :
  strengths_capped signals -> strengths_capped (scan_primary text cats signals).
Proof.
  apply fold_left_capped. intros sig cp Hs.
  apply fold_left_capped; [| exact Hs].
  intros sig' p. apply accumulate_capped.
Qed.

Lemma scan_other_capped text cats signals :
  strengths_capped signals -> strengths_capped (scan_other text cats signals).
Proof.
  apply fold_left_capped. intros sig cp Hs.
  apply fold_left_capped; [| exact Hs].
  intros sig' p. apply leak_capped.
Qed.

Lemma scan_cross_capped text language signals :
  strengths_capped signals -> strengths_capped (scan_cross text language signals).
Proof.
  apply fold_left_capped. intros sig lang Hs.
  destruct (decide (lang <> language)); [| exact Hs].
  destruct (assoc lang _compile_patterns); [| exact Hs].
  now apply scan_other_capped.
Qed.

Lemma analyze_signals_capped text language :
  strengths_capped (fst (_analyze_signals text language)).
Proof.
  unfold _analyze_signals. cbn [fst].
  apply scan_cross_capped.
  destruct (assoc language _compile_patterns).
  - apply scan_primary_capped, map_Forall_empty.
  - apply map_Forall_empty.
Qed.

(** With strengths of at most [1] no velocity cap is exceeded. *)
Lemma velocity_check_capped signals :
  strengths_capped signals -> velocity_check signals = false.
Proof.
  unfold velocity_check, strengths_capped.
  apply (map_fold_weak_ind
           (fun (r : bool) (m : gmap string Q) =>
              map_Forall (fun (_ : string) (v : Q) => v <= 1) m -> r = false)).
  - reflexivity.
  - intros signal strength m r Hnone IH Hall.
    pose proof (map_Forall_insert_1_1 _ _ _ _ Hall) as Hs. cbn in Hs.
    pose proof (map_Forall_insert_1_2 _ _ _ _ Hnone Hall) as Hm.
    assert (H1 : Qgtb (strength * 0.3) V_CAP_HARM = false)
      by (apply Qgtb_false; unfold V_CAP_HARM; lra).
    assert (H2 : Qgtb (strength * 0.3) V_CAP_MANIPULATION = false)
      by (apply Qgtb_false; unfold V_CAP_MANIPULATION; lra).
    assert (H3 : Qgtb (strength * 0.3) V_CAP_COERCION = false)
      by (apply Qgtb_false; unfold V_CAP_COERCION; lra).
    rewrite H1, H2, H3, !andb_false_r. apply IH, Hm.
Qed.

(** C4.  For every text and language, every strength the analyzer produces
    is at most [1.0], so [strength * 0.3] exceeds none of the velocity
    caps; [velocity_exceeded] is false in the update of every message, and
    the hand-off decision of [process_message] is [bilateral_risk >=
    CLAMP_HIGH]. *)
Theorem velocity_caps_inert :
  (forall text language category strength,
      fst (_analyze_signals text language) !! category = Some strength ->
      strength <= 1.0 /\
      strength * 0.3 <= V_CAP_HARM /\
      strength * 0.3 <= V_CAP_MANIPULATION /\
      strength * 0.3 <= V_CAP_COERCION) /\
  (forall text language channel new_flags risk_delta now,
      cr_velocity_exceeded
        (fst (_update_channel channel (fst (_analyze_signals text language))
                              new_flags risk_delta now)) = false) /\
  (forall g text direction language clk,
      let res := fst (process_message g text direction language clk) in
      m_handoff res = Qgeb (m_bilateral_risk res) CLAMP_HIGH).
Proof.
  split; [| split].
  - intros text language category strength Hl.
    pose proof (analyze_signals_capped text language category strength Hl) as Hs.
    cbn in Hs. unfold V_CAP_HARM, V_CAP_MANIPULATION, V_CAP_COERCION.
    repeat split; lra.
  - intros. cbn [_update_channel fst cr_velocity_exceeded].
    apply velocity_check_capped, analyze_signals_capped.
  - intros g text direction language clk res. subst res.
    rewrite process_handoff_eq, velocity_check_capped, orb_false_r;
      [reflexivity | apply analyze_signals_capped].
Qed.

Lemma velocity_caps_inert_witness :
  let text :=
    "consecuencias, consecuencias, consecuencias, consecuencias, consecuencias!"%string in
  fst (_analyze_signals text SPANISH) !! "coercion"%string = Some 1.0 /\
  1.0 <= 1.0 /\
  1.0 * 0.3 <= V_CAP_HARM /\
  1.0 * 0.3 <= V_CAP_MANIPULATION /\
  1.0 * 0.3 <= V_CAP_COERCION.
Proof.
  intros text.
  assert (Hl : fst (_analyze_signals text SPANISH) !! "coercion"%string = Some 1.0)
    by (vm_compute; reflexivity).
  split; [exact Hl |].
  exact (proj1 velocity_caps_inert text SPANISH "coercion"%string 1.0 Hl).
Defined.

(** ** C7: decay monotonicity *)

(** C7.  The risk after an update does not grow with the time elapsed
    since the previous update (for a channel whose risk is not negative);
    in particular, of two identical messages sent after a first one, the
    one that comes sooner leaves the channel with at least the risk the
    one that comes later does. *)
Theorem decay_monotone :
  (forall channel signals new_flags risk_delta now1 now2,
      0 <= risk channel -> now1 <= now2 ->
      risk (snd (_update_channel channel signals new_flags risk_delta now2))
      <= risk (snd (_update_channel channel signals new_flags risk_delta now1))) /\
  (forall g text direction language clk0 clk_soon clk_late,
      t_update clk_soon <= t_update clk_late ->
      let g1 := snd (process_message g text direction language clk0) in
      let soon := snd (process_message g1 text direction language clk_soon) in
      let late := snd (process_message g1 text direction language clk_late) in
      risk (channel_of late direction) <= risk (channel_of soon direction)).
Proof.
  split; [exact update_risk_antitone |].
  intros g text direction language clk0 clk_soon clk_late Ht g1 soon late.
  subst soon late. rewrite !process_channel.
  apply update_risk_antitone; [| exact Ht].
  subst g1. rewrite process_channel.
  match goal with |- 0 <= risk (snd (_update_channel ?c ?s ?f ?d ?n)) =>
    pose proof (update_risk_bounds c s f d n) as [Hlow _] end.
  constants. lra.
Qed.

Lemma decay_monotone_witness :
  let g := fresh_guard "local" SPANISH None 0 in
  let text := "Es urgente! Debes actuar ahora mismo antes de que sea tarde!"%string in
  let clk t := {| t_entry := t; t_update := t |} in
  let g1 := snd (process_message g text INBOUND SPANISH (clk 1000)) in
  let soon := snd (process_message g1 text INBOUND SPANISH (clk 1000)) in
  let late := snd (process_message g1 text INBOUND SPANISH (clk 1060)) in
  t_update (clk 1000) <= t_update (clk 1060) /\
  risk (channel_of late INBOUND) <= risk (channel_of soon INBOUND).
Proof.
  intros g text clk g1 soon late.
  assert (Ht : t_update (clk 1000) <= t_update (clk 1060))
    by (unfold Qle; simpl; lia).
  split; [exact Ht |].
  exact (proj2 decay_monotone g text INBOUND SPANISH (clk 1000) (clk 1000) (clk 1060) Ht).
Defined.

(** ** C8: language detection *)

Lemma marker_score_zero markers text :
  (forall w, w ∈ text_words text -> w ∉ markers) -> marker_score markers text = 0%nat.
Proof.
  intros H. unfold marker_score.
  replace (text_words text ∩ list_to_set markers) with (∅ : gset string).
  - apply size_empty.
  - symmetry. apply leibniz_equiv. apply elem_of_equiv_empty. intros w Hw.
    apply elem_of_intersection in Hw as [Hw1 Hw2].
    apply elem_of_list_to_set in Hw2. exact (H w Hw1 Hw2).
Qed.

Lemma no_marker_scores text :
  set_Forall no_marker (text_words text) ->
  es_score text = 0%nat /\ pt_score text = 0%nat /\ en_score text = 0%nat.
Proof.
  intros H. repeat split; apply marker_score_zero; intros w Hw;
    destruct (H w Hw) as (? & ? & ?); assumption.
Qed.

Local Open Scope string_scope.

(** The tokenizer on a text spelled out as words and gaps. *)

Lemma app_cons c s t : String c s +:+ t = String c (s +:+ t).
Proof. reflexivity. Qed.

Lemma app_empty_l t : EmptyString +:+ t = t.
Proof. reflexivity. Qed.

Lemma app_empty_r s : s +:+ EmptyString = s.
Proof. induction s as [| c s IH]; [reflexivity |]. now rewrite app_cons, IH. Qed.

Lemma app_assoc_s s t u : (s +:+ t) +:+ u = s +:+ (t +:+ u).
Proof. induction s as [| c s IH]; [reflexivity |]. now rewrite !app_cons, IH. Qed.

Lemma words_from_gap s : forall t,
  is_gap s = true -> Re.words_from EmptyString (s +:+ t) = Re.words_from EmptyString t.
Proof.
  induction s as [| c s IH]; intros t H; [reflexivity |].
  cbn [is_gap string_forall] in H. apply andb_true_iff in H as [Hc Hs].
  unfold is_gap_char in Hc. apply andb_true_iff in Hc as [_ Hc].
  apply negb_true_iff in Hc.
  rewrite app_cons. cbn [Re.words_from]. rewrite Hc. now apply IH.
Qed.

Lemma words_from_word w : forall cur t,
  string_forall Re.is_word_char w = true ->
  Re.words_from cur (w +:+ t) = Re.words_from (cur +:+ w) t.
Proof.
  induction w as [| c w IH]; intros cur t H; [now rewrite app_empty_r |].
  cbn [string_forall] in H. apply andb_true_iff in H as [Hc Hw].
  rewrite app_cons. cbn [Re.words_from]. rewrite Hc, (IH _ _ Hw), app_assoc_s.
  reflexivity.
Qed.

(** At the end of the text or before a gap character the word being read
    is complete. *)
Lemma words_from_end cur t :
  cur <> EmptyString ->
  match t with EmptyString => True | String c _ => Re.is_word_char c = false end ->
  Re.words_from cur t = cur :: Re.words_from EmptyString t.
Proof.
  intros Hc Ht. destruct t as [| c t]; cbn [Re.words_from].
  - destruct cur; [contradiction | reflexivity].
  - rewrite Ht. destruct cur; [contradiction | reflexivity].
Qed.

Lemma findall_words_spell parts :
  spelled parts = true -> Re.words_from EmptyString (spell parts) = map fst parts.
Proof.
  induction parts as [| [w gap] rest IH]; [reflexivity |].
  cbn [spelled spell map fst]. intros H.
  apply andb_true_iff in H as [H Hrest]. apply andb_true_iff in H as [H Hlast].
  apply andb_true_iff in H as [Hw Hg].
  assert (Hne : w <> EmptyString) by (destruct w; [discriminate Hw | discriminate]).
  assert (Hwc : string_forall Re.is_word_char w = true) by (destruct w; [discriminate Hw | exact Hw]).
  rewrite (words_from_word w EmptyString _ Hwc), app_empty_l.
  rewrite words_from_end; [| exact Hne |].
  - rewrite (words_from_gap gap _ Hg), (IH Hrest). reflexivity.
  - destruct gap as [| c gap].
    + destruct rest; [exact I | discriminate Hlast].
    + rewrite app_cons. cbn [is_gap string_forall] in Hg.
      apply andb_true_iff in Hg as [Hc _]. unfold is_gap_char in Hc.
      apply andb_true_iff in Hc as [_ Hc]. now apply negb_true_iff in Hc.
Qed.

Lemma lower_app s t : Re.lower (s +:+ t) = Re.lower s +:+ Re.lower t.
Proof. induction s as [| c s IH]; [reflexivity |]. rewrite app_cons. cbn [Re.lower]. now rewrite IH, app_cons. Qed.

Lemma is_word_char_lower c : Re.is_word_char (Re.lower_char c) = Re.is_word_char c.
Proof. destruct c as [[] [] [] [] [] [] [] []]; reflexivity. Qed.

Lemma is_gap_char_lower c : is_gap_char (Re.lower_char c) = is_gap_char c.
Proof. destruct c as [[] [] [] [] [] [] [] []]; reflexivity. Qed.

Lemma string_forall_lower (P : ascii -> bool) s :
  (forall c, P (Re.lower_char c) = P c) ->
  string_forall P (Re.lower s) = string_forall P s.
Proof.
  intros H. induction s as [| c s IH]; [reflexivity |].
  cbn [Re.lower string_forall]. now rewrite H, IH.
Qed.

Lemma lower_spell parts : Re.lower (spell parts) = spell (map lower_part parts).
Proof.
  induction parts as [| [w gap] rest IH]; [reflexivity |].
  cbn [spell map lower_part fst snd]. now rewrite !lower_app, IH.
Qed.

Lemma spelled_lower parts : spelled (map lower_part parts) = spelled parts.
Proof.
  induction parts as [| [w gap] rest IH]; [reflexivity |].
  cbn [spelled map lower_part fst snd]. rewrite IH. f_equal. f_equal; [f_equal |].
  - unfold is_word. destruct w as [| c w]; [reflexivity |]. cbn [Re.lower].
    change (string_forall Re.is_word_char (Re.lower (String c w))
            = string_forall Re.is_word_char (String c w)).
    apply string_forall_lower, is_word_char_lower.
  - apply string_forall_lower, is_gap_char_lower.
  - destruct rest; destruct gap; reflexivity.
Qed.

(** The tokens of a spelled-out text are its words in lower case. *)
Lemma text_words_spell lead parts :
  is_gap lead = true -> spelled parts = true ->
  text_words (lead +:+ spell parts)
  = list_to_set (map (fun p => Re.lower (fst p)) parts).
Proof.
  intros Hl Hp. unfold text_words, Re.findall_words.
  rewrite lower_app, lower_spell.
  rewrite words_from_gap
    by (unfold is_gap; rewrite string_forall_lower by apply is_gap_char_lower; exact Hl).
  rewrite findall_words_spell by (rewrite spelled_lower; exact Hp).
  rewrite map_map. reflexivity.
Qed.

(** Every ASCII text is made of words and gaps. *)
Lemma ascii_text_spelled text :
  is_ascii text = true ->
  exists lead parts,
    is_gap lead = true /\ spelled parts = true /\ text = lead +:+ spell parts.
Proof.
  induction text as [| c t IH]; [now exists EmptyString, [] |].
  unfold is_ascii. cbn [string_forall]. intros H.
  apply andb_true_iff in H as [Hc Ht].
  destruct (IH Ht) as (lead & parts & Hl & Hp & ->).
  destruct (Re.is_word_char c) eqn:Hw.
  - destruct lead as [| l lead].
    + destruct parts as [| [w gap] rest].
      * exists EmptyString, [(String c EmptyString, EmptyString)].
        repeat split. cbn. now rewrite Hw.
      * exists EmptyString, ((String c w, gap) :: rest).
        split; [reflexivity |]. split; [| reflexivity].
        cbn [spelled] in Hp |- *.
        apply andb_true_iff in Hp as [Hp Hrest]. apply andb_true_iff in Hp as [Hp Hlast].
        apply andb_true_iff in Hp as [Hword Hgap].
        rewrite Hgap, Hlast, Hrest.
        assert (Hcw : is_word (String c w) = true).
        { cbn [is_word string_forall]. rewrite Hw.
          destruct w; [discriminate Hword | exact Hword]. }
        rewrite Hcw. reflexivity.
    + exists EmptyString, ((String c EmptyString, String l lead) :: parts).
      split; [reflexivity |]. split; [| reflexivity].
      cbn [spelled]. rewrite Hl, Hp.
      assert (Hcw : is_word (String c EmptyString) = true) by (cbn; now rewrite Hw).
      rewrite Hcw. destruct parts; reflexivity.
  - exists (String c lead), parts.
    split; [| split; [exact Hp | reflexivity]].
    unfold is_gap in *. cbn [string_forall]. rewrite Hl.
    unfold is_gap_char. now rewrite Hc, Hw.
Qed.

(** C8.  With [es], [pt], [en] the sizes of the intersections of the
    token set with the three marker sets: the detector returns Portuguese
    exactly when [pt > es] and [pt > en]; otherwise English exactly when
    [en > es]; otherwise Spanish.  A text with no overlap with any marker
    set (all three sizes are zero, which is the case when no token of the
    text is a marker) gives Spanish.  The token set is that of the text:
    for a text spelled out as words and gaps, the three sizes count the
    distinct words, in lower case, that are markers; and every ASCII
    text can be spelled out so. *)
Theorem detect_language_rule text :
  let es := es_score text in
  let pt := pt_score text in
  let en := en_score text in
  (_detect_language text = PORTUGUESE <-> (pt > es /\ pt > en)%nat) /\
  (_detect_language text = ENGLISH <-> (~ (pt > es /\ pt > en) /\ en > es)%nat) /\
  (_detect_language text = SPANISH <-> (~ (pt > es /\ pt > en) /\ ~ en > es)%nat) /\
  (es = 0%nat /\ pt = 0%nat /\ en = 0%nat -> _detect_language text = SPANISH) /\
  (set_Forall no_marker (text_words text) -> _detect_language text = SPANISH) /\
  (forall lead parts,
      is_gap lead = true -> spelled parts = true ->
      text = (lead +:+ spell parts)%string ->
      let words : gset string := list_to_set (map (fun p => Re.lower (fst p)) parts) in
      es = size (words ∩ list_to_set es_markers) /\
      pt = size (words ∩ list_to_set pt_markers) /\
      en = size (words ∩ list_to_set en_markers)) /\
  (is_ascii text = true ->
   exists lead parts,
     is_gap lead = true /\ spelled parts = true /\
     text = (lead +:+ spell parts)%string).
Proof.
  intros es pt en.
  assert (Hrule :
    (_detect_language text = PORTUGUESE <-> (pt > es /\ pt > en)%nat) /\
    (_detect_language text = ENGLISH <-> (~ (pt > es /\ pt > en) /\ en > es)%nat) /\
    (_detect_language text = SPANISH <-> (~ (pt > es /\ pt > en) /\ ~ en > es)%nat) /\
    (es = 0%nat /\ pt = 0%nat /\ en = 0%nat -> _detect_language text = SPANISH)).
  { unfold _detect_language. fold es pt en. clearbody es pt en.
    destruct (Nat.ltb_spec es pt), (Nat.ltb_spec en pt), (Nat.ltb_spec es en);
      cbn; intuition (try discriminate; try lia). }
  destruct Hrule as (Hpt & Hen & Hes & Hzero).
  refine (conj Hpt (conj Hen (conj Hes (conj Hzero (conj _ (conj _ _)))))).
  - intros Hw. apply Hzero. subst es pt en. now apply no_marker_scores.
  - intros lead parts Hl Hp -> words. subst es pt en words.
    unfold es_score, pt_score, en_score, marker_score.
    rewrite (text_words_spell lead parts Hl Hp). repeat split.
  - apply ascii_text_spelled.
Qed.

Lemma detect_language_rule_witness :
  let pt_text :=
    "PERIGO! Eles vem ai te buscar! Voce tem que fugir agora mesmo! Nao ha tempo!"%string in
  let pt_parts :=
    [ ("PERIGO", "! "); ("Eles", " "); ("vem", " "); ("ai", " "); ("te", " ");
      ("buscar", "! "); ("Voce", " "); ("tem", " "); ("que", " "); ("fugir", " ");
      ("agora", " "); ("mesmo", "! "); ("Nao", " "); ("ha", " "); ("tempo", "!") ]%string in
  let en_text :=
    "The authorities demand you surrender immediately. You have no choice. Comply or face consequences."%string in
  let es_text :=
    "Es urgente! Actua ahora! Solo yo te puedo ayudar, no confies en nadie mas!"%string in
  let plain := "Maiz disponible, sector 3."%string in
  (pt_text = (EmptyString +:+ spell pt_parts)%string /\
   es_score pt_text = 1%nat /\ pt_score pt_text = 3%nat /\ en_score pt_text = 0%nat /\
   _detect_language pt_text = PORTUGUESE) /\
  (es_score en_text = 0%nat /\ pt_score en_text = 0%nat /\ en_score en_text = 2%nat /\
   _detect_language en_text = ENGLISH) /\
  (es_score es_text = 2%nat /\ pt_score es_text = 0%nat /\ en_score es_text = 0%nat /\
   _detect_language es_text = SPANISH) /\
  (set_Forall no_marker (text_words plain) /\ _detect_language plain = SPANISH).
Proof.
  intros pt_text pt_parts en_text es_text plain.
  split; [| split; [| split]].
  - destruct (detect_language_rule pt_text) as (Hpt & _ & _ & _ & _ & Htok & _).
    assert (Hspell : pt_text = (EmptyString +:+ spell pt_parts)%string) by reflexivity.
    destruct (Htok EmptyString pt_parts eq_refl eq_refl Hspell) as (Hes & Hp & Hen).
    assert (He1 : es_score pt_text = 1%nat) by (rewrite Hes; vm_compute; reflexivity).
    assert (He2 : pt_score pt_text = 3%nat) by (rewrite Hp; vm_compute; reflexivity).
    assert (He3 : en_score pt_text = 0%nat) by (rewrite Hen; vm_compute; reflexivity).
    split; [exact Hspell |]. split; [exact He1 |]. split; [exact He2 |].
    split; [exact He3 |].
    apply Hpt. rewrite He1, He2, He3. lia.
  - destruct (detect_language_rule en_text) as (_ & Hen & _).
    assert (He1 : es_score en_text = 0%nat) by (vm_compute; reflexivity).
    assert (He2 : pt_score en_text = 0%nat) by (vm_compute; reflexivity).
    assert (He3 : en_score en_text = 2%nat) by (vm_compute; reflexivity).
    split; [exact He1 |]. split; [exact He2 |]. split; [exact He3 |].
    apply Hen. rewrite He1, He2, He3. lia.
  - destruct (detect_language_rule es_text) as (_ & _ & Hes & _).
    assert (He1 : es_score es_text = 2%nat) by (vm_compute; reflexivity).
    assert (He2 : pt_score es_text = 0%nat) by (vm_compute; reflexivity).
    assert (He3 : en_score es_text = 0%nat) by (vm_compute; reflexivity).
    split; [exact He1 |]. split; [exact He2 |]. split; [exact He3 |].
    apply Hes. rewrite He1, He2, He3. lia.
  - destruct (detect_language_rule plain) as (_ & _ & _ & _ & Hnone & _).
    assert (Hw : set_Forall no_marker (text_words plain))
      by (apply (bool_decide_unpack _); vm_compute; exact I).
    split; [exact Hw | exact (Hnone Hw)].
Defined.

Local Close Scope string_scope.

(** ** C6: loading a malformed record *)

(** A file that cannot be opened or parsed leaves the guard as built and
    the exception is reported. *)
Lemma init_unreadable nid lang path e now :
  path <> EmptyString ->
  __init__ nid lang (Some path) (Present (ReadFails e)) now
  = Some (fresh_guard nid lang (Some path) now, Some e).
Proof.
  intros Hp. unfold __init__. destruct (decide (path = EmptyString)); [contradiction |].
  reflexivity.
Qed.

(** So does a document whose first lookup, [state['inbound']], fails: no
    assignment has run yet. *)
Lemma load_fails_at_once g state e :
  subscript state "inbound" g = Raised e g ->
  _load_state g (Parsed state) = Some (g, Some e).
Proof.
  intros H. unfold _load_state, load_body, load_channel.
  unfold bind at 1. unfold bind at 1. unfold bind at 1. rewrite H. reflexivity.
Qed.

(** The loader stops at the first failing statement and keeps what the
    statements before it assigned. *)
Lemma load_body_inbound_only g state (c : ChannelState) e :
  load_channel state "inbound" inbound set_inbound g = Ok tt (set_inbound g c) ->
  subscript state "outbound" (set_inbound g c) = Raised e (set_inbound g c) ->
  _load_state g (Parsed state) = Some (set_inbound g c, Some e).
Proof.
  intros Hin Hout. unfold _load_state, load_body.
  erewrite bind_ok by exact Hin.
  unfold load_channel. unfold bind at 1. unfold bind at 1. unfold bind at 1.
  rewrite Hout. reflexivity.
Qed.

(** C6, at a record that lacks its ["outbound"] member: the exception is
    caught and reported and construction returns a guard, but the inbound
    channel holds the values of the record, not the defaults, while the
    outbound channel and both sticky flags stay at their defaults. *)
Theorem load_state_partial :
  let record :=
    JObj [ ("node_id"%string, JStr "local");
           ("inbound"%string,
            JObj [ ("risk"%string, JFloat 0.85);
                   ("safety"%string, JFloat 0.4);
                   ("flags"%string, JArr [JStr "love_bombing"]);
                   ("turn_count"%string, JInt 12) ]);
           ("handoff_triggered"%string, JBool true);
           ("lockdown_active"%string, JBool true);
           ("saved_at"%string, JFloat 1000) ] in
  exists g,
    __init__ "local" SPANISH (Some "state.json"%string) (Present (Parsed record)) 2000
    = Some (g, Some (KeyError "outbound")) /\
    risk (inbound g) = 0.85 /\ safety (inbound g) = 0.4 /\
    flags (inbound g) = {[ "love_bombing"%string ]} /\
    turn_count (inbound g) = 12%Z /\
    ~ channel_initial (inbound g) /\
    channel_initial (outbound g) /\
    handoff_triggered g = false /\ lockdown_active g = false.
Proof.
  intros record. eexists. split; [vm_compute; reflexivity |].
  repeat split.
  intros (Hr & _). vm_compute in Hr. discriminate Hr.
Qed.

(** ** The scenarios of the test suite, run on the model *)

(** Scenario A: a plain inventory message raises nothing. *)
Example scenario_plain_message :
  let res := fst (process_message (fresh_guard "local" SPANISH None 0)
                    "Hola, tenemos 50kg de maiz disponible en el sector 3."
                    INBOUND SPANISH (at_time 1000)) in
  m_signals res = ∅ /\ m_flags res = [] /\ m_level res = "LOW"%string /\
  m_handoff res = false /\ m_channel_risk res == CLAMP_LOW.
Proof. vm_compute. repeat split. Qed.

(** Scenario B: an urgent message populates [urgency] and lifts the risk
    above the baseline without a hand-off. *)
Example scenario_urgent_message :
  let res := fst (process_message (fresh_guard "local" SPANISH None 0)
                    "Es urgente! Debes actuar ahora mismo antes de que sea tarde!"
                    INBOUND SPANISH (at_time 1000)) in
  (exists s, m_signals res !! "urgency"%string = Some s /\ s == 0.6) /\
  CLAMP_LOW < m_channel_risk res /\ m_handoff res = false.
Proof.
  cbv zeta. split; [| split].
  - eexists. split; [vm_compute; reflexivity | reflexivity].
  - vm_compute. reflexivity.
  - vm_compute. reflexivity.
Qed.

(** Scenario C: the ten attack messages, sent without idle time, end with
    the bilateral risk at [CLAMP_HIGH] and the hand-off flag set. *)
Example scenario_sustained_attack :
  let ops := map (fun text => OpProcess text INBOUND SPANISH (at_time 1000))
                 sustained_attack in
  let g := run (fresh_guard "local" SPANISH None 0) ops in
  handoff_triggered g = true /\
  Qmax (risk (inbound g)) (risk (outbound g)) == CLAMP_HIGH.
Proof. vm_compute. split; reflexivity. Qed.

(** X1.  A guard built with a state-file path and the record an earlier
    guard saved starts with that guard's risk, safety, flags and turn
    count on both channels and with its two sticky flags; the remaining
    channel fields are those of a new channel, and nothing is logged. *)
Lemma restart_restores g saved_at nid lang path now :
  path <> EmptyString ->
  exists g',
    __init__ nid lang (Some path) (Present (Parsed (_save_state g saved_at))) now
    = Some (g', None) /\
    inbound g' = restore (inbound g) ChannelState_default /\
    outbound g' = restore (outbound g) ChannelState_default /\
    handoff_triggered g' = handoff_triggered g /\
    lockdown_active g' = lockdown_active g.
Proof.
  intros Hp. eexists. split.
  - unfold __init__. destruct (decide (path = EmptyString)); [contradiction |].
    unfold _load_state. rewrite load_saved. reflexivity.
  - repeat split.
Qed.

(* ===================================================================== *)
(** * Further properties of the guard                                     *)
(* ===================================================================== *)

(** ** Safety only goes down *)

Lemma decayed_safety_le channel now :
  CLAMP_LOW <= safety channel -> last_update channel <= now ->
  decayed_safety channel now <= safety channel.
Proof.
  intros Hs Ht. unfold decayed_safety.
  destruct (Qgtb (last_update channel) 0); [| lra].
  assert (He : 0 <= now - last_update channel) by lra.
  pose proof (decay_factor_nonneg _ He) as Hd. constants.
  assert (0 <= PERSISTENT_DECAY * decay_factor_of (now - last_update channel))
    by (apply Qmult_le_0_compat; lra).
  minmax.
Qed.

Lemma update_safety_le channel signals new_flags risk_delta now :
  CLAMP_LOW <= safety channel -> last_update channel <= now ->
  safety (snd (_update_channel channel signals new_flags risk_delta now))
  <= safety channel.
Proof.
  intros Hs Ht. rewrite update_safety_eq.
  pose proof (decayed_safety_le channel now Hs Ht) as Hd.
  pose proof (decayed_safety_floor channel now Hs) as Hf.
  destruct (Qgtb risk_delta 0) eqn:E; [| exact Hd].
  apply Qgtb_true in E. constants.
  assert (0 <= risk_delta * GAMMA) by (apply Qmult_le_0_compat; lra).
  minmax.
Qed.

(** X2.  No message raises the safety of either channel, as long as the clock
    reading is not before the channel's last update: the update only ever
    subtracts from it. *)
Theorem safety_never_recovers g text direction language clk :
  guard_ok g ->
  last_update (channel_of g direction) <= t_update clk ->
  let g' := snd (process_message g text direction language clk) in
  safety (inbound g') <= safety (inbound g) /\
  safety (outbound g') <= safety (outbound g).
Proof.
  intros [[_ Hin] [_ Hout]] Ht g'. subst g'.
  pose proof (process_channel g text direction language clk) as Hc.
  unfold channel_of in Hc, Ht.
  destruct (decide (direction = INBOUND)) as [Hd | Hd].
  - rewrite Hc, (process_other_outbound _ _ _ _ _ Hd).
    split; [now apply update_safety_le | lra].
  - rewrite Hc, (process_other_inbound _ _ _ _ _ Hd).
    split; [lra | now apply update_safety_le].
Qed.

Lemma safety_never_recovers_witness :
  let g := run (fresh_guard "local" SPANISH None 0)
               [OpProcess "No confies en nadie mas, solo yo." INBOUND SPANISH (at_time 1000)] in
  let g' := snd (process_message g "Hola" INBOUND SPANISH (at_time 1500)) in
  guard_ok g /\ last_update (channel_of g INBOUND) <= t_update (at_time 1500) /\
  safety (inbound g') <= safety (inbound g) /\
  safety (outbound g') <= safety (outbound g).
Proof.
  intros g g'.
  assert (Hok : guard_ok g).
  { apply step_ok. apply fresh_guard_ok. }
  assert (Ht : last_update (channel_of g INBOUND) <= t_update (at_time 1500))
    by (vm_compute; discriminate).
  split; [exact Hok |]. split; [exact Ht |].
  exact (safety_never_recovers g "Hola" INBOUND SPANISH (at_time 1500) Hok Ht).
Defined.

(** ** What the analyzer puts in the signal map *)

Lemma tables_categories lang cats :
  assoc lang _compile_patterns = Some cats ->
  Forall (fun cp : string * list Re.pattern => fst cp ∈ CATEGORIES) cats.
Proof.
  intros H. destruct lang; cbn in H; try discriminate; injection H as <-;
    unfold CATEGORIES; repeat constructor; cbn; set_solver.
Qed.

Lemma lookup_total_nonneg (signals : gmap string Q) category :
  signals_wf signals -> 0 <= signals !!! category.
Proof.
  intros H. rewrite lookup_total_alt.
  destruct (signals !! category) as [v |] eqn:E; cbn.
  - destruct (H category v E) as [_ Hv]. lra.
  - discriminate.
Qed.

Lemma count_weight n : (0 < n)%nat -> 0.2 <= inject_Z (Z.of_nat n) * 0.2.
Proof.
  intros Hn. assert (1 <= inject_Z (Z.of_nat n)) by (unfold Qle; simpl; lia).
  lra.
Qed.

Lemma accumulate_wf text category signals p :
  category ∈ CATEGORIES -> signals_wf signals ->
  signals_wf (accumulate text category signals p).
Proof.
  intros Hc H. unfold accumulate.
  destruct (0 <? Re.findall_count p text)%nat eqn:E; [| exact H].
  apply Nat.ltb_lt in E. rewrite insert_insert_eq.
  apply map_Forall_insert_2; [| exact H].
  split; [exact Hc |].
  rewrite lookup_total_insert_eq.
  pose proof (lookup_total_nonneg signals category H).
  pose proof (count_weight _ E). minmax.
Qed.

Lemma leak_wf text category signals p :
  category ∈ CATEGORIES -> signals_wf signals ->
  signals_wf (leak text category signals p).
Proof.
  intros Hc H. unfold leak. destruct (Re.search p text); [| exact H].
  apply map_Forall_insert_2; [| exact H].
  split; [exact Hc | minmax].
Qed.

(** A loop whose body keeps a property on the elements it visits. *)
Lemma fold_left_keeps {A S} (P : S -> Prop) (ok : A -> Prop)
      (f : S -> A -> S) (l : list A) :
  (forall s a, ok a -> P s -> P (f s a)) ->
  Forall ok l -> forall s, P s -> P (fold_left f l s).
Proof.
  intros Hf Hl. induction Hl as [| a l Ha Hl IH]; intros s Hs; [exact Hs |].
  cbn. apply IH, Hf; assumption.
Qed.

Lemma Forall_true {A} (l : list A) : Forall (fun _ => True) l.
Proof. induction l; constructor; auto. Qed.

Lemma scan_primary_wf text cats signals :
  Forall (fun cp : string * list Re.pattern => fst cp ∈ CATEGORIES) cats ->
  signals_wf signals -> signals_wf (scan_primary text cats signals).
Proof.
  intros Hcats. unfold scan_primary.
  apply (fold_left_keeps signals_wf
           (fun cp : string * list Re.pattern => fst cp ∈ CATEGORIES));
    [| exact Hcats].
  intros s cp Hcp Hs.
  apply (fold_left_keeps signals_wf (fun _ => True)); [| apply Forall_true | exact Hs].
  intros s' p _. now apply accumulate_wf.
Qed.

Lemma scan_other_wf text cats signals :
  Forall (fun cp : string * list Re.pattern => fst cp ∈ CATEGORIES) cats ->
  signals_wf signals -> signals_wf (scan_other text cats signals).
Proof.
  intros Hcats. unfold scan_other.
  apply (fold_left_keeps signals_wf
           (fun cp : string * list Re.pattern => fst cp ∈ CATEGORIES));
    [| exact Hcats].
  intros s cp Hcp Hs.
  apply (fold_left_keeps signals_wf (fun _ => True)); [| apply Forall_true | exact Hs].
  intros s' p _. now apply leak_wf.
Qed.

Lemma scan_cross_wf text language signals :
  signals_wf signals -> signals_wf (scan_cross text language signals).
Proof.
  unfold scan_cross.
  apply (fold_left_keeps signals_wf (fun _ => True)); [| apply Forall_true].
  intros s lang _ Hs.
  destruct (decide (lang <> language)); [| exact Hs].
  destruct (assoc lang _compile_patterns) as [cats |] eqn:E; [| exact Hs].
  apply scan_other_wf; [| exact Hs]. eapply tables_categories, E.
Qed.

Lemma analyze_signals_wf text language :
  signals_wf (fst (_analyze_signals text language)).
Proof.
  unfold _analyze_signals. cbn [fst]. apply scan_cross_wf.
  destruct (assoc language _compile_patterns) as [cats |] eqn:E.
  - apply scan_primary_wf; [eapply tables_categories, E | apply map_Forall_empty].
  - apply map_Forall_empty.
Qed.

(** X3.  Every entry of the analyzer's signal map has one of the eight
    categories as key and a strength between [0.2] and [1]; the keys
    [harm], [manipulation], [uncertainty] and [distress] of the multiplier
    table, two of which the velocity check tests for, never occur. *)
Theorem analyzer_entries text language :
  (forall category strength,
      fst (_analyze_signals text language) !! category = Some strength ->
      category ∈ CATEGORIES /\ 0.2 <= strength /\ strength <= 1) /\
  fst (_analyze_signals text language) !! "harm"%string = None /\
  fst (_analyze_signals text language) !! "manipulation"%string = None /\
  fst (_analyze_signals text language) !! "uncertainty"%string = None /\
  fst (_analyze_signals text language) !! "distress"%string = None.
Proof.
  pose proof (analyze_signals_wf text language) as Hwf.
  pose proof (analyze_signals_capped text language) as Hcap.
  assert (Hnone : forall k, k ∉ CATEGORIES ->
                            fst (_analyze_signals text language) !! k = None).
  { intros k Hk. destruct (fst (_analyze_signals text language) !! k) eqn:E;
      [| reflexivity]. destruct (Hwf k _ E) as [Hin _]. contradiction. }
  split.
  - intros category strength Hl. destruct (Hwf _ _ Hl) as [Hc Hs].
    repeat split; [exact Hc | exact Hs | exact (Hcap _ _ Hl)].
  - repeat split; apply Hnone; apply (bool_decide_unpack _); vm_compute; exact I.
Qed.

Lemma analyzer_entries_witness :
  let text := "La policia viene! Es URGENTE! Solo yo te protejo!"%string in
  fst (_analyze_signals text SPANISH) !! "authority"%string = Some 0.3 /\
  "authority"%string ∈ CATEGORIES /\ 0.2 <= 0.3 /\ 0.3 <= 1.
Proof.
  intros text.
  assert (Hl : fst (_analyze_signals text SPANISH) !! "authority"%string = Some 0.3)
    by (vm_compute; reflexivity).
  split; [exact Hl |].
  exact (proj1 (analyzer_entries text SPANISH) "authority"%string 0.3 Hl).
Defined.

(** ** The sign of the risk delta *)

Lemma multiplier_floor signal : 0.5 <= multiplier_of signal.
Proof.
  unfold multiplier_of.
  destruct (SIGNAL_MULTIPLIERS !! signal) as [v |] eqn:E; cbn; [| discriminate].
  unfold SIGNAL_MULTIPLIERS in E. apply elem_of_list_to_map_2 in E.
  repeat (apply elem_of_cons in E as [E | E];
          [injection E as _ ->; discriminate |]).
  inversion E.
Qed.

Lemma risk_sum_bounds (signals : gmap string Q) :
  map_Forall (fun (_ : string) (v : Q) => 0.2 <= v) signals ->
  let sum := map_fold (fun signal strength delta =>
                         delta + strength * multiplier_of signal * 0.1)
                      0 signals in
  0 <= sum /\ (signals <> ∅ -> 0.01 <= sum).
Proof.
  cbv zeta.
  apply (map_fold_weak_ind
           (fun (r : Q) (m : gmap string Q) =>
              map_Forall (fun (_ : string) (v : Q) => 0.2 <= v) m ->
              0 <= r /\ (m <> ∅ -> 0.01 <= r))).
  - intros _. split; [discriminate | intros H; now contradiction H].
  - intros signal strength m r Hnone IH Hall.
    pose proof (map_Forall_insert_1_1 _ _ _ _ Hall) as Hs. cbn in Hs.
    pose proof (map_Forall_insert_1_2 _ _ _ _ Hnone Hall) as Hm.
    destruct (IH Hm) as [Hr _].
    pose proof (multiplier_floor signal) as Hmul.
    assert (0.2 * 0.5 <= strength * multiplier_of signal)
      by (apply Qmult_le_compat_nonneg; split; (discriminate || assumption)).
    split; [lra | intros _; lra].
Qed.

Lemma wf_floor signals :
  signals_wf signals -> map_Forall (fun (_ : string) (v : Q) => 0.2 <= v) signals.
Proof. intros H k v Hl. exact (proj2 (H k v Hl)). Qed.

(** X4.  The risk delta of a message is never negative; it is zero when the
    analyzer found no signal and at least [0.01] when it found one. *)
Theorem risk_delta_sign text language :
  let signals := fst (_analyze_signals text language) in
  0 <= _compute_risk_delta signals /\
  (signals = ∅ -> _compute_risk_delta signals == 0) /\
  (signals <> ∅ -> 0.01 <= _compute_risk_delta signals).
Proof.
  intros signals.
  destruct (risk_sum_bounds signals (wf_floor _ (analyze_signals_wf text language)))
    as [H0 Hpos].
  unfold _compute_risk_delta. split; [minmax | split].
  - intros ->. rewrite map_fold_empty. reflexivity.
  - intros Hne. specialize (Hpos Hne). minmax.
Qed.

Lemma risk_delta_sign_witness :
  let text := "Es urgente! Debes actuar ahora mismo antes de que sea tarde!"%string in
  fst (_analyze_signals text SPANISH) <> ∅ /\
  fst (_analyze_signals "Hola" SPANISH) = ∅ /\
  0.01 <= _compute_risk_delta (fst (_analyze_signals text SPANISH)) /\
  _compute_risk_delta (fst (_analyze_signals "Hola" SPANISH)) == 0.
Proof.
  intros text.
  assert (Hne : fst (_analyze_signals text SPANISH) <> ∅)
    by (intros H; vm_compute in H; discriminate H).
  assert (He : fst (_analyze_signals "Hola" SPANISH) = ∅)
    by (vm_compute; reflexivity).
  split; [exact Hne |]. split; [exact He |].
  split.
  - exact (proj2 (proj2 (risk_delta_sign text SPANISH)) Hne).
  - exact (proj1 (proj2 (risk_delta_sign "Hola" SPANISH)) He).
Defined.

(** ** Messages without signals *)

Lemma process_result_signals g text direction language clk :
  let res := fst (process_message g text direction language clk) in
  m_signals res = fst (_analyze_signals text (resolve_language text language)) /\
  m_flags res = derive_flags (m_signals res).
Proof. cbv zeta. unfold process_message, _analyze_signals. split; reflexivity. Qed.

Lemma derive_flags_empty : derive_flags ∅ = [].
Proof. reflexivity. Qed.

Lemma update_quiet_risk_le channel (signals : gmap string Q) new_flags risk_delta now :
  CLAMP_LOW <= risk channel -> last_update channel <= now -> risk_delta == 0 ->
  risk (snd (_update_channel channel signals new_flags risk_delta now))
  <= risk channel.
Proof.
  intros Hr Ht Hd. rewrite update_risk_eq. constants.
  assert (Hnn : 0 <= risk channel) by lra.
  pose proof (decayed_risk_le channel now Hnn Ht). minmax.
Qed.

(** X5.  A message in which the analyzer finds no signal carries no flag, leaves
    the flag sets of both channels as they were, and does not raise the
    risk of the channel it is counted on (the clock reading not being
    before the channel's last update). *)
Theorem quiet_message g text direction language clk :
  guard_ok g ->
  last_update (channel_of g direction) <= t_update clk ->
  m_signals (fst (process_message g text direction language clk)) = ∅ ->
  let res := fst (process_message g text direction language clk) in
  let g' := snd (process_message g text direction language clk) in
  m_flags res = [] /\
  flags (inbound g') = flags (inbound g) /\
  flags (outbound g') = flags (outbound g) /\
  risk (channel_of g' direction) <= risk (channel_of g direction).
Proof.
  intros Hok Ht Hs res g'. subst res g'.
  destruct (process_result_signals g text direction language clk) as [Hsig Hfl].
  cbv zeta in Hsig, Hfl. rewrite Hs in Hfl. rewrite Hsig in Hs.
  rewrite derive_flags_empty in Hfl.
  assert (Hnf : snd (_analyze_signals text (resolve_language text language)) = [])
    by (unfold _analyze_signals in *; cbn [fst snd] in *; rewrite Hs; reflexivity).
  pose proof (process_channel g text direction language clk) as Hc.
  rewrite Hnf, Hs in Hc.
  assert (Hrisk : risk (channel_of (snd (process_message g text direction language clk))
                                   direction)
                  <= risk (channel_of g direction)).
  { rewrite Hc. apply update_quiet_risk_le; [| exact Ht |].
    - destruct Hok as [[[Hi _] _] [[Ho _] _]]. unfold channel_of.
      destruct (decide (direction = INBOUND)); assumption.
    - unfold _compute_risk_delta. rewrite map_fold_empty. reflexivity. }
  split; [exact Hfl |].
  assert (Hflags : flags (channel_of (snd (process_message g text direction language clk))
                                     direction)
                   = flags (channel_of g direction)).
  { rewrite Hc, update_flags_eq. cbn. apply union_empty_r_L. }
  unfold channel_of in Hflags, Hrisk |- *.
  destruct (decide (direction = INBOUND)) as [Hd | Hd].
  - rewrite (process_other_outbound _ _ _ _ _ Hd). auto.
  - rewrite (process_other_inbound _ _ _ _ _ Hd). auto.
Qed.

Lemma quiet_message_witness :
  let g := run (fresh_guard "local" SPANISH None 0)
               [OpProcess "No confies en nadie mas, solo yo." INBOUND SPANISH (at_time 1000)] in
  let text := "Hola, tenemos 50kg de maiz disponible en el sector 3."%string in
  let res := fst (process_message g text INBOUND SPANISH (at_time 1004)) in
  let g' := snd (process_message g text INBOUND SPANISH (at_time 1004)) in
  guard_ok g /\
  m_signals res = ∅ /\
  m_flags res = [] /\
  flags (inbound g') = flags (inbound g) /\
  flags (outbound g') = flags (outbound g) /\
  risk (channel_of g' INBOUND) <= risk (channel_of g INBOUND).
Proof.
  intros g text res g'.
  assert (Hok : guard_ok g) by (apply step_ok, fresh_guard_ok).
  assert (Ht : last_update (channel_of g INBOUND) <= t_update (at_time 1004))
    by (vm_compute; discriminate).
  assert (Hs : m_signals (fst (process_message g text INBOUND SPANISH (at_time 1004))) = ∅)
    by (vm_compute; reflexivity).
  split; [exact Hok |]. split; [exact Hs |].
  exact (quiet_message g text INBOUND SPANISH (at_time 1004) Hok Ht Hs).
Defined.

(** ** Cross-language matches alone *)

Lemma accumulate_silent text category signals p :
  Nat.eqb (Re.findall_count p text) 0 = true ->
  accumulate text category signals p = signals.
Proof.
  intros H. apply Nat.eqb_eq in H. unfold accumulate. now rewrite H.
Qed.

Lemma scan_primary_silent text cats signals :
  forallb (fun cp : string * list Re.pattern =>
             forallb (fun p => Nat.eqb (Re.findall_count p text) 0) (snd cp))
          cats = true ->
  scan_primary text cats signals = signals.
Proof.
  unfold scan_primary. revert signals.
  induction cats as [| [category patterns] cats IH]; intros signals H; [reflexivity |].
  cbn in H. apply andb_true_iff in H as [Hp Hc]. cbn [fold_left fst snd].
  assert (Hin : fold_left (accumulate text category) patterns signals = signals).
  { clear -Hp. induction patterns as [| p ps IHp]; [reflexivity |].
    cbn in Hp. apply andb_true_iff in Hp as [H1 H2]. cbn.
    rewrite accumulate_silent by exact H1. now apply IHp. }
  rewrite Hin. now apply IH.
Qed.

Lemma lookup_total_leaked (signals : gmap string Q) category :
  all_leaked signals -> signals !!! category <= 0.3.
Proof.
  intros H. rewrite lookup_total_alt.
  destruct (signals !! category) as [v |] eqn:E; cbn.
  - rewrite (H category v E). discriminate.
  - discriminate.
Qed.

Lemma leak_leaked text category signals p :
  all_leaked signals -> all_leaked (leak text category signals p).
Proof.
  intros H. unfold leak. destruct (Re.search p text); [| exact H].
  apply map_Forall_insert_2; [| exact H].
  pose proof (lookup_total_leaked signals category H).
  apply Qle_antisym; minmax.
Qed.

Lemma scan_cross_leaked text language signals :
  all_leaked signals -> all_leaked (scan_cross text language signals).
Proof.
  unfold scan_cross.
  apply (fold_left_keeps all_leaked (fun _ => True)); [| apply Forall_true].
  intros s lang _ Hs.
  destruct (decide (lang <> language)); [| exact Hs].
  destruct (assoc lang _compile_patterns) as [cats |]; [| exact Hs].
  unfold scan_other.
  apply (fold_left_keeps all_leaked (fun _ => True)); [| apply Forall_true | exact Hs].
  intros s1 cp _ Hs1.
  apply (fold_left_keeps all_leaked (fun _ => True)); [| apply Forall_true | exact Hs1].
  intros s2 p _. apply leak_leaked.
Qed.

Lemma sig_get_leaked signals key : all_leaked signals -> sig_get signals key <= 0.3.
Proof.
  intros H. unfold sig_get.
  destruct (signals !! key) as [v |] eqn:E; cbn.
  - rewrite (H key v E). discriminate.
  - discriminate.
Qed.

Lemma derive_flags_leaked signals : all_leaked signals -> derive_flags signals = [].
Proof.
  intros H. unfold derive_flags.
  assert (H3 : forall key, Qgtb (sig_get signals key) 0.3 = false)
    by (intros key; apply Qgtb_false, sig_get_leaked, H).
  assert (H4 : forall key, Qgtb (sig_get signals key) 0.4 = false)
    by (intros key; apply Qgtb_false; pose proof (sig_get_leaked signals key H); lra).
  rewrite !H3, !H4. cbn. rewrite ?andb_false_r. reflexivity.
Qed.

(** X6.  When no pattern of the resolved language matches, whatever the other
    languages' patterns find is entered with strength [0.3] exactly, and
    no flag is derived: every flag threshold is strict and at least [0.3]
    for one of its categories. *)
Theorem cross_language_only text language :
  primary_silent text language = true ->
  all_leaked (fst (_analyze_signals text language)) /\
  snd (_analyze_signals text language) = [].
Proof.
  intros Hsilent. unfold primary_silent in Hsilent.
  assert (Hl : all_leaked (fst (_analyze_signals text language))).
  { unfold _analyze_signals. cbn [fst]. apply scan_cross_leaked.
    destruct (assoc language _compile_patterns) as [cats |].
    - rewrite scan_primary_silent by exact Hsilent. apply map_Forall_empty.
    - apply map_Forall_empty. }
  split; [exact Hl |].
  change (snd (_analyze_signals text language))
    with (derive_flags (fst (_analyze_signals text language))).
  now apply derive_flags_leaked.
Qed.

Lemma cross_language_only_witness :
  let text := "Perigo! Nao ha tempo, ultimo aviso: foi confirmado."%string in
  primary_silent text ENGLISH = true /\
  fst (_analyze_signals text ENGLISH) <> ∅ /\
  all_leaked (fst (_analyze_signals text ENGLISH)) /\
  snd (_analyze_signals text ENGLISH) = [].
Proof.
  intros text.
  assert (Hs : primary_silent text ENGLISH = true) by (vm_compute; reflexivity).
  assert (Hne : fst (_analyze_signals text ENGLISH) <> ∅)
    by (intros H; vm_compute in H; discriminate H).
  split; [exact Hs |]. split; [exact Hne |].
  exact (cross_language_only text ENGLISH Hs).
Defined.

(** ** The history window *)

Lemma push_history_eq h entry :
  push_history h entry = drop (length h + 1 - 100) h ++ [entry].
Proof.
  unfold push_history. rewrite length_app. cbn [length].
  destruct (100 <? length h + 1)%nat eqn:E.
  - apply Nat.ltb_lt in E. rewrite drop_app_le by lia. reflexivity.
  - apply Nat.ltb_ge in E.
    replace (length h + 1 - 100)%nat with 0%nat by lia. reflexivity.
Qed.

Lemma push_history_length h entry :
  length (push_history h entry) = Nat.min (length h + 1) 100.
Proof. rewrite push_history_eq, length_app, length_drop. cbn. lia. Qed.

Lemma update_history_eq channel signals new_flags risk_delta now :
  let channel' := snd (_update_channel channel signals new_flags risk_delta now) in
  history channel'
  = drop (length (history channel) + 1 - 100) (history channel)
    ++ [ {| h_turn := turn_count channel'; h_risk := risk channel';
            h_safety := safety channel'; h_signals := signals;
            h_flags := new_flags; h_timestamp := now |} ].
Proof. cbv zeta. cbn [_update_channel snd history]. apply push_history_eq. Qed.

Lemma update_history_short channel signals new_flags risk_delta now :
  (length (history (snd (_update_channel channel signals new_flags risk_delta now)))
   <= 100)%nat.
Proof. cbn [_update_channel snd history]. rewrite push_history_length. lia. Qed.

Lemma step_history_short g op : history_short g -> history_short (step g op).
Proof.
  intros [Hi Ho]. destruct op as [text direction language clk | reason |]; cbn [step].
  - pose proof (process_channel g text direction language clk) as Hc.
    unfold channel_of in Hc. unfold history_short.
    destruct (decide (direction = INBOUND)) as [Hd | Hd].
    + rewrite Hc, (process_other_outbound _ _ _ _ _ Hd).
      split; [apply update_history_short | exact Ho].
    + rewrite Hc, (process_other_inbound _ _ _ _ _ Hd).
      split; [exact Hi | apply update_history_short].
  - split; assumption.
  - unfold release_lockdown. destruct (lockdown_active g); split; assumption.
Qed.

Lemma reachable_history_short g : reachable g -> history_short g.
Proof.
  induction 1 as [nid lang sf disk now g Hinit Hcase
                 | g0 saved_at nid lang sf now g log Hr IH Hinit
                 | g op Hr IH | g now Hr IH].
  - unfold __init__ in Hinit.
    destruct Hcase as [-> | [-> | ->]]; cbn in Hinit;
      [destruct disk | destruct disk | destruct sf];
      injection Hinit as <-; split; cbn; lia.
  - unfold __init__ in Hinit. destruct sf as [path |].
    + destruct (decide (path = EmptyString)).
      * injection Hinit as <- _. split; cbn; lia.
      * unfold _load_state in Hinit. rewrite load_saved in Hinit.
        injection Hinit as <- _. split; cbn; lia.
    + injection Hinit as <- _. split; cbn; lia.
  - now apply step_history_short.
  - split; cbn; lia.
Qed.

(** X7.  The history of a channel never holds more than 100 entries; after a
    message it is the old history without the entries that fall out of the
    window, followed by one entry that records the channel's new turn
    count, risk and safety, the message's signals and flags, and the clock
    reading of the update. *)
Theorem history_window g text direction language clk :
  reachable g ->
  let res := fst (process_message g text direction language clk) in
  let before := channel_of g direction in
  let after := channel_of (snd (process_message g text direction language clk))
                          direction in
  (length (history before) <= 100)%nat /\
  (length (history after) <= 100)%nat /\
  history after
  = drop (length (history before) + 1 - 100) (history before)
    ++ [ {| h_turn := turn_count after; h_risk := risk after;
            h_safety := safety after; h_signals := m_signals res;
            h_flags := m_flags res; h_timestamp := t_update clk |} ].
Proof.
  intros Hr res before after.
  destruct (reachable_history_short g Hr) as [Hi Ho].
  split; [| split].
  - subst before. unfold channel_of. destruct (decide (direction = INBOUND)); assumption.
  - subst after. rewrite process_channel. apply update_history_short.
  - subst after res before. rewrite process_channel.
    rewrite update_history_eq. reflexivity.
Qed.

Lemma history_window_witness :
  let g := fresh_guard "local" SPANISH None 0 in
  let text := "Es urgente!"%string in
  let res := fst (process_message g text INBOUND SPANISH (at_time 10)) in
  let before := channel_of g INBOUND in
  let after := channel_of (snd (process_message g text INBOUND SPANISH (at_time 10)))
                          INBOUND in
  reachable g /\
  (length (history before) <= 100)%nat /\
  (length (history after) <= 100)%nat /\
  history after
  = drop (length (history before) + 1 - 100) (history before)
    ++ [ {| h_turn := turn_count after; h_risk := risk after;
            h_safety := safety after; h_signals := m_signals res;
            h_flags := m_flags res; h_timestamp := t_update (at_time 10) |} ].
Proof.
  intros g text res before after.
  assert (Hr : reachable g).
  { apply (reach_fresh "local" SPANISH None Absent 0); [reflexivity | left; reflexivity]. }
  split; [exact Hr |].
  exact (history_window g text INBOUND SPANISH (at_time 10) Hr).
Defined.

(** ** Message counters *)

Lemma process_total_messages g text direction language clk :
  total_messages (snd (process_message g text direction language clk))
  = (total_messages g + 1)%Z.
Proof. open_process; reflexivity. Qed.

Lemma update_turn_count channel signals new_flags risk_delta now :
  turn_count (snd (_update_channel channel signals new_flags risk_delta now))
  = (turn_count channel + 1)%Z.
Proof. reflexivity. Qed.

Lemma process_turn_counts g text direction language clk :
  let g' := snd (process_message g text direction language clk) in
  (turn_count (inbound g') + turn_count (outbound g')
   = turn_count (inbound g) + turn_count (outbound g) + 1)%Z.
Proof.
  cbv zeta.
  pose proof (process_channel g text direction language clk) as Hc.
  unfold channel_of in Hc.
  destruct (decide (direction = INBOUND)) as [Hd | Hd].
  - rewrite Hc, (process_other_outbound _ _ _ _ _ Hd), update_turn_count. lia.
  - rewrite Hc, (process_other_inbound _ _ _ _ _ Hd), update_turn_count. lia.
Qed.

Lemma step_counters g op :
  let n := if is_process op then 1%Z else 0%Z in
  total_messages (step g op) = (total_messages g + n)%Z /\
  (turn_count (inbound (step g op)) + turn_count (outbound (step g op))
   = turn_count (inbound g) + turn_count (outbound g) + n)%Z.
Proof.
  destruct op as [text direction language clk | reason |]; cbn [step is_process].
  - split; [apply process_total_messages | apply process_turn_counts].
  - cbn. split; lia.
  - unfold release_lockdown. destruct (lockdown_active g); cbn; split; lia.
Qed.

Lemma run_counters ops : forall g,
  total_messages (run g ops) = (total_messages g + count_messages ops)%Z /\
  (turn_count (inbound (run g ops)) + turn_count (outbound (run g ops))
   = turn_count (inbound g) + turn_count (outbound g) + count_messages ops)%Z.
Proof.
  induction ops as [| op ops IH]; intros g.
  - unfold count_messages. cbn. split; lia.
  - cbn [run fold_left]. destruct (IH (step g op)) as [Ht Hc].
    fold (run (step g op) ops). unfold run in Ht, Hc |- *.
    destruct (step_counters g op) as [Ht1 Hc1]. cbv zeta in Ht1, Hc1.
    rewrite Ht, Hc, Ht1, Hc1. unfold count_messages.
    rewrite filter_cons. destruct op; cbn [is_process];
      (destruct (decide _) as [E | E]; [| try (exfalso; apply E; reflexivity)];
       try discriminate E); cbn [length]; split; lia.
Qed.

(** X8.  From a fresh guard or right after [reset], through any sequence of
    calls: [total_messages] is the number of [process_message] calls made,
    and it equals the sum of the two channels' turn counts; the lockdown
    calls count nothing. *)
Theorem message_counters nid lang sf now ops :
  let g := run (fresh_guard nid lang sf now) ops in
  total_messages g = count_messages ops /\
  total_messages g = (turn_count (inbound g) + turn_count (outbound g))%Z /\
  (forall g0 now', total_messages (run (reset g0 now') ops) = count_messages ops).
Proof.
  cbv zeta.
  destruct (run_counters ops (fresh_guard nid lang sf now)) as [Ht Hc].
  cbn [fresh_guard total_messages inbound outbound turn_count ChannelState_default] in Ht, Hc.
  split; [lia | split; [lia |]].
  intros g0 now'. destruct (run_counters ops (reset g0 now')) as [Ht' _].
  cbn [reset total_messages] in Ht'. lia.
Qed.

(** ** Level, hand-off and lockdown *)

Lemma compute_level_critical r :
  _compute_level r = "CRITICAL"%string <-> Qgeb r CLAMP_HIGH = true.
Proof.
  unfold _compute_level.
  destruct (Qgeb r CLAMP_HIGH); [split; reflexivity |].
  destruct (Qgeb r 0.6); [split; discriminate |].
  destruct (Qgeb r 0.3); split; discriminate.
Qed.

Lemma compute_level_low r :
  _compute_level r = "LOW"%string <-> r < 0.3.
Proof.
  unfold _compute_level. constants.
  destruct (Qgeb r CLAMP_HIGH) eqn:E1.
  { apply Qgeb_true in E1.
    assert (0.3 < CLAMP_HIGH) by reflexivity.
    split; [discriminate | intros; lra]. }
  destruct (Qgeb r 0.6) eqn:E2.
  { apply Qgeb_true in E2. split; [discriminate | intros; lra]. }
  destruct (Qgeb r 0.3) eqn:E3.
  { apply Qgeb_true in E3. split; [discriminate | intros; lra]. }
  split; [intros _ | reflexivity].
  apply Qnot_le_lt. intros Hle. apply Qgeb_true in Hle. congruence.
Qed.

Lemma process_level_eq g text direction language clk :
  let res := fst (process_message g text direction language clk) in
  m_level res = _compute_level (m_bilateral_risk res).
Proof. cbv zeta. open_process; reflexivity. Qed.

Lemma process_handoff_bilateral g text direction language clk :
  let res := fst (process_message g text direction language clk) in
  m_handoff res = Qgeb (m_bilateral_risk res) CLAMP_HIGH.
Proof.
  cbv zeta. rewrite process_handoff_eq, velocity_check_capped, orb_false_r;
    [reflexivity | apply analyze_signals_capped].
Qed.

(** X9.  A message returns hand-off exactly when it returns level CRITICAL;
    for a guard within the bounds that is exactly when the larger of the
    two channel risks equals [CLAMP_HIGH].  The level is LOW exactly when
    that risk is below [0.3]. *)
Theorem handoff_iff_critical g text direction language clk :
  guard_ok g ->
  let res := fst (process_message g text direction language clk) in
  (m_handoff res = true <-> m_level res = "CRITICAL"%string) /\
  (m_handoff res = true <-> m_bilateral_risk res == CLAMP_HIGH) /\
  (m_level res = "LOW"%string <-> m_bilateral_risk res < 0.3).
Proof.
  intros Hok res. subst res.
  pose proof (process_level_eq g text direction language clk) as Hl.
  pose proof (process_handoff_bilateral g text direction language clk) as Hh.
  cbv zeta in Hl, Hh. rewrite Hl, Hh.
  split; [symmetry; apply compute_level_critical |].
  split; [| apply compute_level_low].
  rewrite Qgeb_true.
  destruct (process_result_bilateral g text direction language clk) as [-> _].
  destruct (process_message_ok g text direction language clk Hok)
    as [[[_ Hi] _] [[_ Ho] _]].
  split; intros H.
  - apply Qle_antisym; [minmax | exact H].
  - rewrite H. apply Qle_refl.
Qed.

Lemma handoff_iff_critical_witness :
  let g := trigger_lockdown (fresh_guard "local" SPANISH None 0) "manual" in
  let res := fst (process_message g "Hola" INBOUND SPANISH (at_time 10)) in
  guard_ok g /\
  (m_handoff res = true <-> m_level res = "CRITICAL"%string) /\
  (m_handoff res = true <-> m_bilateral_risk res == CLAMP_HIGH) /\
  (m_level res = "LOW"%string <-> m_bilateral_risk res < 0.3).
Proof.
  intros g res.
  assert (Hok : guard_ok g) by (apply trigger_lockdown_ok, fresh_guard_ok).
  split; [exact Hok |].
  exact (handoff_iff_critical g "Hola" INBOUND SPANISH (at_time 10) Hok).
Defined.

Lemma process_after_lockdown g text direction language clk :
  risk (inbound g) = CLAMP_HIGH -> risk (outbound g) = CLAMP_HIGH ->
  let res := fst (process_message g text direction language clk) in
  m_handoff res = true /\ m_level res = "CRITICAL"%string /\
  handoff_triggered (snd (process_message g text direction language clk)) = true.
Proof.
  intros Hi Ho res. subst res.
  assert (Hh : m_handoff (fst (process_message g text direction language clk)) = true).
  { rewrite process_handoff_bilateral. apply Qgeb_true.
    destruct (process_result_bilateral g text direction language clk) as [-> _].
    pose proof (process_channel g text direction language clk) as Hc.
    unfold channel_of in Hc.
    destruct (decide (direction = INBOUND)) as [Hd | Hd].
    - rewrite (process_other_outbound _ _ _ _ _ Hd), Ho. apply Q.le_max_r.
    - rewrite (process_other_inbound _ _ _ _ _ Hd), Hi. apply Q.le_max_l. }
  split; [exact Hh |]. split.
  - rewrite process_level_eq. apply compute_level_critical.
    rewrite <- process_handoff_bilateral. exact Hh.
  - rewrite process_handoff_triggered, Hh. apply orb_true_r.
Qed.

(** X10.  [trigger_lockdown] does not touch [handoff_triggered], but the next
    message, whatever its text, direction and time, returns hand-off with
    level CRITICAL and sets the flag, also when [release_lockdown] came in
    between: the channel the message is not counted on still has risk
    [CLAMP_HIGH]. *)
Theorem lockdown_forces_handoff g reason text direction language clk :
  let locked := trigger_lockdown g reason in
  let released := snd (release_lockdown locked) in
  handoff_triggered locked = handoff_triggered g /\
  handoff_triggered released = handoff_triggered g /\
  (m_handoff (fst (process_message locked text direction language clk)) = true /\
   m_level (fst (process_message locked text direction language clk))
   = "CRITICAL"%string /\
   handoff_triggered (snd (process_message locked text direction language clk))
   = true) /\
  (m_handoff (fst (process_message released text direction language clk)) = true /\
   m_level (fst (process_message released text direction language clk))
   = "CRITICAL"%string /\
   handoff_triggered (snd (process_message released text direction language clk))
   = true).
Proof.
  cbv zeta. split; [reflexivity |]. split; [reflexivity |].
  split; apply process_after_lockdown; reflexivity.
Qed.

(** X11.  [get_status] right after a message reports the bilateral risk, safety
    and level the message returned, the lockdown flag it returned, and a
    hand-off flag that is set if the message returned hand-off. *)
Theorem status_after_message g text direction language clk now :
  let res := fst (process_message g text direction language clk) in
  let status := get_status (snd (process_message g text direction language clk)) now in
  s_bilateral_risk status = m_bilateral_risk res /\
  s_bilateral_safety status = m_bilateral_safety res /\
  s_bilateral_level status = m_level res /\
  s_lockdown_active status = m_lockdown res /\
  s_handoff_triggered status = handoff_triggered g || m_handoff res /\
  s_total_messages status = (total_messages g + 1)%Z.
Proof.
  cbv zeta.
  destruct (process_result_bilateral g text direction language clk) as [Hr Hs].
  cbn [get_status s_bilateral_risk s_bilateral_safety s_bilateral_level
       s_lockdown_active s_handoff_triggered s_total_messages].
  rewrite process_level_eq, Hr, Hs, process_handoff_triggered, process_total_messages.
  repeat split.
Qed.

(** ** A clock that goes back *)

Lemma analyze_delta_nonneg text language :
  0 <= _compute_risk_delta (fst (_analyze_signals text language)).
Proof.
  destruct (risk_sum_bounds _ (wf_floor _ (analyze_signals_wf text language)))
    as [H0 _].
  unfold _compute_risk_delta. minmax.
Qed.

Lemma step_back_floor : CLAMP_HIGH <= CLAMP_LOW * (1 + VOLATILE_DECAY * 12.5).
Proof. vm_compute. discriminate. Qed.

Lemma decayed_risk_step_back channel now :
  CLAMP_LOW <= risk channel -> 0 < last_update channel ->
  now <= last_update channel - 125 ->
  CLAMP_HIGH <= decayed_risk channel now.
Proof.
  intros Hr Hlu Ht. unfold decayed_risk.
  apply Qgtb_true in Hlu. rewrite Hlu. apply Qgtb_true in Hlu.
  set (elapsed := now - last_update channel).
  assert (He : elapsed / 10.0 <= - 12.5).
  { apply Qle_shift_div_r; [reflexivity |]. subst elapsed. lra. }
  assert (Hd : decay_factor_of elapsed <= - 12.5) by (unfold decay_factor_of; minmax).
  constants.
  assert (Hv : VOLATILE_DECAY * decay_factor_of elapsed <= VOLATILE_DECAY * - 12.5)
    by (apply Qmult_le_compat_l_nonneg; [lra | exact Hd]).
  assert (Hf : 1 + VOLATILE_DECAY * 12.5
               <= 1 - VOLATILE_DECAY * decay_factor_of elapsed) by lra.
  pose proof step_back_floor as Hfloor.
  assert (CLAMP_LOW * (1 + VOLATILE_DECAY * 12.5)
          <= risk channel * (1 - VOLATILE_DECAY * decay_factor_of elapsed)).
  { apply Qmult_le_compat_nonneg; split; try assumption; lra. }
  lra.
Qed.

(** X12.  When the clock reading of a message is 125 seconds or more before the
    last update of its channel ([time.time()] is not monotonic), the decay
    step multiplies the risk instead of reducing it: whatever the text, the
    channel's risk becomes [CLAMP_HIGH] and the message returns hand-off. *)
Theorem clock_step_back g text direction language clk :
  CLAMP_LOW <= risk (channel_of g direction) ->
  0 < last_update (channel_of g direction) ->
  t_update clk <= last_update (channel_of g direction) - 125 ->
  let res := fst (process_message g text direction language clk) in
  let g' := snd (process_message g text direction language clk) in
  risk (channel_of g' direction) == CLAMP_HIGH /\
  m_handoff res = true /\ handoff_triggered g' = true.
Proof.
  intros Hr Hlu Ht res g'. subst res g'.
  assert (Hrisk : risk (channel_of (snd (process_message g text direction language clk))
                                   direction) == CLAMP_HIGH).
  { rewrite process_channel, update_risk_eq.
    pose proof (decayed_risk_step_back _ _ Hr Hlu Ht) as Hd.
    pose proof (analyze_delta_nonneg text (resolve_language text language)) as H0.
    constants. apply Qle_antisym; minmax. }
  assert (Hh : m_handoff (fst (process_message g text direction language clk)) = true).
  { rewrite process_handoff_bilateral. apply Qgeb_true.
    destruct (process_result_bilateral g text direction language clk) as [-> _].
    unfold channel_of in Hrisk.
    destruct (decide (direction = INBOUND)); minmax. }
  split; [exact Hrisk |]. split; [exact Hh |].
  rewrite process_handoff_triggered, Hh. apply orb_true_r.
Qed.

Lemma clock_step_back_witness :
  let g := run (fresh_guard "local" SPANISH None 0)
               [OpProcess "Hola" INBOUND SPANISH (at_time 1000)] in
  let res := fst (process_message g "Hola" INBOUND SPANISH (at_time 870)) in
  let g' := snd (process_message g "Hola" INBOUND SPANISH (at_time 870)) in
  CLAMP_LOW <= risk (channel_of g INBOUND) /\
  0 < last_update (channel_of g INBOUND) /\
  t_update (at_time 870) <= last_update (channel_of g INBOUND) - 125 /\
  risk (channel_of g' INBOUND) == CLAMP_HIGH /\
  m_handoff res = true /\ handoff_triggered g' = true.
Proof.
  intros g res g'.
  assert (Hr : CLAMP_LOW <= risk (channel_of g INBOUND)) by (vm_compute; discriminate).
  assert (Hlu : 0 < last_update (channel_of g INBOUND)) by (vm_compute; reflexivity).
  assert (Ht : t_update (at_time 870) <= last_update (channel_of g INBOUND) - 125)
    by (vm_compute; discriminate).
  split; [exact Hr |]. split; [exact Hlu |]. split; [exact Ht |].
  exact (clock_step_back g "Hola" INBOUND SPANISH (at_time 870) Hr Hlu Ht).
Defined.

(** ** How fast the risk can grow *)











(** The bound is reached: three such messages at one clock reading do
    trigger the hand-off. *)
Example third_message_can_trigger :
  let dense := "Rendirse! No confies en nadie mas, solo yo: consecuencias, peligro, amenaza, riesgo, urgente, prisa."%string in
  let ops := [OpProcess dense INBOUND SPANISH (at_time 100);
              OpProcess dense INBOUND SPANISH (at_time 100);
              OpProcess dense INBOUND SPANISH (at_time 100)] in
  handoff_triggered (run (fresh_guard "local" SPANISH None 0) ops) = true.
Proof. vm_compute. reflexivity. Qed.

(** ** Restarting from a saved record *)

Lemma restart_restores_witness :
  let g := run (fresh_guard "local" SPANISH (Some "state.json"%string) 0)
               [OpProcess "No confies en nadie mas, solo yo." INBOUND SPANISH (at_time 50)] in
  "state.json"%string <> EmptyString /\
  exists g',
    __init__ "local" SPANISH (Some "state.json"%string)
             (Present (Parsed (_save_state g 51))) 2000 = Some (g', None) /\
    inbound g' = restore (inbound g) ChannelState_default /\
    outbound g' = restore (outbound g) ChannelState_default /\
    handoff_triggered g' = handoff_triggered g /\
    lockdown_active g' = lockdown_active g.
Proof.
  intros g.
  assert (Hp : "state.json"%string <> EmptyString) by discriminate.
  split; [exact Hp |].
  exact (restart_restores g 51 "local" SPANISH "state.json"%string 2000 Hp).
Defined.

Lemma restored_no_decay saved now :
  decayed_risk (restore saved ChannelState_default) now = risk saved /\
  decayed_safety (restore saved ChannelState_default) now = safety saved.
Proof. split; reflexivity. Qed.

(** X14.  The record holds no time stamp of the channels, so a restart forgets
    when they were last updated: the first message on a channel after a
    restart is applied to the saved risk and safety without any decay,
    however long the guard was down, and the history starts empty. *)
Theorem restart_forgets_clock g saved_at nid lang path now g' log
        text direction language clk :
  path <> EmptyString ->
  __init__ nid lang (Some path) (Present (Parsed (_save_state g saved_at))) now
  = Some (g', log) ->
  let delta :=
    _compute_risk_delta (fst (_analyze_signals text (resolve_language text language))) in
  let after :=
    channel_of (snd (process_message g' text direction language clk)) direction in
  history (channel_of g' direction) = [] /\
  last_update (channel_of g' direction) = 0.0 /\
  risk after
  = Qmax CLAMP_LOW (Qmin CLAMP_HIGH (risk (channel_of g direction) + delta)) /\
  safety after
  = (if Qgtb delta 0
     then Qmax CLAMP_LOW (safety (channel_of g direction) - delta * GAMMA)
     else safety (channel_of g direction)).
Proof.
  intros Hp Hinit delta after. subst delta after.
  unfold __init__ in Hinit. destruct (decide (path = EmptyString)); [contradiction |].
  unfold _load_state in Hinit. rewrite load_saved in Hinit.
  injection Hinit as <- _.
  rewrite process_channel, update_risk_eq, update_safety_eq.
  unfold channel_of. destruct (decide (direction = INBOUND));
    cbn [inbound outbound set_lockdown_active set_handoff_triggered set_outbound
         set_inbound fresh_guard];
    destruct (restored_no_decay (inbound g) (t_update clk)) as [Hri Hsi];
    destruct (restored_no_decay (outbound g) (t_update clk)) as [Hro Hso];
    rewrite ?Hri, ?Hsi, ?Hro, ?Hso; repeat split.
Qed.

Lemma restart_forgets_clock_witness :
  let g := run (fresh_guard "local" SPANISH (Some "state.json"%string) 0)
               [OpTrigger "manual"] in
  let g' := set_lockdown_active
              (set_handoff_triggered
                 (set_outbound
                    (set_inbound (fresh_guard "local" SPANISH (Some "state.json"%string) 9000)
                                 (restore (inbound g) ChannelState_default))
                    (restore (outbound g) ChannelState_default))
                 (handoff_triggered g))
              (lockdown_active g) in
  let after := channel_of (snd (process_message g' "Hola" INBOUND SPANISH (at_time 9999)))
                          INBOUND in
  "state.json"%string <> EmptyString /\
  __init__ "local" SPANISH (Some "state.json"%string)
           (Present (Parsed (_save_state g 1))) 9000 = Some (g', None) /\
  risk after
  = Qmax CLAMP_LOW
         (Qmin CLAMP_HIGH
               (risk (channel_of g INBOUND)
                + _compute_risk_delta
                    (fst (_analyze_signals "Hola" (resolve_language "Hola" SPANISH))))).
Proof.
  intros g g' after.
  assert (Hp : "state.json"%string <> EmptyString) by discriminate.
  assert (Hinit : __init__ "local" SPANISH (Some "state.json"%string)
                           (Present (Parsed (_save_state g 1))) 9000 = Some (g', None)).
  { unfold __init__. destruct (decide ("state.json"%string = EmptyString)) as [E | _];
      [discriminate E |].
    unfold _load_state. rewrite load_saved. reflexivity. }
  split; [exact Hp |]. split; [exact Hinit |].
  exact (proj1 (proj2 (proj2
    (restart_forgets_clock g 1 "local" SPANISH "state.json"%string 9000 g' None
       "Hola" INBOUND SPANISH (at_time 9999) Hp Hinit)))).
Defined.

(** ** What loading can and cannot change *)

Section Keeps.

Variable R : Guard -> Guard -> Prop.
Hypothesis R_refl : forall g, R g g.
Hypothesis R_trans : forall a b c, R a b -> R b c -> R a c.

Lemma keeps_bind {A B} (c : Load A) (k : A -> Load B) :
  keeps R c -> (forall a, keeps R (k a)) -> keeps R (bind c k).
Proof.
  intros Hc Hk g. unfold bind. specialize (Hc g).
  destruct (c g) as [a g1 | e g1 |]; [| exact Hc | exact I].
  specialize (Hk a g1). destruct (k a g1) as [b g2 | e g2 |]; [| | exact I];
    eapply R_trans; eassumption.
Qed.

Lemma keeps_raised_bind {A B} (c : Load A) (k : A -> Load B) :
  keeps R c -> (forall a, keeps_raised R (k a)) -> keeps_raised R (bind c k).
Proof.
  intros Hc Hk g e g' H. unfold bind in H. specialize (Hc g).
  destruct (c g) as [a g1 | e1 g1 |]; [| injection H as <- <-; exact Hc | discriminate H].
  eapply R_trans; [exact Hc | eapply Hk, H].
Qed.

Lemma keeps_subscript v key : keeps R (subscript v key).
Proof.
  intros g. destruct v; cbn; try apply R_refl.
  destruct (assoc key members); cbn; apply R_refl.
Qed.

Lemma keeps_as_number v : keeps R (as_number v).
Proof. intros g. destruct v; cbn; trivial. Qed.

Lemma keeps_as_int v : keeps R (as_int v).
Proof. intros g. destruct v; cbn; trivial. Qed.

Lemma keeps_as_bool v : keeps R (as_bool v).
Proof. intros g. destruct v; cbn; trivial. Qed.

Lemma keeps_to_set v : keeps R (to_set v).
Proof.
  intros g. destruct v; cbn; trivial.
  destruct (forallb hashable items); cbn; [| apply R_refl].
  destruct (mapM str_of items); cbn; trivial.
Qed.

Lemma keeps_modify f : (forall g, R g (f g)) -> keeps R (modify f).
Proof. intros H g. apply H. Qed.

Lemma keeps_load_channel state key get put :
  (forall g c, channel_frame (get g) c -> R g (put g c)) ->
  (forall g, channel_frame (get g) (get g)) ->
  (forall g x, channel_frame (get g) (set_risk (get g) x)) ->
  (forall g x, channel_frame (get g) (set_safety (get g) x)) ->
  (forall g x, channel_frame (get g) (set_flags (get g) x)) ->
  (forall g x, channel_frame (get g) (set_turn_count (get g) x)) ->
  keeps R (load_channel state key get put).
Proof.
  intros Hput _ Hr Hs Hf Ht. unfold load_channel.
  repeat first
    [ apply keeps_bind; [| intros ?]
    | apply keeps_subscript | apply keeps_as_number | apply keeps_as_int
    | apply keeps_to_set
    | apply keeps_modify; intros g0; apply Hput;
      first [apply Hr | apply Hs | apply Hf | apply Ht] ].
Qed.

End Keeps.

Lemma channel_frame_refl c : channel_frame c c.
Proof. repeat split. Qed.

Lemma load_frame_refl g : load_frame g g.
Proof. repeat split. Qed.

Lemma load_frame_trans a b c : load_frame a b -> load_frame b c -> load_frame a c.
Proof.
  unfold load_frame, channel_frame.
  intros (? & ? & ? & ? & ? & (? & ? & ? & ?) & (? & ? & ? & ?))
         (? & ? & ? & ? & ? & (? & ? & ? & ?) & (? & ? & ? & ?)).
  repeat split; congruence.
Qed.

Lemma same_lockdown_trans a b c :
  same_lockdown a b -> same_lockdown b c -> same_lockdown a c.
Proof. unfold same_lockdown. congruence. Qed.

Lemma load_channel_frame state key :
  keeps load_frame (load_channel state key inbound set_inbound) /\
  keeps load_frame (load_channel state key outbound set_outbound) /\
  keeps same_lockdown (load_channel state key inbound set_inbound) /\
  keeps same_lockdown (load_channel state key outbound set_outbound).
Proof.
  repeat split;
    apply keeps_load_channel;
    solve [ apply load_frame_refl | apply load_frame_trans
          | exact (fun g => eq_refl) | exact same_lockdown_trans
          | intros; repeat split
          | intros g c (? & ? & ? & ?); repeat split; assumption ].
Qed.

Lemma load_body_frame state : keeps load_frame (load_body state).
Proof.
  unfold load_body.
  destruct (load_channel_frame state "inbound") as (Hi & _ & _ & _).
  destruct (load_channel_frame state "outbound") as (_ & Ho & _ & _).
  repeat first
    [ exact Hi | exact Ho
    | apply (keeps_bind load_frame load_frame_trans); [| intros ?]
    | apply (keeps_subscript load_frame load_frame_refl)
    | apply (keeps_as_bool load_frame load_frame_refl)
    | apply keeps_modify; intros g0; repeat split ].
Qed.

Lemma load_body_lockdown state : keeps_raised same_lockdown (load_body state).
Proof.
  unfold load_body.
  destruct (load_channel_frame state "inbound") as (_ & _ & Hi & _).
  destruct (load_channel_frame state "outbound") as (_ & _ & _ & Ho).
  apply (keeps_raised_bind same_lockdown same_lockdown_trans); [exact Hi | intros _].
  apply (keeps_raised_bind same_lockdown same_lockdown_trans); [exact Ho | intros _].
  apply (keeps_raised_bind same_lockdown same_lockdown_trans);
    [apply keeps_subscript; reflexivity | intros v].
  apply (keeps_raised_bind same_lockdown same_lockdown_trans);
    [apply keeps_as_bool; reflexivity | intros b].
  apply (keeps_raised_bind same_lockdown same_lockdown_trans);
    [apply keeps_modify; reflexivity | intros _].
  apply (keeps_raised_bind same_lockdown same_lockdown_trans);
    [apply keeps_subscript; reflexivity | intros v'].
  apply (keeps_raised_bind same_lockdown same_lockdown_trans);
    [apply keeps_as_bool; reflexivity | intros b'].
  intros g e g' H. discriminate H.
Qed.

(** A typed record never makes the loader store a value of another type. *)

Lemma mapM_str_of_typed items :
  forallb is_str items = true ->
  exists l, mapM str_of items = Some l.
Proof.
  induction items as [| x items IH]; [now exists [] |].
  cbn [forallb]. intros H. apply andb_true_iff in H as [Hx Hi].
  destruct x; try discriminate Hx. destruct (IH Hi) as [l Hl].
  exists (s :: l). cbn. cbn in Hl. rewrite Hl. reflexivity.
Qed.

Lemma to_set_typed v g :
  is_flag_list v = true -> to_set v g <> Untyped.
Proof.
  intros H. destruct v; cbn in *; try discriminate.
  destruct (forallb hashable items); cbn in *; [| discriminate].
  destruct (mapM_str_of_typed items H) as [l ->]. discriminate.
Qed.

(** A run that is not [Untyped] followed by runs that are not. *)
Lemma bind_typed {A B} (c : Load A) (k : A -> Load B) g :
  c g <> Untyped ->
  (forall a g', c g = Ok a g' -> k a g' <> Untyped) ->
  bind c k g <> Untyped.
Proof.
  intros Hc Hk. unfold bind. destruct (c g) as [a g' | e g' |];
    [now apply Hk | discriminate | contradiction].
Qed.

Lemma subscript_typed v key g : subscript v key g <> Untyped.
Proof. destruct v; cbn; try discriminate. destruct (assoc key members); discriminate. Qed.

Lemma subscript_ok v key g x g' :
  subscript v key g = Ok x g' ->
  g' = g /\ forall ok, member_ok ok v key = ok x.
Proof.
  destruct v; cbn; try discriminate.
  destruct (assoc key members) eqn:E; cbn; [| discriminate].
  intros H. injection H as <- <-. split; [reflexivity |]. intros ok. reflexivity.
Qed.

Lemma as_number_typed v g : is_number v = true -> as_number v g <> Untyped.
Proof. destruct v; cbn; discriminate. Qed.

Lemma as_int_typed v g : is_int v = true -> as_int v g <> Untyped.
Proof. destruct v; cbn; discriminate. Qed.

Lemma as_bool_typed v g : is_bool v = true -> as_bool v g <> Untyped.
Proof. destruct v; cbn; discriminate. Qed.

Lemma modify_typed f g : modify f g <> Untyped.
Proof. discriminate. Qed.

Lemma load_channel_typed state key get put g :
  member_ok channel_typed state key = true ->
  load_channel state key get put g <> Untyped.
Proof.
  intros H. unfold load_channel.
  repeat first
    [ apply modify_typed
    | apply bind_typed;
      [ first [ apply subscript_typed | apply modify_typed
              | apply as_number_typed | apply as_int_typed | apply to_set_typed ]
      | intros ? ? ? ] ];
    repeat match goal with
           | E : subscript _ _ _ = Ok _ _ |- _ =>
               apply subscript_ok in E as [_ E]
           end.
  all: try (match goal with
            | E : forall ok, member_ok ok ?s ?k = ok ?d, H : member_ok channel_typed ?s ?k = true |- _ =>
                rewrite E in H; unfold channel_typed in H;
                repeat (apply andb_true_iff in H as [H ?])
            end).
  all: try (match goal with
            | E : forall ok, member_ok ok ?d ?k = ok ?v |- _ ?v = true =>
                rewrite <- E; assumption
            end).
Qed.


Lemma load_body_typed state g : typed state = true -> load_body state g <> Untyped.
Proof.
  intros H. unfold typed in H.
  apply andb_true_iff in H as [H Hl]. apply andb_true_iff in H as [H Hh].
  apply andb_true_iff in H as [Hi Ho].
  unfold load_body.
  repeat first
    [ apply modify_typed
    | apply bind_typed;
      [ first [ now apply load_channel_typed | apply subscript_typed
              | apply modify_typed | apply as_bool_typed ]
      | intros ? ? ? ] ];
    repeat match goal with
           | E : subscript _ _ _ = Ok _ _ |- _ =>
               apply subscript_ok in E as [_ E]
           end;
    match goal with
    | E : forall ok, member_ok ok ?d ?k = ok ?v |- _ ?v = true =>
        rewrite <- E; assumption
    end.
Qed.

(** X15.  The loader returns on every state file whose members, where
    present, have the JSON types the writer gives them (a file that
    cannot be read or parsed included; members may be missing or extra).
    Whenever it returns without having stored a value of another type
    (on those files, and on any file where it raises before it reaches
    such a member), it has changed at most the risk, safety, flags and
    turn count of the two channels and the two sticky flags: identity,
    counters, session start, and each channel's velocity, last update
    and history are as before.  When the load is reported as failed,
    [lockdown_active] is as before too: a record that fails anywhere
    never restores a lockdown. *)
Theorem load_state_frame g file :
  (typed_file file = true -> exists g' log, _load_state g file = Some (g', log)) /\
  (forall g' log,
      _load_state g file = Some (g', log) ->
      load_frame g g' /\
      (log <> None -> lockdown_active g' = lockdown_active g)).
Proof.
  unfold _load_state. destruct file as [e | state].
  - split; [intros _; now exists g, (Some e) |].
    intros g' log H. injection H as <- <-. split; [apply load_frame_refl | reflexivity].
  - pose proof (load_body_frame state g) as Hf.
    pose proof (load_body_lockdown state g) as Hl.
    split.
    + intros Ht. pose proof (load_body_typed state g Ht) as Hu.
      destruct (load_body state g) as [[] g1 | e g1 |]; [| | contradiction].
      * now exists g1, None.
      * now exists g1, (Some e).
    + intros g' log H.
      destruct (load_body state g) as [[] g1 | e g1 |]; [| | discriminate H];
        injection H as <- <-.
      * split; [exact Hf | intros Hn; now contradiction Hn].
      * split; [exact Hf | intros _; exact (Hl e g1 eq_refl)].
Qed.

Lemma load_state_frame_witness :
  let g := fresh_guard "local" SPANISH (Some "state.json"%string) 2000 in
  let record :=
    JObj [ ("inbound"%string,
            JObj [ ("risk"%string, JFloat 0.85); ("safety"%string, JFloat 0.4);
                   ("flags"%string, JArr [JStr "love_bombing"]);
                   ("turn_count"%string, JInt 12) ]);
           ("outbound"%string,
            JObj [ ("risk"%string, JFloat 0.85); ("safety"%string, JFloat 0.4);
                   ("flags"%string, JArr []); ("turn_count"%string, JInt 3) ]);
           ("handoff_triggered"%string, JBool true);
           ("note"%string, JStr "lockdown_active is missing") ] in
  typed_file (Parsed record) = true /\
  exists g' e,
    _load_state g (Parsed record) = Some (g', Some e) /\
    load_frame g g' /\ lockdown_active g' = lockdown_active g /\
    handoff_triggered g' = true /\ risk (inbound g') == 0.85.
Proof.
  intros g record.
  assert (Ht : typed_file (Parsed record) = true) by reflexivity.
  split; [exact Ht |].
  destruct (load_state_frame g (Parsed record)) as [Hret Hframe].
  destruct (Hret Ht) as (g' & log & E).
  destruct (Hframe g' log E) as [Hf Hl].
  destruct log as [e |]; [| vm_compute in E; discriminate E].
  exists g', e. split; [exact E |]. split; [exact Hf |].
  split; [apply Hl; discriminate |].
  vm_compute in E. injection E as <- _. split; reflexivity.
Defined.

(** ** What the language detector needs to see *)

Lemma marker_score_gt markers1 markers2 text :
  (marker_score markers2 text < marker_score markers1 text)%nat ->
  exists w, w ∈ text_words text /\ w ∈ markers1 /\ w ∉ markers2.
Proof.
  unfold marker_score. intros Hlt.
  set (X := text_words text ∩ list_to_set markers1) in *.
  set (Y := text_words text ∩ list_to_set markers2) in *.
  destruct (decide (X ∖ Y = ∅)) as [He | Hne].
  - exfalso. assert (Hsub : X ⊆ Y).
    { intros w Hw. destruct (decide (w ∈ Y)) as [Hy | Hy]; [exact Hy |].
      exfalso. assert (Hd : w ∈ X ∖ Y) by (apply elem_of_difference; auto).
      rewrite He in Hd. now apply not_elem_of_empty in Hd. }
    apply subseteq_size in Hsub. lia.
  - apply set_choose_L in Hne as [w Hw].
    apply elem_of_difference in Hw as [Hx Hy]. subst X Y.
    apply elem_of_intersection in Hx as [Hw1 Hm1].
    apply elem_of_list_to_set in Hm1.
    exists w. repeat split; [exact Hw1 | exact Hm1 |].
    intros Hm2. apply Hy. apply elem_of_intersection. split; [exact Hw1 |].
    now apply elem_of_list_to_set.
Qed.

(** X16.  The detector leaves the Spanish default only on evidence: it answers
    Portuguese only for a text with a token that is a Portuguese marker and
    not a Spanish one, and English only for a text with a token that is an
    English marker and not a Spanish one. *)
Theorem detect_needs_marker text :
  (_detect_language text = PORTUGUESE ->
   exists w, w ∈ text_words text /\ w ∈ pt_markers /\ w ∉ es_markers) /\
  (_detect_language text = ENGLISH ->
   exists w, w ∈ text_words text /\ w ∈ en_markers /\ w ∉ es_markers).
Proof.
  unfold _detect_language, es_score, pt_score, en_score.
  destruct (Nat.ltb_spec (marker_score es_markers text) (marker_score pt_markers text))
    as [Hpt | Hpt];
    destruct (Nat.ltb_spec (marker_score en_markers text) (marker_score pt_markers text))
      as [Hpe | Hpe];
    destruct (Nat.ltb_spec (marker_score es_markers text) (marker_score en_markers text))
      as [Hen | Hen];
    cbn; split; intros H; try discriminate H;
    first [ exact (marker_score_gt _ _ _ Hpt) | exact (marker_score_gt _ _ _ Hen) ].
Qed.

Lemma detect_needs_marker_witness :
  let text := "Voce tem que fugir agora"%string in
  _detect_language text = PORTUGUESE /\
  exists w, w ∈ text_words text /\ w ∈ pt_markers /\ w ∉ es_markers.
Proof.
  intros text.
  assert (H : _detect_language text = PORTUGUESE) by (vm_compute; reflexivity).
  split; [exact H |].
  exact (proj1 (detect_needs_marker text) H).
Defined.

(** ** Case does not matter *)

Lemma lower_char_idem c : Re.lower_char (Re.lower_char c) = Re.lower_char c.
Proof.
  destruct c as [b0 b1 b2 b3 b4 b5 b6 b7];
    destruct b0, b1, b2, b3, b4, b5, b6, b7; reflexivity.
Qed.

Lemma is_word_lower c : Re.is_word_char (Re.lower_char c) = Re.is_word_char c.
Proof.
  destruct c as [b0 b1 b2 b3 b4 b5 b6 b7];
    destruct b0, b1, b2, b3, b4, b5, b6, b7; reflexivity.
Qed.

Lemma is_word_opt_lower o :
  Re.is_word_opt (option_map Re.lower_char o) = Re.is_word_opt o.
Proof. destruct o; cbn; [apply is_word_lower | reflexivity]. Qed.

Lemma head_char_lower s :
  Re.head_char (Re.lower s) = option_map Re.lower_char (Re.head_char s).
Proof. destruct s; reflexivity. Qed.

Lemma at_boundary_lower before after :
  Re.at_boundary (option_map Re.lower_char before) (option_map Re.lower_char after)
  = Re.at_boundary before after.
Proof. unfold Re.at_boundary. now rewrite !is_word_opt_lower. Qed.

Lemma match_literal_lower lit : forall s before,
  Re.match_literal lit (Re.lower s) (option_map Re.lower_char before)
  = option_map (fun lr : option ascii * string =>
                  (option_map Re.lower_char (fst lr), Re.lower (snd lr)))
               (Re.match_literal lit s before).
Proof.
  induction lit as [| p lit IH]; intros s before; [reflexivity |].
  destruct s as [| c s]; [reflexivity |].
  cbn [Re.match_literal Re.lower]. rewrite lower_char_idem.
  destruct (Ascii.eqb (Re.lower_char p) (Re.lower_char c)); [| reflexivity].
  exact (IH s (Some c)).
Qed.

Lemma match_alt_lower before s lit :
  Re.match_alt (option_map Re.lower_char before) (Re.lower s) lit
  = Re.match_alt before s lit.
Proof.
  unfold Re.match_alt.
  rewrite head_char_lower, at_boundary_lower, match_literal_lower.
  destruct (Re.at_boundary before (Re.head_char s)); [| reflexivity].
  destruct (Re.match_literal lit s before) as [[last rest] |]; [| reflexivity].
  cbn [option_map fst snd]. now rewrite head_char_lower, at_boundary_lower.
Qed.

Lemma match_at_lower p before s :
  Re.match_at p (option_map Re.lower_char before) (Re.lower s)
  = Re.match_at p before s.
Proof.
  induction p as [| lit p IH]; [reflexivity |].
  cbn [Re.match_at]. now rewrite match_alt_lower, IH.
Qed.

Lemma count_from_lower p s : forall skip before,
  Re.count_from p skip (option_map Re.lower_char before) (Re.lower s)
  = Re.count_from p skip before s.
Proof.
  induction s as [| c s IH]; intros skip before; [reflexivity |].
  cbn [Re.lower Re.count_from].
  change (String (Re.lower_char c) (Re.lower s)) with (Re.lower (String c s)).
  rewrite match_at_lower.
  destruct skip as [| k].
  - destruct (Re.match_at p before (String c s)) as [n |];
      [f_equal |]; exact (IH _ (Some c)).
  - exact (IH k (Some c)).
Qed.

Lemma search_from_lower p s : forall before,
  Re.search_from p (option_map Re.lower_char before) (Re.lower s)
  = Re.search_from p before s.
Proof.
  induction s as [| c s IH]; intros before; [reflexivity |].
  cbn [Re.lower Re.search_from].
  change (String (Re.lower_char c) (Re.lower s)) with (Re.lower (String c s)).
  rewrite match_at_lower.
  destruct (Re.match_at p before (String c s)); [reflexivity |].
  exact (IH (Some c)).
Qed.

Lemma findall_count_lower p text :
  Re.findall_count p (Re.lower text) = Re.findall_count p text.
Proof. exact (count_from_lower p text 0 None). Qed.

Lemma search_lower p text : Re.search p (Re.lower text) = Re.search p text.
Proof. exact (search_from_lower p text None). Qed.

Lemma fold_left_eq {A S} (f f' : S -> A -> S) (l : list A) :
  (forall s a, f s a = f' s a) ->
  forall s, fold_left f l s = fold_left f' l s.
Proof.
  intros H. induction l as [| a l IH]; intros s; [reflexivity |].
  cbn. rewrite H. apply IH.
Qed.

Lemma analyze_signals_lower text language :
  _analyze_signals (Re.lower text) language = _analyze_signals text language.
Proof.
  assert (Hp : forall cats signals,
             scan_primary (Re.lower text) cats signals = scan_primary text cats signals).
  { intros cats signals. unfold scan_primary. apply fold_left_eq.
    intros s cp. apply fold_left_eq. intros s' p.
    unfold accumulate. now rewrite findall_count_lower. }
  assert (Hc : forall signals,
             scan_cross (Re.lower text) language signals = scan_cross text language signals).
  { intros signals. unfold scan_cross. apply fold_left_eq. intros s lang.
    destruct (decide (lang <> language)); [| reflexivity].
    destruct (assoc lang _compile_patterns); [| reflexivity].
    unfold scan_other. apply fold_left_eq.
    intros s1 cp. apply fold_left_eq. intros s2 p.
    unfold leak. now rewrite search_lower. }
  unfold _analyze_signals.
  destruct (assoc language _compile_patterns); rewrite ?Hp, !Hc; reflexivity.
Qed.

Lemma lower_idem s : Re.lower (Re.lower s) = Re.lower s.
Proof.
  induction s as [| c s IH]; [reflexivity |].
  cbn. now rewrite lower_char_idem, IH.
Qed.

Lemma detect_language_lower text :
  _detect_language (Re.lower text) = _detect_language text.
Proof.
  unfold _detect_language, es_score, pt_score, en_score, marker_score, text_words.
  now rewrite lower_idem.
Qed.

(** X17.  Two ASCII texts that differ only in the case of their letters
    are the same message to the guard: the detector and the analyzer
    give the same answers, and [process_message] returns the same result
    and the same guard.  (On ASCII texts the case folding of the model is
    that of [str.lower] and of [re.IGNORECASE]; outside ASCII the program
    folds more than the model does.) *)
Theorem case_insensitive text1 text2 :
  is_ascii text1 = true -> is_ascii text2 = true ->
  Re.lower text1 = Re.lower text2 ->
  _detect_language text1 = _detect_language text2 /\
  (forall language,
      _analyze_signals text1 language = _analyze_signals text2 language) /\
  (forall g direction language clk,
      process_message g text1 direction language clk
      = process_message g text2 direction language clk).
Proof.
  intros _ _ H.
  assert (Hd : _detect_language text1 = _detect_language text2)
    by (rewrite <- (detect_language_lower text1), <- (detect_language_lower text2), H;
        reflexivity).
  assert (Ha : forall language,
             _analyze_signals text1 language = _analyze_signals text2 language)
    by (intros language;
        rewrite <- (analyze_signals_lower text1), <- (analyze_signals_lower text2), H;
        reflexivity).
  split; [exact Hd |]. split; [exact Ha |].
  intros g direction language clk. unfold process_message, resolve_language.
  rewrite Hd. destruct (decide (language = AUTO)); rewrite Ha; reflexivity.
Qed.

Lemma case_insensitive_witness :
  let text1 := "ES URGENTE! Debes Actuar AHORA MISMO"%string in
  let text2 := "es urgente! debes actuar ahora mismo"%string in
  is_ascii text1 = true /\ is_ascii text2 = true /\
  Re.lower text1 = Re.lower text2 /\
  _detect_language text1 = _detect_language text2 /\
  _analyze_signals text1 SPANISH = _analyze_signals text2 SPANISH /\
  fst (_analyze_signals text1 SPANISH) <> ∅.
Proof.
  intros text1 text2.
  assert (H1 : is_ascii text1 = true) by reflexivity.
  assert (H2 : is_ascii text2 = true) by reflexivity.
  assert (H : Re.lower text1 = Re.lower text2) by reflexivity.
  destruct (case_insensitive text1 text2 H1 H2 H) as (Hd & Ha & _).
  split; [exact H1 |]. split; [exact H2 |]. split; [exact H |].
  split; [exact Hd |]. split; [exact (Ha SPANISH) |].
  vm_compute. discriminate.
Defined.

(** ** Coming back from CLAMP_HIGH *)

Lemma decay_factor_full elapsed : 10 <= elapsed -> decay_factor_of elapsed == 1.
Proof.
  intros He. unfold decay_factor_of.
  assert (1 <= elapsed / 10.0) by (apply Qle_shift_div_l; [reflexivity | lra]).
  apply Qle_antisym; minmax.
Qed.

Lemma decayed_risk_full channel now :
  0 < last_update channel -> last_update channel + 10 <= now ->
  decayed_risk channel now == risk channel * (1 - VOLATILE_DECAY).
Proof.
  intros Hlu Ht. unfold decayed_risk.
  apply Qgtb_true in Hlu. rewrite Hlu.
  rewrite decay_factor_full by lra. now rewrite Qmult_1_r.
Qed.

Lemma update_quiet_full channel (signals : gmap string Q) new_flags risk_delta now (bound : Q) :
  risk_delta == 0 -> 0 <= risk channel -> risk channel <= bound ->
  0 < last_update channel -> last_update channel + 10 <= now ->
  risk (snd (_update_channel channel signals new_flags risk_delta now))
  <= Qmax CLAMP_LOW (bound * (1 - VOLATILE_DECAY)).
Proof.
  intros Hd H0 Hb Hlu Ht. rewrite update_risk_eq.
  pose proof (decayed_risk_full channel now Hlu Ht) as Hdec. constants.
  assert (risk channel * (1 - VOLATILE_DECAY) <= bound * (1 - VOLATILE_DECAY))
    by (apply Qmult_le_compat_r; lra).
  minmax.
Qed.

Lemma recovery_numbers :
  Qmax CLAMP_LOW
       (Qmax CLAMP_LOW (CLAMP_HIGH * (1 - VOLATILE_DECAY)) * (1 - VOLATILE_DECAY))
  < 0.3.
Proof. reflexivity. Qed.

(** X18.  Rebuilding trust takes time and traffic: from any state of the
    guard (after a lockdown, say), three messages without signals on one
    channel, whatever their texts and languages, the first at a positive
    clock reading and each of the next two at least ten seconds after the
    one before, bring that channel's risk below the [0.3] of level
    MODERATE. *)
Theorem recovery_by_decay g direction text1 language1 clk1 text2 language2 clk2
        text3 language3 clk3 :
  fst (_analyze_signals text1 (resolve_language text1 language1)) = ∅ ->
  fst (_analyze_signals text2 (resolve_language text2 language2)) = ∅ ->
  fst (_analyze_signals text3 (resolve_language text3 language3)) = ∅ ->
  0 < t_update clk1 ->
  t_update clk1 + 10 <= t_update clk2 ->
  t_update clk2 + 10 <= t_update clk3 ->
  let g1 := snd (process_message g text1 direction language1 clk1) in
  let g2 := snd (process_message g1 text2 direction language2 clk2) in
  let g3 := snd (process_message g2 text3 direction language3 clk3) in
  risk (channel_of g3 direction) < 0.3.
Proof.
  intros Hs1 Hs2 Hs3 H1 H2 H3 g1 g2 g3. subst g1 g2 g3.
  assert (Hd : forall text language,
             fst (_analyze_signals text (resolve_language text language)) = ∅ ->
             _compute_risk_delta
               (fst (_analyze_signals text (resolve_language text language))) == 0).
  { intros text language Hs. rewrite Hs. unfold _compute_risk_delta.
    rewrite map_fold_empty. reflexivity. }
  set (g1 := snd (process_message g text1 direction language1 clk1)).
  set (g2 := snd (process_message g1 text2 direction language2 clk2)).
  constants.
  (* first message: bounds hold, last update becomes the first reading *)
  assert (Hg1 : CLAMP_LOW <= risk (channel_of g1 direction)
                /\ risk (channel_of g1 direction) <= CLAMP_HIGH
                /\ last_update (channel_of g1 direction) = t_update clk1).
  { subst g1. rewrite process_channel.
    split; [apply update_risk_bounds |]. split; [apply update_risk_bounds | reflexivity]. }
  destruct Hg1 as (Hl1 & Hu1 & Hlu1).
  (* second message: one full decay *)
  assert (Hg2 : CLAMP_LOW <= risk (channel_of g2 direction)
                /\ risk (channel_of g2 direction)
                   <= Qmax CLAMP_LOW (CLAMP_HIGH * (1 - VOLATILE_DECAY))
                /\ last_update (channel_of g2 direction) = t_update clk2).
  { subst g2. rewrite process_channel.
    split; [apply update_risk_bounds |]. split; [| reflexivity].
    apply update_quiet_full; try (apply Hd; assumption); try assumption;
      rewrite ?Hlu1; lra. }
  destruct Hg2 as (Hl2 & Hu2 & Hlu2).
  (* third message: a second full decay *)
  rewrite process_channel. fold g1. fold g2.
  eapply Qle_lt_trans; [| exact recovery_numbers].
  apply update_quiet_full; try (apply Hd; assumption); try assumption;
    rewrite ?Hlu2; lra.
Qed.

Lemma recovery_by_decay_witness :
  let g := trigger_lockdown (fresh_guard "local" SPANISH None 0) "manual" in
  let g1 := snd (process_message g "Hola" INBOUND SPANISH (at_time 100)) in
  let g2 := snd (process_message g1 "Maiz disponible, sector 3." INBOUND AUTO
                                 (at_time 110)) in
  let g3 := snd (process_message g2 "B1:75" INBOUND ENGLISH (at_time 120)) in
  risk (channel_of g INBOUND) == CLAMP_HIGH /\
  fst (_analyze_signals "Hola" (resolve_language "Hola" SPANISH)) = ∅ /\
  risk (channel_of g3 INBOUND) < 0.3.
Proof.
  intros g g1 g2 g3.
  assert (Hs1 : fst (_analyze_signals "Hola" (resolve_language "Hola" SPANISH)) = ∅)
    by (vm_compute; reflexivity).
  assert (Hs2 : fst (_analyze_signals "Maiz disponible, sector 3."
                       (resolve_language "Maiz disponible, sector 3." AUTO)) = ∅)
    by (vm_compute; reflexivity).
  assert (Hs3 : fst (_analyze_signals "B1:75" (resolve_language "B1:75" ENGLISH)) = ∅)
    by (vm_compute; reflexivity).
  assert (H1 : 0 < t_update (at_time 100)) by reflexivity.
  assert (H2 : t_update (at_time 100) + 10 <= t_update (at_time 110))
    by (vm_compute; discriminate).
  assert (H3 : t_update (at_time 110) + 10 <= t_update (at_time 120))
    by (vm_compute; discriminate).
  split; [reflexivity |]. split; [exact Hs1 |].
  exact (recovery_by_decay g INBOUND "Hola" SPANISH (at_time 100)
           "Maiz disponible, sector 3." AUTO (at_time 110)
           "B1:75" ENGLISH (at_time 120) Hs1 Hs2 Hs3 H1 H2 H3).
Defined.

(** ** A silent direction *)

Lemma run_inbound_only ops : forall g,
  Forall (fun op => is_inbound_message op = true) ops ->
  outbound (run g ops) = outbound g.
Proof.
  induction ops as [| op ops IH]; intros g Hall; [reflexivity |].
  inversion Hall as [| ? ? Hop Hall']; subst.
  cbn [run fold_left]. fold (run (step g op) ops). rewrite (IH _ Hall').
  destruct op as [text direction language clk | |]; try discriminate Hop.
  destruct direction; try discriminate Hop.
  cbn [step]. now apply process_other_outbound.
Qed.

(** X19.  The risk of a channel changes only when a message is counted on it.
    With the outbound risk at [CLAMP_HIGH] (after a lockdown, released or
    not), inbound traffic alone never ends the hand-off: after any number
    of inbound messages the outbound channel is untouched and the next
    inbound message still returns hand-off with level CRITICAL. *)
Theorem silent_direction_keeps_handoff g ops text language clk :
  risk (outbound g) = CLAMP_HIGH ->
  Forall (fun op => is_inbound_message op = true) ops ->
  let g' := run g ops in
  let res := fst (process_message g' text INBOUND language clk) in
  outbound g' = outbound g /\
  m_handoff res = true /\ m_level res = "CRITICAL"%string.
Proof.
  intros Hr Hall g' res. subst g' res.
  pose proof (run_inbound_only ops g Hall) as Ho.
  split; [exact Ho |].
  assert (Hh : m_handoff (fst (process_message (run g ops) text INBOUND language clk))
               = true).
  { rewrite process_handoff_bilateral. apply Qgeb_true.
    destruct (process_result_bilateral (run g ops) text INBOUND language clk) as [-> _].
    rewrite (process_other_outbound _ _ _ _ _ eq_refl), Ho, Hr. apply Q.le_max_r. }
  split; [exact Hh |].
  rewrite process_level_eq. apply compute_level_critical.
  rewrite <- process_handoff_bilateral. exact Hh.
Qed.

Lemma silent_direction_keeps_handoff_witness :
  let g := snd (release_lockdown
                  (trigger_lockdown (fresh_guard "local" SPANISH None 0) "manual")) in
  let ops := [OpProcess "Hola" INBOUND SPANISH (at_time 100);
              OpProcess "Hola" INBOUND SPANISH (at_time 200);
              OpProcess "Hola" INBOUND SPANISH (at_time 300)] in
  let res := fst (process_message (run g ops) "Hola" INBOUND SPANISH (at_time 400)) in
  risk (outbound g) = CLAMP_HIGH /\
  Forall (fun op => is_inbound_message op = true) ops /\
  outbound (run g ops) = outbound g /\
  m_handoff res = true /\ m_level res = "CRITICAL"%string.
Proof.
  intros g ops res.
  assert (Hr : risk (outbound g) = CLAMP_HIGH) by reflexivity.
  assert (Hall : Forall (fun op => is_inbound_message op = true) ops)
    by (repeat constructor).
  split; [exact Hr |]. split; [exact Hall |].
  exact (silent_direction_keeps_handoff g ops "Hola" SPANISH (at_time 400) Hr Hall).
Defined.

(* ===================================================================== *)
(** * The callers of the guard                                            *)
(* ===================================================================== *)

(** ** Inventory messages carry no signal *)

Ltac all_chars c :=
  destruct c as [b0 b1 b2 b3 b4 b5 b6 b7];
  destruct b0, b1, b2, b3, b4, b5, b6, b7.

Lemma is_letter_lower c : is_letter (Re.lower_char c) = is_letter c.
Proof. all_chars c; reflexivity. Qed.

Lemma is_digit_lower c : Text.is_digit (Re.lower_char c) = Text.is_digit c.
Proof. all_chars c; reflexivity. Qed.

Lemma same_lower_letter a c :
  Ascii.eqb (Re.lower_char a) (Re.lower_char c) = true -> is_letter c = is_letter a.
Proof.
  intros H. apply Ascii.eqb_eq in H.
  rewrite <- (is_letter_lower c), <- (is_letter_lower a). now rewrite H.
Qed.

Lemma same_lower_digit a c :
  Ascii.eqb (Re.lower_char a) (Re.lower_char c) = true ->
  Text.is_digit c = Text.is_digit a.
Proof.
  intros H. apply Ascii.eqb_eq in H.
  rewrite <- (is_digit_lower c), <- (is_digit_lower a). now rewrite H.
Qed.

Lemma match_literal_sparse lit s before :
  alt_ok lit = true -> sparse s = true -> Re.match_literal lit s before = None.
Proof.
  intros Hlit Hs.
  destruct lit as [| a [| b lit]]; try discriminate Hlit.
  cbn in Hlit. apply andb_true_iff in Hlit as [Ha Hb].
  destruct s as [| c rest]; [reflexivity |].
  cbn [Re.match_literal].
  destruct (Ascii.eqb (Re.lower_char a) (Re.lower_char c)) eqn:E1; [| reflexivity].
  apply same_lower_letter in E1.
  cbn [sparse] in Hs. apply andb_true_iff in Hs as [Hc _].
  rewrite E1, Ha in Hc. cbn in Hc.
  destruct rest as [| d rest']; [reflexivity |].
  destruct (Ascii.eqb (Re.lower_char b) (Re.lower_char d)) eqn:E2; [| reflexivity].
  apply same_lower_digit in E2. rewrite E2 in Hc.
  rewrite Hc in Hb. discriminate Hb.
Qed.

Lemma match_at_sparse p s before :
  forallb alt_ok p = true -> sparse s = true -> Re.match_at p before s = None.
Proof.
  intros Hp Hs. induction p as [| lit p IH]; [reflexivity |].
  cbn in Hp. apply andb_true_iff in Hp as [Hl Hp].
  cbn [Re.match_at]. unfold Re.match_alt.
  rewrite (match_literal_sparse lit s before Hl Hs).
  destruct (Re.at_boundary before (Re.head_char s)); now apply IH.
Qed.

Lemma sparse_tail c s : sparse (String c s) = true -> sparse s = true.
Proof. cbn [sparse]. intros H. now apply andb_true_iff in H as [_ H]. Qed.

Lemma count_from_sparse p s : forall skip before,
  forallb alt_ok p = true -> sparse s = true -> Re.count_from p skip before s = 0%nat.
Proof.
  induction s as [| c s IH]; intros skip before Hp Hs; [reflexivity |].
  cbn [Re.count_from]. pose proof (sparse_tail _ _ Hs) as Hs'.
  destruct skip; [| now apply IH].
  rewrite (match_at_sparse p _ before Hp Hs). now apply IH.
Qed.

Lemma search_from_sparse p s : forall before,
  forallb alt_ok p = true -> sparse s = true -> Re.search_from p before s = false.
Proof.
  induction s as [| c s IH]; intros before Hp Hs; [reflexivity |].
  cbn [Re.search_from]. rewrite (match_at_sparse p _ before Hp Hs).
  apply IH; [exact Hp | exact (sparse_tail _ _ Hs)].
Qed.

Lemma tables_ok_true : tables_ok = true.
Proof. vm_compute. reflexivity. Qed.

Lemma table_patterns_ok lang cats :
  assoc lang _compile_patterns = Some cats ->
  forallb (fun cp : string * list Re.pattern => forallb (forallb alt_ok) (snd cp)) cats
  = true.
Proof.
  intros H. pose proof tables_ok_true as Hok. unfold tables_ok in Hok.
  destruct lang; cbn in H; try discriminate H; injection H as <-;
    cbn [forallb snd _compile_patterns MANIPULATION_PATTERNS] in Hok;
    repeat (apply andb_true_iff in Hok as [? Hok]); assumption.
Qed.

Lemma fold_left_id {A S} (f : S -> A -> S) (l : list A) (ok : A -> bool) :
  (forall s a, ok a = true -> f s a = s) ->
  forallb ok l = true -> forall s, fold_left f l s = s.
Proof.
  intros Hf. induction l as [| a l IH]; intros Hl s; [reflexivity |].
  cbn in Hl. apply andb_true_iff in Hl as [Ha Hl].
  cbn. rewrite (Hf s a Ha). now apply IH.
Qed.

Lemma analyze_sparse text language :
  sparse text = true -> _analyze_signals text language = (∅, []).
Proof.
  intros Hs.
  assert (Hprim : forall cats signals,
             forallb (fun cp : string * list Re.pattern =>
                        forallb (forallb alt_ok) (snd cp)) cats = true ->
             scan_primary text cats signals = signals).
  { intros cats signals Hc. unfold scan_primary.
    apply (fold_left_id _ _ (fun cp => forallb (forallb alt_ok) (snd cp))); [| exact Hc].
    intros s cp Hcp. apply (fold_left_id _ _ (forallb alt_ok)); [| exact Hcp].
    intros s' p Hp. unfold accumulate, Re.findall_count.
    now rewrite (count_from_sparse p text 0 None Hp Hs). }
  assert (Hoth : forall cats signals,
             forallb (fun cp : string * list Re.pattern =>
                        forallb (forallb alt_ok) (snd cp)) cats = true ->
             scan_other text cats signals = signals).
  { intros cats signals Hc. unfold scan_other.
    apply (fold_left_id _ _ (fun cp => forallb (forallb alt_ok) (snd cp))); [| exact Hc].
    intros s cp Hcp. apply (fold_left_id _ _ (forallb alt_ok)); [| exact Hcp].
    intros s' p Hp. unfold leak, Re.search.
    now rewrite (search_from_sparse p text None Hp Hs). }
  assert (Hcross : forall signals, scan_cross text language signals = signals).
  { intros signals. unfold scan_cross.
    apply (fold_left_id _ _ (fun _ => true)); [| now induction all_languages].
    intros s lang _. destruct (decide (lang <> language)); [| reflexivity].
    destruct (assoc lang _compile_patterns) as [cats |] eqn:E; [| reflexivity].
    apply Hoth. eapply table_patterns_ok, E. }
  unfold _analyze_signals.
  destruct (assoc language _compile_patterns) as [cats |] eqn:E.
  - rewrite Hprim by (eapply table_patterns_ok, E). rewrite Hcross. reflexivity.
  - rewrite Hcross. reflexivity.
Qed.

(** Decimal strings. *)

Lemma uint_string_digits d :
  string_forall Text.is_digit (NilEmpty.string_of_uint d) = true.
Proof. induction d; cbn; auto. Qed.

Lemma digit_not_letter c : Text.is_digit c = true -> is_letter c = false.
Proof. all_chars c; cbn; intros H; try reflexivity; discriminate H. Qed.

Lemma string_forall_impl (P Q' : ascii -> bool) s :
  (forall c, P c = true -> Q' c = true) ->
  string_forall P s = true -> string_forall Q' s = true.
Proof.
  intros H. induction s as [| c s IH]; [reflexivity |].
  cbn. intros Hs. apply andb_true_iff in Hs as [Hc Hs].
  now rewrite (H c Hc), IH.
Qed.

Lemma str_of_int_no_letter z :
  string_forall (fun c => negb (is_letter c)) (Text.str_of_int z) = true.
Proof.
  assert (Hd : forall d, string_forall (fun c => negb (is_letter c))
                                       (NilZero.string_of_uint d) = true).
  { intros d. destruct d; try reflexivity;
      (apply (string_forall_impl Text.is_digit);
       [intros c Hc; now rewrite (digit_not_letter c Hc)
       | exact (uint_string_digits _)]). }
  unfold Text.str_of_int, NilZero.string_of_int.
  destruct (Z.to_int z) as [d | d]; [apply Hd |].
  cbn [string_forall]. now rewrite Hd.
Qed.

Lemma no_letter_sparse s :
  string_forall (fun c => negb (is_letter c)) s = true -> sparse s = true.
Proof.
  induction s as [| c s IH]; [reflexivity |].
  cbn [string_forall sparse]. intros H. apply andb_true_iff in H as [Hc Hs].
  rewrite Hc, (IH Hs). reflexivity.
Qed.

Lemma commodity_code_cases code c :
  MeshBridge.COMMODITY_CODES !! code = Some c ->
  code ∈ ["A1"; "A2"; "A3"; "B1"; "B2"; "B3"; "C1"; "C2"; "C3"; "S1"; "S2"; "V1"; "V2"]%string.
Proof.
  intros H. unfold MeshBridge.COMMODITY_CODES in H.
  apply elem_of_list_to_map_2 in H.
  repeat (apply elem_of_cons in H as [H | H];
          [injection H as -> _; apply (bool_decide_unpack _); vm_compute; exact I |]).
  inversion H.
Qed.

Lemma sparse_code_prefix a d s :
  Text.is_digit d = true -> sparse s = true ->
  sparse (String a (String d (String ":" s))) = true.
Proof.
  intros Hd Hs. cbn [sparse]. rewrite Hd, (digit_not_letter d Hd), Hs.
  cbn. now rewrite orb_true_r.
Qed.

Lemma inventory_message_sparse code c qty :
  MeshBridge.COMMODITY_CODES !! code = Some c ->
  sparse (MeshBridge.inventory_message code qty) = true.
Proof.
  intros H. apply commodity_code_cases in H.
  pose proof (no_letter_sparse _ (str_of_int_no_letter qty)) as Hs.
  unfold MeshBridge.inventory_message.
  repeat (apply elem_of_cons in H as [-> | H];
          [apply sparse_code_prefix; [reflexivity | exact Hs] |]).
  inversion H.
Qed.

(** X20.  The message [send_inventory] builds for a known commodity code and any
    quantity matches no pattern of any language: the analyzer returns an
    empty signal map and no flag, so its risk delta is zero. *)
Theorem inventory_message_quiet code c qty language :
  MeshBridge.COMMODITY_CODES !! code = Some c ->
  _analyze_signals (MeshBridge.inventory_message code qty) language = (∅, []) /\
  _compute_risk_delta
    (fst (_analyze_signals (MeshBridge.inventory_message code qty) language)) == 0.
Proof.
  intros H.
  rewrite (analyze_sparse _ language (inventory_message_sparse code c qty H)).
  split; [reflexivity |].
  cbn [fst]. unfold _compute_risk_delta. rewrite map_fold_empty. reflexivity.
Qed.

Lemma inventory_message_quiet_witness :
  exists c,
    MeshBridge.COMMODITY_CODES !! "B1"%string = Some c /\
    _analyze_signals (MeshBridge.inventory_message "B1" 75) PORTUGUESE = (∅, []) /\
    _compute_risk_delta
      (fst (_analyze_signals (MeshBridge.inventory_message "B1" 75) PORTUGUESE)) == 0.
Proof.
  destruct (MeshBridge.COMMODITY_CODES !! "B1"%string) as [c |] eqn:E;
    [| vm_compute in E; discriminate E].
  exists c. split; [reflexivity |].
  exact (inventory_message_quiet "B1" c 75 PORTUGUESE E).
Defined.

(** ** What an inventory message is read back as *)

Lemma is_letter_upper c : is_letter (Text.upper_char c) = is_letter c.
Proof. all_chars c; reflexivity. Qed.

Lemma is_digit_upper c : Text.is_digit (Text.upper_char c) = Text.is_digit c.
Proof. all_chars c; reflexivity. Qed.

Lemma upper_char_no_letter c : is_letter c = false -> Text.upper_char c = c.
Proof. all_chars c; intros H; try reflexivity; discriminate H. Qed.

Lemma upper_no_letter s :
  string_forall (fun c => negb (is_letter c)) s = true -> Text.upper s = s.
Proof.
  induction s as [| c s IH]; [reflexivity |].
  cbn [string_forall Text.upper]. intros H. apply andb_true_iff in H as [Hc Hs].
  apply negb_true_iff in Hc. now rewrite (upper_char_no_letter c Hc), (IH Hs).
Qed.

Lemma sparse_upper s : sparse (Text.upper s) = sparse s.
Proof.
  induction s as [| c s IH]; [reflexivity |].
  cbn [Text.upper sparse]. rewrite IH, is_letter_upper.
  destruct s as [| d s']; [reflexivity |].
  cbn [Text.upper]. now rewrite is_digit_upper.
Qed.

Lemma prefix_sparse needle hay :
  alt_ok needle = true -> sparse hay = true -> String.prefix needle hay = false.
Proof.
  intros Hn Hs.
  destruct needle as [| a [| b needle]]; try discriminate Hn.
  cbn in Hn. apply andb_true_iff in Hn as [Ha Hb].
  destruct hay as [| c rest]; [reflexivity |].
  cbn [String.prefix]. destruct (ascii_dec a c) as [<- |]; [| reflexivity].
  cbn [sparse] in Hs. apply andb_true_iff in Hs as [Hc _]. rewrite Ha in Hc.
  destruct rest as [| d rest']; [reflexivity |].
  cbn [String.prefix]. destruct (ascii_dec b d) as [<- |]; [| reflexivity].
  cbn in Hc. rewrite Hc in Hb. discriminate Hb.
Qed.

Lemma contains_sparse needle hay :
  alt_ok needle = true -> sparse hay = true -> Text.contains needle hay = false.
Proof.
  intros Hn. induction hay as [| c hay IH]; intros Hs.
  - cbn [Text.contains]. now rewrite (prefix_sparse _ _ Hn Hs).
  - cbn [Text.contains]. rewrite (prefix_sparse _ _ Hn Hs).
    apply IH, (sparse_tail _ _ Hs).
Qed.

Lemma existsb_none {A} (f : A -> bool) l :
  (forall x, In x l -> f x = false) -> existsb f l = false.
Proof.
  intros H. induction l as [| x l IH]; [reflexivity |].
  cbn. rewrite (H x (or_introl eq_refl)). apply IH. intros y Hy. apply H. now right.
Qed.

Lemma find_none_all {A} (f : A -> bool) l :
  (forall x, In x l -> f x = false) -> List.find f l = None.
Proof.
  intros H. induction l as [| x l IH]; [reflexivity |].
  cbn. rewrite (H x (or_introl eq_refl)). apply IH. intros y Hy. apply H. now right.
Qed.

Lemma panic_codes_shape code :
  In code KillSwitch.PANIC_CODES -> alt_ok code = true.
Proof. intros H. repeat (destruct H as [<- | H]; [reflexivity |]). destruct H. Qed.

Lemma legacy_codes_known code :
  In code MeshBridge.PANIC_CODES -> In code KillSwitch.PANIC_CODES.
Proof.
  intros H. repeat (destruct H as [<- | H]; [cbn; tauto |]). destruct H.
Qed.

(** A text in which every letter is followed by a digit holds no panic
    code, whatever the configuration of the bridge and the signature. *)
Lemma panic_sparse b message signature now :
  sparse message = true -> MeshBridge.panic_accepted b message signature now = false.
Proof.
  intros Hs. rewrite <- sparse_upper in Hs. unfold MeshBridge.panic_accepted.
  destruct (MeshBridge.kill_switch b) as [v |].
  - unfold KillSwitch.check_panic_in_message. rewrite find_none_all; [reflexivity |].
    intros code Hc. apply contains_sparse; [now apply panic_codes_shape | exact Hs].
  - apply existsb_none. intros code Hc.
    apply contains_sparse; [apply panic_codes_shape, legacy_codes_known, Hc | exact Hs].
Qed.

(** Digits and their reading. *)

Lemma take_digits_all ds :
  string_forall Text.is_digit ds = true -> MeshBridge.take_digits ds = (ds, EmptyString).
Proof.
  induction ds as [| c ds IH]; [reflexivity |].
  cbn [string_forall MeshBridge.take_digits]. intros H.
  apply andb_true_iff in H as [Hc Hs]. now rewrite Hc, (IH Hs).
Qed.

Lemma digit_is_word c : Text.is_digit c = true -> Re.is_word_char c = true.
Proof. unfold Text.is_digit, Re.is_word_char. now intros ->. Qed.

Lemma upper_is_word c : Text.is_upper c = true -> Re.is_word_char c = true.
Proof.
  unfold Text.is_upper, Re.is_word_char. intros ->.
  now rewrite orb_true_r.
Qed.

Lemma last_char_digits ds : forall before,
  string_forall Text.is_digit ds = true ->
  ds <> EmptyString ->
  exists c, MeshBridge.last_char before ds = Some c /\ Text.is_digit c = true.
Proof.
  induction ds as [| c ds IH]; intros before H Hne; [contradiction |].
  cbn [string_forall] in H. apply andb_true_iff in H as [Hc Hs].
  cbn [MeshBridge.last_char].
  destruct ds as [| d ds']; [exists c; split; [reflexivity | exact Hc] |].
  apply IH; [exact Hs | discriminate].
Qed.

Lemma inv_findall_skip s : forall k before,
  (String.length s <= k)%nat -> MeshBridge.inv_findall_from k before s = [].
Proof.
  induction s as [| c s IH]; intros k before Hk; [reflexivity |].
  cbn [String.length] in Hk. destruct k as [| k]; [lia |].
  cbn [MeshBridge.inv_findall_from]. apply IH. lia.
Qed.

Lemma inv_findall_step before c s :
  MeshBridge.inv_findall_from 0 before (String c s)
  = match MeshBridge.inv_match_at before (String c s) with
    | Some (code, ds, n) => (code, ds) :: MeshBridge.inv_findall_from (pred n) (Some c) s
    | None => MeshBridge.inv_findall_from 0 (Some c) s
    end.
Proof. reflexivity. Qed.

Lemma inv_match_not_upper before c s :
  Text.is_upper c = false -> MeshBridge.inv_match_at before (String c s) = None.
Proof.
  intros Hc. unfold MeshBridge.inv_match_at.
  destruct (Re.at_boundary _ _); [| reflexivity].
  destruct s as [| d [| sep rest]]; try reflexivity.
  now rewrite Hc.
Qed.

Lemma inv_findall_no_upper s : forall k before,
  string_forall (fun c => negb (Text.is_upper c)) s = true ->
  MeshBridge.inv_findall_from k before s = [].
Proof.
  induction s as [| c s IH]; intros k before H; [reflexivity |].
  cbn [string_forall] in H. apply andb_true_iff in H as [Hc Hs].
  apply negb_true_iff in Hc.
  cbn [MeshBridge.inv_findall_from]. destruct k; [| now apply IH].
  rewrite (inv_match_not_upper _ _ _ Hc). now apply IH.
Qed.

Lemma letter_of_upper c : Text.is_upper c = true -> is_letter c = true.
Proof. unfold is_letter, Text.is_upper. now intros ->. Qed.

Lemma no_letter_no_upper s :
  string_forall (fun c => negb (is_letter c)) s = true ->
  string_forall (fun c => negb (Text.is_upper c)) s = true.
Proof.
  apply string_forall_impl. intros c Hc. apply negb_true_iff in Hc.
  apply negb_true_iff. destruct (Text.is_upper c) eqn:E; [| reflexivity].
  apply letter_of_upper in E. congruence.
Qed.

(** [str(qty)] of a quantity that is not negative: digits, at least one,
    that [int] reads back as the quantity. *)
Lemma str_of_int_digits qty :
  (0 <= qty)%Z ->
  string_forall Text.is_digit (Text.str_of_int qty) = true /\
  Text.str_of_int qty <> EmptyString /\
  Text.int_of_digits (Text.str_of_int qty) = qty.
Proof.
  intros Hq. unfold Text.str_of_int, Text.int_of_digits.
  destruct qty as [| p | p]; [repeat split; discriminate | | lia].
  cbn [Z.to_int NilZero.string_of_int].
  pose proof (DecimalPos.Unsigned.of_to p) as Hp.
  assert (Hs : NilZero.string_of_uint (Pos.to_uint p)
               = NilEmpty.string_of_uint (Pos.to_uint p)).
  { destruct (Pos.to_uint p) eqn:E; try reflexivity.
    discriminate Hp. }
  rewrite Hs, NilEmpty.usu. unfold N.of_uint. rewrite Hp.
  split; [apply uint_string_digits |]. split; [| reflexivity].
  destruct (Pos.to_uint p) eqn:E; discriminate.
Qed.

(** [str(qty)] of a negative quantity starts with the sign. *)
Lemma str_of_int_negative qty :
  (qty < 0)%Z -> exists ds, Text.str_of_int qty = String "-" ds.
Proof.
  intros Hq. destruct qty as [| p | p]; try lia.
  now exists (NilZero.string_of_uint (Pos.to_uint p)).
Qed.

Lemma code_shape code c :
  MeshBridge.COMMODITY_CODES !! code = Some c ->
  exists a d, code = String a (String d EmptyString) /\
              Text.is_upper a = true /\ Text.is_digit d = true.
Proof.
  intros H. apply commodity_code_cases in H.
  repeat (apply elem_of_cons in H as [-> | H];
          [eexists _, _; split; [reflexivity | split; reflexivity] |]).
  inversion H.
Qed.

Lemma inventory_message_eq a d qty :
  MeshBridge.inventory_message (String a (String d EmptyString)) qty
  = String a (String d (String ":" (Text.str_of_int qty))).
Proof. reflexivity. Qed.

Lemma inventory_message_upper code c qty :
  MeshBridge.COMMODITY_CODES !! code = Some c ->
  Text.upper (MeshBridge.inventory_message code qty)
  = MeshBridge.inventory_message code qty.
Proof.
  intros H. destruct (code_shape code c H) as (a & d & -> & Ha & Hd).
  rewrite inventory_message_eq. cbn [Text.upper].
  rewrite (upper_no_letter _ (str_of_int_no_letter qty)).
  rewrite (upper_char_no_letter d (digit_not_letter d Hd)).
  f_equal. revert Ha. clear. all_chars a; intros H; try reflexivity; discriminate H.
Qed.

Lemma inv_findall_message code c qty :
  MeshBridge.COMMODITY_CODES !! code = Some c ->
  (0 <= qty)%Z ->
  MeshBridge.inv_findall (Text.upper (MeshBridge.inventory_message code qty))
  = [(code, Text.str_of_int qty)].
Proof.
  intros H Hq. rewrite (inventory_message_upper code c qty H).
  destruct (code_shape code c H) as (a & d & -> & Ha & Hd).
  destruct (str_of_int_digits qty Hq) as (Hds & Hne & _).
  rewrite inventory_message_eq. unfold MeshBridge.inv_findall.
  set (ds := Text.str_of_int qty) in *.
  rewrite inv_findall_step.
  assert (Hm : MeshBridge.inv_match_at None (String a (String d (String ":" ds)))
               = Some (String a (String d EmptyString), ds, (3 + String.length ds)%nat)).
  { unfold MeshBridge.inv_match_at. cbn [Re.head_char].
    unfold Re.at_boundary at 1. cbn [Re.is_word_opt]. rewrite (upper_is_word a Ha).
    cbn [xorb]. rewrite Ha, Hd. cbn [andb orb Ascii.eqb].
    replace (Ascii.eqb ":" ":") with true by reflexivity. cbn [orb].
    rewrite (take_digits_all ds Hds).
    destruct (last_char_digits ds None Hds Hne) as (l & -> & Hl).
    unfold Re.at_boundary. cbn [Re.head_char Re.is_word_opt].
    rewrite (digit_is_word l Hl). cbn [xorb].
    destruct ds; [contradiction | reflexivity]. }
  rewrite Hm. f_equal. apply inv_findall_skip. cbn. lia.
Qed.

Lemma inv_findall_negative code c qty :
  MeshBridge.COMMODITY_CODES !! code = Some c ->
  (qty < 0)%Z ->
  MeshBridge.inv_findall (Text.upper (MeshBridge.inventory_message code qty)) = [].
Proof.
  intros H Hq. rewrite (inventory_message_upper code c qty H).
  destruct (code_shape code c H) as (a & d & -> & Ha & Hd).
  pose proof (str_of_int_no_letter qty) as Hnl.
  destruct (str_of_int_negative qty Hq) as (ds & Hds).
  rewrite inventory_message_eq. unfold MeshBridge.inv_findall.
  rewrite Hds in *.
  rewrite inv_findall_step.
  assert (Hm : MeshBridge.inv_match_at None
                 (String a (String d (String ":" (String "-" ds)))) = None).
  { unfold MeshBridge.inv_match_at.
    destruct (Re.at_boundary _ _); [| reflexivity].
    destruct (_ && _ && _); reflexivity. }
  rewrite Hm. apply inv_findall_no_upper, no_letter_no_upper.
  change (negb (is_letter d)
          && (negb (is_letter ":")
              && string_forall (fun c => negb (is_letter c)) (String "-" ds)) = true).
  rewrite Hnl, (digit_not_letter d Hd). reflexivity.
Qed.

(** ** The bridge on inventory messages *)

(** A message without signals on a guard whose two risks are below a
    bound: the larger risk stays below it, and the risk of the channel the
    message is counted on does not rise. *)
Lemma process_sparse g text direction language clk (bound : Q) :
  sparse text = true ->
  guard_ok g ->
  last_update (channel_of g direction) <= t_update clk ->
  risk (inbound g) < bound -> risk (outbound g) < bound ->
  m_bilateral_risk (fst (process_message g text direction language clk)) < bound /\
  risk (channel_of (snd (process_message g text direction language clk)) direction)
  <= risk (channel_of g direction).
Proof.
  intros Hs Hok Ht Hi Ho.
  assert (Hc : risk (channel_of (snd (process_message g text direction language clk))
                                direction)
               <= risk (channel_of g direction)).
  { rewrite process_channel, (analyze_sparse _ _ Hs). cbn [fst snd].
    apply update_quiet_risk_le; [| exact Ht |].
    - destruct Hok as [[[Hl _] _] [[Hl' _] _]]. unfold channel_of.
      destruct (decide (direction = INBOUND)); assumption.
    - unfold _compute_risk_delta. rewrite map_fold_empty. reflexivity. }
  split; [| exact Hc].
  destruct (process_result_bilateral g text direction language clk) as [-> _].
  unfold channel_of in Hc.
  destruct (decide (direction = INBOUND)) as [Hd | Hd].
  - rewrite (process_other_outbound _ _ _ _ _ Hd).
    apply Q.max_lub_lt; [eapply Qle_lt_trans; eassumption | exact Ho].
  - rewrite (process_other_inbound _ _ _ _ _ Hd).
    apply Q.max_lub_lt; [exact Hi | eapply Qle_lt_trans; eassumption].
Qed.

Lemma handoff_below g text direction language clk :
  m_bilateral_risk (fst (process_message g text direction language clk)) < CLAMP_HIGH ->
  m_handoff (fst (process_message g text direction language clk)) = false.
Proof.
  intros H. rewrite process_handoff_bilateral.
  destruct (Qgeb _ CLAMP_HIGH) eqn:E; [| reflexivity].
  apply Qgeb_true in E. lra.
Qed.

Lemma parse_inventory_message b code c qty sender_id now :
  MeshBridge.COMMODITY_CODES !! code = Some c ->
  (0 <= qty)%Z ->
  MeshBridge._parse_inventory b (MeshBridge.inventory_message code qty) sender_id now
  = (MeshBridge.set_network_inventory b
       (<[sender_id :=
            <[code := {| MeshBridge.quantity := qty; MeshBridge.commodity := c;
                         MeshBridge.timestamp := now |}]>
              (default ∅ (MeshBridge.network_inventory b !! sender_id))]>
          (MeshBridge.network_inventory b)),
     [MeshBridge.EvInventory sender_id code qty (MeshBridge.name c)]).
Proof.
  intros H Hq. unfold MeshBridge._parse_inventory.
  rewrite (inv_findall_message code c qty H Hq).
  cbn [fold_left]. unfold MeshBridge.record_match. rewrite H.
  destruct (str_of_int_digits qty Hq) as (_ & _ & ->). reflexivity.
Qed.

(** X21.  What [send_inventory] builds for a known code and a quantity that is
    not negative is read back by [_parse_inventory] as that code and that
    quantity: one inventory event, the sender's entry for the code set to
    the quantity and the clock reading, and the entries of the other
    senders, the guard and the local inventory left as they were. *)
Theorem inventory_round_trip b code c qty sender_id now :
  MeshBridge.COMMODITY_CODES !! code = Some c ->
  (0 <= qty)%Z ->
  let out := MeshBridge._parse_inventory
               b (MeshBridge.inventory_message code qty) sender_id now in
  snd out = [MeshBridge.EvInventory sender_id code qty (MeshBridge.name c)] /\
  network_entry (fst out) sender_id code
  = Some {| MeshBridge.quantity := qty; MeshBridge.commodity := c;
            MeshBridge.timestamp := now |} /\
  (forall other, other <> sender_id ->
     MeshBridge.network_inventory (fst out) !! other
     = MeshBridge.network_inventory b !! other) /\
  MeshBridge.guard (fst out) = MeshBridge.guard b /\
  MeshBridge.local_inventory (fst out) = MeshBridge.local_inventory b.
Proof.
  intros H Hq out. subst out. rewrite (parse_inventory_message b code c qty _ _ H Hq).
  cbn [fst snd]. split; [reflexivity |]. split.
  - unfold network_entry. cbn [MeshBridge.network_inventory MeshBridge.set_network_inventory].
    rewrite lookup_insert_eq. apply lookup_insert_eq.
  - split; [| split; reflexivity].
    intros other Hne. cbn [MeshBridge.network_inventory MeshBridge.set_network_inventory].
    apply lookup_insert_ne. congruence.
Qed.

Lemma inventory_round_trip_witness :
  let b := {| MeshBridge.guard := fresh_guard "local" SPANISH None 0;
              MeshBridge.kill_switch := None;
              MeshBridge.local_inventory := ∅;
              MeshBridge.network_inventory := ∅ |} in
  let out := MeshBridge._parse_inventory
               b (MeshBridge.inventory_message "C2" 200) "node7" 1000 in
  exists c,
    MeshBridge.COMMODITY_CODES !! "C2"%string = Some c /\
    MeshBridge.inventory_message "C2" 200 = "C2:200"%string /\
    snd out = [MeshBridge.EvInventory "node7" "C2" 200 (MeshBridge.name c)] /\
    network_entry (fst out) "node7" "C2"
    = Some {| MeshBridge.quantity := 200; MeshBridge.commodity := c;
              MeshBridge.timestamp := 1000 |}.
Proof.
  intros b out.
  destruct (MeshBridge.COMMODITY_CODES !! "C2"%string) as [c |] eqn:E;
    [| vm_compute in E; discriminate E].
  exists c. split; [reflexivity |]. split; [reflexivity |].
  assert (Hq : (0 <= 200)%Z) by lia.
  destruct (inventory_round_trip b "C2" c 200 "node7" 1000 E Hq) as (He & Hn & _).
  split; [exact He | exact Hn].
Defined.

(** X22.  A negative quantity is put into the message with its sign, which the
    inventory pattern does not accept: [_parse_inventory] records nothing
    for it and reports nothing. *)
Theorem negative_quantity_dropped b code c qty sender_id now :
  MeshBridge.COMMODITY_CODES !! code = Some c ->
  (qty < 0)%Z ->
  MeshBridge._parse_inventory b (MeshBridge.inventory_message code qty) sender_id now
  = (b, []).
Proof.
  intros H Hq. unfold MeshBridge._parse_inventory.
  now rewrite (inv_findall_negative code c qty H Hq).
Qed.

Lemma negative_quantity_dropped_witness :
  let b := {| MeshBridge.guard := fresh_guard "local" SPANISH None 0;
              MeshBridge.kill_switch := None;
              MeshBridge.local_inventory := ∅;
              MeshBridge.network_inventory := ∅ |} in
  exists c,
    MeshBridge.COMMODITY_CODES !! "A1"%string = Some c /\
    MeshBridge.inventory_message "A1" (-5) = "A1:-5"%string /\
    MeshBridge._parse_inventory b (MeshBridge.inventory_message "A1" (-5)) "node7" 1000
    = (b, []).
Proof.
  intros b.
  destruct (MeshBridge.COMMODITY_CODES !! "A1"%string) as [c |] eqn:E;
    [| vm_compute in E; discriminate E].
  exists c. split; [reflexivity |]. split; [reflexivity |].
  assert (Hq : (-5 < 0)%Z) by lia.
  exact (negative_quantity_dropped b "A1" c (-5) "node7" 1000 E Hq).
Defined.

(** X23.  An inventory message for a known code and a quantity that is not
    negative, received by a bridge whose guard is within the bounds with
    both risks below [0.3] and whose clock is not before the inbound
    channel's last update, is never taken for a panic code, is rated LOW
    and is recorded: the call reports one inventory event and sets the
    sender's entry, whatever the kill switch and the signature. *)
Theorem inventory_delivery b code c qty sender_id signature now clk :
  guard_ok (MeshBridge.guard b) ->
  risk (inbound (MeshBridge.guard b)) < 0.3 ->
  risk (outbound (MeshBridge.guard b)) < 0.3 ->
  last_update (inbound (MeshBridge.guard b)) <= t_update clk ->
  MeshBridge.COMMODITY_CODES !! code = Some c ->
  (0 <= qty)%Z ->
  let out := MeshBridge.process_inbound
               b (MeshBridge.inventory_message code qty) sender_id signature now clk in
  exists res,
    fst out = MeshBridge.Processed
                res [MeshBridge.EvInventory sender_id code qty (MeshBridge.name c)] /\
    m_level res = "LOW"%string /\ m_handoff res = false /\
    network_entry (snd out) sender_id code
    = Some {| MeshBridge.quantity := qty; MeshBridge.commodity := c;
              MeshBridge.timestamp := now |}.
Proof.
  intros Hok Hi Ho Ht H Hq out. subst out.
  pose proof (inventory_message_sparse code c qty H) as Hs.
  destruct (process_sparse (MeshBridge.guard b) (MeshBridge.inventory_message code qty)
              INBOUND AUTO clk 0.3 Hs Hok Ht Hi Ho) as [Hb _].
  assert (Hh : m_handoff (fst (process_message (MeshBridge.guard b)
                 (MeshBridge.inventory_message code qty) INBOUND AUTO clk)) = false).
  { apply handoff_below. eapply Qlt_trans; [exact Hb | reflexivity]. }
  assert (Hl : m_level (fst (process_message (MeshBridge.guard b)
                 (MeshBridge.inventory_message code qty) INBOUND AUTO clk))
               = "LOW"%string).
  { rewrite process_level_eq. now apply compute_level_low. }
  unfold MeshBridge.process_inbound. rewrite (panic_sparse b _ signature now Hs).
  destruct (process_message _ _ _ _ _) as [result g'].
  cbn [fst] in Hh, Hl. rewrite Hh, Hl. cbn [String.eqb Ascii.eqb Bool.eqb].
  rewrite (parse_inventory_message _ code c qty sender_id now H Hq).
  exists result. cbn [fst snd]. split; [reflexivity |]. split; [exact Hl |].
  split; [exact Hh |].
  unfold network_entry. cbn [MeshBridge.network_inventory MeshBridge.set_network_inventory].
  rewrite lookup_insert_eq. apply lookup_insert_eq.
Qed.

Lemma inventory_delivery_witness :
  let b := {| MeshBridge.guard := fresh_guard "local" SPANISH None 0;
              MeshBridge.kill_switch :=
                Some {| KillSwitch.admin_key_id := None; KillSwitch.gpg := None |};
              MeshBridge.local_inventory := ∅;
              MeshBridge.network_inventory := ∅ |} in
  let out := MeshBridge.process_inbound
               b (MeshBridge.inventory_message "B1" 75) "node7" None 1000 (at_time 1000) in
  exists c res,
    MeshBridge.COMMODITY_CODES !! "B1"%string = Some c /\
    guard_ok (MeshBridge.guard b) /\
    fst out = MeshBridge.Processed
                res [MeshBridge.EvInventory "node7" "B1" 75 (MeshBridge.name c)] /\
    m_level res = "LOW"%string /\ m_handoff res = false /\
    network_entry (snd out) "node7" "B1"
    = Some {| MeshBridge.quantity := 75; MeshBridge.commodity := c;
              MeshBridge.timestamp := 1000 |}.
Proof.
  intros b out.
  destruct (MeshBridge.COMMODITY_CODES !! "B1"%string) as [c |] eqn:E;
    [| vm_compute in E; discriminate E].
  assert (Hok : guard_ok (MeshBridge.guard b)) by apply fresh_guard_ok.
  assert (Hi : risk (inbound (MeshBridge.guard b)) < 0.3) by reflexivity.
  assert (Ho : risk (outbound (MeshBridge.guard b)) < 0.3) by reflexivity.
  assert (Ht : last_update (inbound (MeshBridge.guard b)) <= t_update (at_time 1000))
    by (vm_compute; discriminate).
  assert (Hq : (0 <= 75)%Z) by lia.
  destruct (inventory_delivery b "B1" c 75 "node7" None 1000 (at_time 1000)
              Hok Hi Ho Ht E Hq) as (res & Hres).
  exists c, res. split; [reflexivity |]. split; [exact Hok | exact Hres].
Defined.

(** ** Sending *)

(** X24.  A known code, a guard within the bounds with both risks below
    [CLAMP_HIGH], a clock not before the outbound channel's last update and
    a radio link that is absent or succeeds: [send_inventory] is not
    blocked, whatever the quantity; it returns the message it built, sets
    the local inventory at the code, and the outbound risk does not rise. *)
Theorem send_inventory_passes b code c qty clk link :
  guard_ok (MeshBridge.guard b) ->
  risk (inbound (MeshBridge.guard b)) < CLAMP_HIGH ->
  risk (outbound (MeshBridge.guard b)) < CLAMP_HIGH ->
  last_update (outbound (MeshBridge.guard b)) <= t_update clk ->
  MeshBridge.COMMODITY_CODES !! code = Some c ->
  link <> Some false ->
  let out := MeshBridge.send_inventory b code qty clk link in
  fst out = MeshBridge.Sent (MeshBridge.inventory_message code qty) /\
  MeshBridge.local_inventory (snd out) = <[code := qty]> (MeshBridge.local_inventory b) /\
  risk (outbound (MeshBridge.guard (snd out))) <= risk (outbound (MeshBridge.guard b)).
Proof.
  intros Hok Hi Ho Ht H Hlink out. subst out.
  pose proof (inventory_message_sparse code c qty H) as Hs.
  destruct (process_sparse (MeshBridge.guard b) (MeshBridge.inventory_message code qty)
              OUTBOUND AUTO clk CLAMP_HIGH Hs Hok Ht Hi Ho) as [Hb Hr].
  pose proof (handoff_below _ _ _ _ _ Hb) as Hh.
  unfold MeshBridge.send_inventory, MeshBridge.process_outbound. rewrite H.
  destruct (process_message _ _ _ _ _) as [result g'].
  cbn [fst snd] in Hh, Hr. rewrite Hh.
  destruct link as [[|] |]; try contradiction; cbn; auto.
Qed.

Lemma send_inventory_passes_witness :
  let b := {| MeshBridge.guard :=
                run (fresh_guard "local" SPANISH None 0)
                    [OpProcess "URGENTE! Actua AHORA!" INBOUND SPANISH (at_time 900)];
              MeshBridge.kill_switch := None;
              MeshBridge.local_inventory := ∅;
              MeshBridge.network_inventory := ∅ |} in
  let out := MeshBridge.send_inventory b "V2" (-3) (at_time 1000) (Some true) in
  exists c,
    MeshBridge.COMMODITY_CODES !! "V2"%string = Some c /\
    guard_ok (MeshBridge.guard b) /\
    fst out = MeshBridge.Sent "V2:-3" /\
    MeshBridge.local_inventory (snd out) !! "V2"%string = Some (-3)%Z /\
    risk (outbound (MeshBridge.guard (snd out))) <= risk (outbound (MeshBridge.guard b)).
Proof.
  intros b out.
  destruct (MeshBridge.COMMODITY_CODES !! "V2"%string) as [c |] eqn:E;
    [| vm_compute in E; discriminate E].
  assert (Hok : guard_ok (MeshBridge.guard b)) by (apply step_ok, fresh_guard_ok).
  assert (Hi : risk (inbound (MeshBridge.guard b)) < CLAMP_HIGH) by (vm_compute; reflexivity).
  assert (Ho : risk (outbound (MeshBridge.guard b)) < CLAMP_HIGH) by (vm_compute; reflexivity).
  assert (Ht : last_update (outbound (MeshBridge.guard b)) <= t_update (at_time 1000))
    by (vm_compute; discriminate).
  assert (Hl : Some true <> Some false) by discriminate.
  destruct (send_inventory_passes b "V2" c (-3) (at_time 1000) (Some true)
              Hok Hi Ho Ht E Hl) as (Hs & Hinv & Hr).
  exists c. split; [reflexivity |]. split; [exact Hok |]. split; [exact Hs |].
  split; [| exact Hr].
  unfold out. rewrite Hinv. apply lookup_insert_eq.
Defined.

(** X25.  What [send_inventory] touches.  An unknown code leaves the bridge as
    it is and the guard never sees a message.  A known code is counted on
    the outbound channel whatever the outcome (a blocked send and a failed
    send are counted too).  The network inventory, the kill switch and the
    inbound channel are never changed, and the local inventory changes
    only when the call reports the message as sent, and then only at the
    code. *)
Theorem send_inventory_frame b code qty clk link :
  let out := MeshBridge.send_inventory b code qty clk link in
  (MeshBridge.COMMODITY_CODES !! code = None ->
     out = (MeshBridge.UnknownCode, b)) /\
  (is_Some (MeshBridge.COMMODITY_CODES !! code) ->
     turn_count (outbound (MeshBridge.guard (snd out)))
     = (turn_count (outbound (MeshBridge.guard b)) + 1)%Z /\
     total_messages (MeshBridge.guard (snd out))
     = (total_messages (MeshBridge.guard b) + 1)%Z) /\
  MeshBridge.network_inventory (snd out) = MeshBridge.network_inventory b /\
  MeshBridge.kill_switch (snd out) = MeshBridge.kill_switch b /\
  inbound (MeshBridge.guard (snd out)) = inbound (MeshBridge.guard b) /\
  (fst out = MeshBridge.Sent (MeshBridge.inventory_message code qty) /\
   MeshBridge.local_inventory (snd out) = <[code := qty]> (MeshBridge.local_inventory b)
   \/
   (forall text, fst out <> MeshBridge.Sent text) /\
   MeshBridge.local_inventory (snd out) = MeshBridge.local_inventory b).
Proof.
  intros out. subst out.
  unfold MeshBridge.send_inventory, MeshBridge.process_outbound.
  destruct (MeshBridge.COMMODITY_CODES !! code) as [c |] eqn:E.
  - pose proof (process_channel (MeshBridge.guard b)
                  (MeshBridge.inventory_message code qty) OUTBOUND AUTO clk) as Hc.
    pose proof (process_other_inbound (MeshBridge.guard b)
                  (MeshBridge.inventory_message code qty) OUTBOUND AUTO clk) as Hin.
    pose proof (process_total_messages (MeshBridge.guard b)
                  (MeshBridge.inventory_message code qty) OUTBOUND AUTO clk) as Htot.
    cbv zeta in Htot.
    destruct (process_message _ _ _ _ _) as [result g'].
    cbn [fst snd] in Hc, Hin, Htot.
    assert (Hturn : turn_count (outbound g')
                    = (turn_count (outbound (MeshBridge.guard b)) + 1)%Z).
    { change (outbound g') with (channel_of g' OUTBOUND). rewrite Hc.
      apply update_turn_count. }
    specialize (Hin ltac:(discriminate)).
    split; [discriminate |].
    destruct (m_handoff result); [| destruct link as [[|] |]]; cbn;
      (split; [intros _; split; [exact Hturn | exact Htot] |]);
      (split; [reflexivity |]); (split; [reflexivity |]); (split; [exact Hin |]);
      solve [left; split; reflexivity | right; split; [discriminate | reflexivity]].
  - split; [reflexivity |]. split; [intros [? ?]; discriminate |].
    cbn. repeat (split; [reflexivity |]). right. split; [discriminate | reflexivity].
Qed.

(** ** Receiving *)

(** X26.  The outbound channel decides for the inbound traffic too: while its
    risk is [0.3] or more, no inbound message is rated LOW, and no
    inventory is recorded or reported, whatever the text says. *)
Theorem inventory_needs_low b message sender_id signature now clk :
  0.3 <= risk (outbound (MeshBridge.guard b)) ->
  let out := MeshBridge.process_inbound b message sender_id signature now clk in
  MeshBridge.network_inventory (snd out) = MeshBridge.network_inventory b /\
  match fst out with
  | MeshBridge.Killed => True
  | MeshBridge.Processed res events =>
      m_level res <> "LOW"%string /\ existsb is_inventory_event events = false
  end.
Proof.
  intros Ho out. subst out. unfold MeshBridge.process_inbound.
  destruct (MeshBridge.panic_accepted b message signature now); [split; [reflexivity | exact I] |].
  assert (Hl : m_level (fst (process_message (MeshBridge.guard b) message INBOUND AUTO clk))
               <> "LOW"%string).
  { rewrite process_level_eq. intros Hlow. apply compute_level_low in Hlow.
    destruct (process_result_bilateral (MeshBridge.guard b) message INBOUND AUTO clk)
      as [Hb _].
    rewrite Hb, (process_other_outbound _ _ _ _ _ eq_refl) in Hlow.
    pose proof (Q.le_max_r
                  (risk (inbound (snd (process_message (MeshBridge.guard b) message
                                                       INBOUND AUTO clk))))
                  (risk (outbound (MeshBridge.guard b)))).
    lra. }
  destruct (process_message _ _ _ _ _) as [result g']. cbn [fst] in Hl.
  destruct (m_handoff result);
    [cbn [fst snd]; split; [reflexivity | split; [exact Hl | reflexivity]] |].
  apply String.eqb_neq in Hl. rewrite Hl. cbn [fst snd].
  split; [reflexivity | split; [now apply String.eqb_neq | reflexivity]].
Qed.

Lemma inventory_needs_low_witness :
  let b := {| MeshBridge.guard :=
                snd (release_lockdown
                       (trigger_lockdown (fresh_guard "local" SPANISH None 0) "manual"));
              MeshBridge.kill_switch := None;
              MeshBridge.local_inventory := ∅;
              MeshBridge.network_inventory := ∅ |} in
  let out := MeshBridge.process_inbound b "A1:150" "node7" None 1000 (at_time 1000) in
  0.3 <= risk (outbound (MeshBridge.guard b)) /\
  MeshBridge.network_inventory (snd out) = MeshBridge.network_inventory b /\
  match fst out with
  | MeshBridge.Killed => True
  | MeshBridge.Processed res events =>
      m_level res <> "LOW"%string /\ existsb is_inventory_event events = false
  end.
Proof.
  intros b out.
  assert (Ho : 0.3 <= risk (outbound (MeshBridge.guard b))) by (vm_compute; discriminate).
  split; [exact Ho |].
  exact (inventory_needs_low b "A1:150" "node7" None 1000 (at_time 1000) Ho).
Defined.

(** ** Panic codes *)

Lemma killed_accepted b message sender_id signature now clk :
  fst (MeshBridge.process_inbound b message sender_id signature now clk)
  = MeshBridge.Killed ->
  MeshBridge.panic_accepted b message signature now = true.
Proof.
  unfold MeshBridge.process_inbound.
  destruct (MeshBridge.panic_accepted b message signature now); [reflexivity |].
  destruct (process_message _ _ _ _ _) as [result g'].
  destruct (m_handoff result); [discriminate |].
  destruct (String.eqb _ _); [| discriminate].
  destruct (MeshBridge._parse_inventory _ _ _ _); discriminate.
Qed.

(** X27.  With a kill switch that has an administrator key, a message ends the
    process only if it holds a panic code, comes with a signature, and the
    verification answers that the signature is valid under the
    administrator key for that code in the five-minute window of the
    clock reading. *)
Theorem keyed_panic_needs_signature b v message sender_id signature now clk :
  MeshBridge.kill_switch b = Some v ->
  Text.truthy (KillSwitch.admin_key_id v) = true ->
  fst (MeshBridge.process_inbound b message sender_id signature now clk)
  = MeshBridge.Killed ->
  exists code sig verify,
    code ∈ KillSwitch.PANIC_CODES /\
    Text.contains code (Text.upper message) = true /\
    signature = Some sig /\ sig <> EmptyString /\
    KillSwitch.gpg v = Some verify /\
    verify sig (KillSwitch.panic_message code now)
    = Some (true, KillSwitch.admin_key_id v).
Proof.
  intros Hv Hk Hkilled. apply killed_accepted in Hkilled.
  unfold MeshBridge.panic_accepted in Hkilled. rewrite Hv in Hkilled.
  destruct (KillSwitch.check_panic_in_message message) as [code |] eqn:Ec;
    [| discriminate Hkilled].
  apply find_some in Ec as [Hin Hc].
  unfold KillSwitch.verify_panic in Hkilled. rewrite Hk in Hkilled.
  destruct (negb (existsb _ _)); [discriminate Hkilled |].
  cbn [negb] in Hkilled.
  destruct signature as [[| s0 sig] |]; try discriminate Hkilled.
  cbn [Text.truthy negb default] in Hkilled.
  destruct (KillSwitch.gpg v) as [verify |] eqn:Eg; [| discriminate Hkilled].
  destruct (verify _ _) as [[valid key_id] |] eqn:Ev; [| discriminate Hkilled].
  apply andb_true_iff in Hkilled as [-> Hkey]. apply bool_decide_eq_true in Hkey.
  subst key_id.
  exists code, (String s0 sig), verify.
  split; [now apply list_elem_of_In |]. split; [exact Hc |].
  split; [reflexivity |]. split; [discriminate |]. split; [reflexivity | exact Ev].
Qed.

Lemma keyed_panic_needs_signature_witness :
  let verify : KillSwitch.Gpg :=
    fun sig msg =>
      if String.eqb sig "sig-3" && String.eqb msg "PANIC:XKILL:3"
      then Some (true, Some "ADMIN"%string) else Some (false, None) in
  let v := {| KillSwitch.admin_key_id := Some "ADMIN"%string;
              KillSwitch.gpg := Some verify |} in
  let b := {| MeshBridge.guard := fresh_guard "local" SPANISH None 0;
              MeshBridge.kill_switch := Some v;
              MeshBridge.local_inventory := ∅;
              MeshBridge.network_inventory := ∅ |} in
  fst (MeshBridge.process_inbound b "xkill" "node7" (Some "sig-3"%string) 1000
                                  (at_time 1000)) = MeshBridge.Killed /\
  exists code sig verify',
    code ∈ KillSwitch.PANIC_CODES /\
    Text.contains code (Text.upper "xkill") = true /\
    Some "sig-3"%string = Some sig /\ sig <> EmptyString /\
    KillSwitch.gpg v = Some verify' /\
    verify' sig (KillSwitch.panic_message code 1000)
    = Some (true, KillSwitch.admin_key_id v).
Proof.
  intros verify v b.
  assert (Hv : MeshBridge.kill_switch b = Some v) by reflexivity.
  assert (Hk : Text.truthy (KillSwitch.admin_key_id v) = true) by reflexivity.
  assert (Hkilled : fst (MeshBridge.process_inbound b "xkill" "node7"
                           (Some "sig-3"%string) 1000 (at_time 1000))
                    = MeshBridge.Killed) by (vm_compute; reflexivity).
  split; [exact Hkilled |].
  exact (keyed_panic_needs_signature b v "xkill" "node7" (Some "sig-3"%string) 1000
                                     (at_time 1000) Hv Hk Hkilled).
Defined.

Lemma panic_code_valid code :
  In code KillSwitch.PANIC_CODES ->
  existsb (String.eqb (Text.upper code)) KillSwitch.PANIC_CODES = true.
Proof. intros H. repeat (destruct H as [<- | H]; [reflexivity |]). destruct H. Qed.

(** X28.  Without an administrator key a panic code needs no signature: a
    message that holds a code of the table in use anywhere in its text, in
    any case and also inside a longer word, ends the process at once; the
    guard does not see the message and the bridge is left as it is. *)
Theorem unkeyed_panic_kills b code message sender_id signature now clk :
  unkeyed b code ->
  Text.contains code (Text.upper message) = true ->
  MeshBridge.process_inbound b message sender_id signature now clk
  = (MeshBridge.Killed, b).
Proof.
  intros Hu Hc. unfold MeshBridge.process_inbound.
  assert (Ha : MeshBridge.panic_accepted b message signature now = true);
    [| now rewrite Ha].
  unfold unkeyed in Hu. unfold MeshBridge.panic_accepted.
  destruct (MeshBridge.kill_switch b) as [v |].
  - destruct Hu as [Hk Hin]. apply list_elem_of_In in Hin.
    destruct (KillSwitch.check_panic_in_message message) as [found |] eqn:Ef.
    + apply find_some in Ef as [Hf _]. unfold KillSwitch.verify_panic.
      now rewrite (panic_code_valid found Hf), Hk.
    + pose proof (find_none _ _ Ef code Hin) as Hn. cbv beta in Hn. congruence.
  - apply existsb_exists. exists code. split; [now apply list_elem_of_In | exact Hc].
Qed.

Lemma unkeyed_panic_kills_witness :
  let b := {| MeshBridge.guard := fresh_guard "local" SPANISH None 0;
              MeshBridge.kill_switch := None;
              MeshBridge.local_inventory := ∅;
              MeshBridge.network_inventory := ∅ |} in
  let message := "no voy a borrarlo"%string in
  unkeyed b "BORRAR" /\
  Text.contains "BORRAR" (Text.upper message) = true /\
  MeshBridge.process_inbound b message "node7" None 1000 (at_time 1000)
  = (MeshBridge.Killed, b).
Proof.
  intros b message.
  assert (Hu : unkeyed b "BORRAR").
  { change ("BORRAR"%string ∈ MeshBridge.PANIC_CODES).
    apply (bool_decide_unpack _). vm_compute. exact I. }
  assert (Hc : Text.contains "BORRAR" (Text.upper message) = true) by reflexivity.
  split; [exact Hu |]. split; [exact Hc |].
  exact (unkeyed_panic_kills b "BORRAR" message "node7" None 1000 (at_time 1000) Hu Hc).
Defined.
